(** * LedFx to iCUE bridge: a shallow embedding of [ledfx_icue_core.py]

    The first part follows the layout of the Python module:
    - [Py]      : the Python list, slice and number primitives the code uses;
    - [Lut]     : [build_lut], over IEEE binary64 numbers;
    - [Decoders]: [looks_like_ddp], [parse_ddp], [_clear_tail] and
                  [parse_wled_or_raw];
    - [Mapper]  : the part of [LedMapper] that orders devices and composes
                  and pushes frames ([get_device_order], [apply_frame_map],
                  [_cluster_rows], [_compute_serpentine_order]);
    - [Runtime] : the body of the reactive loop of [run_bridge];
    - [Notions] and [Samples]: the vocabulary of the statements and a small
                  installation to run the definitions on; the modules
                  [DecoderNotions], [MapperNotions], [LoopNotions],
                  [FrameNotions] and [ColorNotions] add the vocabulary of
                  the properties on what is written, pushed and kept.

    A Python exception is [None] in the option monad, or the outcome
    [Raised] where the state left behind matters.  The second part states
    and proves the properties, one module per subject. *)

From Stdlib Require Import ZArith Floats Uint63 Lia.
From stdpp Require Import base option list strings gmap.

Open Scope Z_scope.

(** Decimal literals such as [0.4] stand for the nearest binary64 number,
    as they do in Python. *)
Set Warnings "-inexact-float".

(* ===================================================================== *)
(** ** Python primitives *)
(* ===================================================================== *)

Module Py.

(** [len(l)], as a Python integer. *)
Definition len {A} (l : list A) : Z := Z.of_nat (length l).

(** Bounds of a slice [l[lo:hi]]: a negative bound counts from the end,
    and both bounds are clipped to [0, len(l)]. *)
Definition clip (n i : Z) : nat :=
  let j := if i <? 0 then i + n else i in
  Z.to_nat (if j <? 0 then 0 else if n <? j then n else j).

(** [l[lo:hi]]: never raises. *)
Definition slice {A} (l : list A) (lo hi : Z) : list A :=
  let a := clip (len l) lo in
  let b := clip (len l) hi in
  take (b - a)%nat (drop a l).

(** [l[lo:]] and [l[:hi]]. *)
Definition slice_from {A} (l : list A) (lo : Z) : list A := slice l lo (len l).
Definition slice_to {A} (l : list A) (hi : Z) : list A := slice l 0 hi.

(** [l[lo:hi] = src] on a list or bytearray: the slice is replaced by
    [src], whatever its length, so the container may grow or shrink. *)
Definition slice_assign {A} (l : list A) (lo hi : Z) (src : list A) : list A :=
  let a := clip (len l) lo in
  let b := clip (len l) hi in
  take a l ++ src ++ drop (Nat.max a b) l.

(** [l[i]]: IndexError when [i] is out of range. *)
Definition getitem {A} (l : list A) (i : Z) : option A :=
  let j := if i <? 0 then i + len l else i in
  if j <? 0 then None else l !! Z.to_nat j.

(** [l[i] = v]: IndexError when [i] is out of range. *)
Definition setitem {A} (l : list A) (i : Z) (v : A) : option (list A) :=
  let j := if i <? 0 then i + len l else i in
  if (j <? 0) || (len l <=? j) then None else Some (<[Z.to_nat j := v]> l).

(** [range(start, stop, step)] for a positive step. *)
Fixpoint range_fuel (fuel : nat) (start stop step : Z) : list Z :=
  match fuel with
  | O => []
  | S k => if start <? stop then start :: range_fuel k (start + step) stop step
           else []
  end.

Definition range (start stop step : Z) : list Z :=
  range_fuel (Z.to_nat (stop - start)) start stop step.

(** The value of a byte, and [int.from_bytes(bs, "big")]. *)
Definition byte_val (b : Byte.byte) : Z := Z.of_N (Byte.to_N b).

Definition int_from_bytes_big (bs : list Byte.byte) : Z :=
  fold_left (fun acc b => acc * 256 + byte_val b) bs 0.

(** A byte literal from its value (values above 255 are not bytes). *)
Definition byte_of (n : N) : Byte.byte :=
  match Byte.of_N n with Some b => b | None => Byte.x00 end.

(** A byte string written by the values of its bytes. *)
Definition bytes (l : list N) : list Byte.byte := map byte_of l.

(** [b"\x00" * n]. *)
Definition zeros (n : Z) : list Byte.byte := replicate (Z.to_nat n) Byte.x00.

(** Truth value of a string-or-None argument: [s or d]. *)
Definition or_default (s : option string) (d : string) : string :=
  match s with
  | Some v => if String.eqb v "" then d else v
  | None => d
  end.

(** [str.lower()] on ASCII letters. *)
Definition lower_ascii (c : Ascii.ascii) : Ascii.ascii :=
  let n := Ascii.nat_of_ascii c in
  if (65 <=? n)%nat && (n <=? 90)%nat then Ascii.ascii_of_nat (n + 32) else c.

Fixpoint lower (s : string) : string :=
  match s with
  | EmptyString => EmptyString
  | String c r => String (lower_ascii c) (lower r)
  end.

End Py.

(* ===================================================================== *)
(** ** The brightness and gamma lookup table *)
(* ===================================================================== *)

Module Lut.

(** Python floats are IEEE binary64 numbers, as Rocq's primitive floats. *)


(** [int(v)]: truncation toward zero; ValueError on a NaN and
    OverflowError on an infinity. *)
Definition int_of_float (v : float) : option Z :=
  match Prim2SF v with
  | S754_zero _ => Some 0
  | S754_finite s m e =>
      let mag := if 0 <=? e then Z.shiftl (Z.pos m) e
                 else Z.shiftr (Z.pos m) (- e) in
      Some (if s then - mag else mag)
  | S754_infinity _ => None
  | S754_nan => None
  end.

(** Truth value of a float: zero is false, everything else is true. *)
Definition truthy (v : float) : bool := negb (v =? 0)%float.

Section BuildLut.

(** [x ** y] on floats is the platform's [pow]; it raises on a zero base
    with a negative exponent and on overflow. *)
Variable pow : float -> float -> option float.








End BuildLut.






End Lut.

(* ===================================================================== *)
(** ** Protocol decoders *)
(* ===================================================================== *)

Module Decoders.
Import Py.

Abbreviation byte := Byte.byte.

(** A decoder works on the group's [bytearray]; it returns the array after
    its writes, or [None] when it raises. *)

(** Fields of the DDP header, as the two functions below compute them. *)
Definition ddp_version (b0 : byte) : Z := Z.shiftr (Z.land (byte_val b0) 0xC0) 6.
Definition ddp_header_len (b0 : byte) : Z :=
  if Z.land (byte_val b0) 0x10 =? 0 then 10 else 14.
Definition ddp_length (data : list byte) : Z :=
  int_from_bytes_big (slice data 8 10).
Definition ddp_offset (data : list byte) : Z :=
  int_from_bytes_big (slice data 4 8).
Definition ddp_push (b0 : byte) : bool := negb (Z.land (byte_val b0) 0x01 =? 0).

Definition looks_like_ddp (data : list byte) : option bool :=
  if len data <? 10 then Some false else
  b0 ← getitem data 0;
  let version := ddp_version b0 in
  if version =? 0 then Some false else
  let header_len := ddp_header_len b0 in
  if len data <? header_len then Some false else
  let length := ddp_length data in
  if length =? 0 then Some true else
  let payload_len := len data - header_len in
  if length <=? payload_len then Some true else
  if length * 3 =? payload_len then Some true else
  Some false.

Definition parse_ddp (data frame_buffer : list byte)
    : option (bool * list byte) :=
  b0 ← getitem data 0;
  let header_len := ddp_header_len b0 in
  let offset := ddp_offset data in
  let length := ddp_length data in
  let payload := slice_from data header_len in
  let length :=
    if negb (length =? 0) && (length * 3 =? len payload) then len payload
    else length in
  let payload :=
    if negb (length =? 0) && (length <? len payload) then slice_to payload length
    else payload in
  b0' ← getitem data 0;
  let push := ddp_push b0' in
  let frame_buffer :=
    if offset <? len frame_buffer then
      let end_ := Z.min (len frame_buffer) (offset + len payload) in
      slice_assign frame_buffer offset end_ (slice_to payload (end_ - offset))
    else frame_buffer in
  Some (push, frame_buffer).

Definition _clear_tail (frame_buffer : list byte) (start : Z) : list byte :=
  if start <? len frame_buffer then
    slice_assign frame_buffer start (len frame_buffer)
      (zeros (len frame_buffer - start))
  else frame_buffer.

(** The dense copy shared by sub-protocol 2 and the raw fallback:
    [frame_buffer[:copy_len] = payload[:copy_len]], then the tail is
    cleared when the payload is shorter than the buffer. *)
Definition copy_and_clear (payload frame_buffer : list byte) : list byte :=
  let copy_len := Z.min (len frame_buffer) (len payload) in
  let frame_buffer :=
    slice_assign frame_buffer 0 copy_len (slice_to payload copy_len) in
  if len payload <? len frame_buffer then _clear_tail frame_buffer copy_len
  else frame_buffer.

(** Sub-protocol 1: [for i in range(0, len(payload), 4)] over
    [index, r, g, b] quads; [break] ends the loop, [continue] skips a quad. *)
Fixpoint warls_loop (payload : list byte) (idxs : list Z)
    (frame_buffer : list byte) : option (list byte) :=
  match idxs with
  | [] => Some frame_buffer
  | i :: rest =>
      if len payload <=? i + 3 then Some frame_buffer else
      idx ← getitem payload i;
      let offset := byte_val idx * 3 in
      if len frame_buffer <=? offset + 2 then
        warls_loop payload rest frame_buffer
      else
        r ← getitem payload (i + 1);
        fb ← setitem frame_buffer offset r;
        g ← getitem payload (i + 2);
        fb ← setitem fb (offset + 1) g;
        b ← getitem payload (i + 3);
        fb ← setitem fb (offset + 2) b;
        warls_loop payload rest fb
  end.

(** Sub-protocol 3: four input bytes per pixel, three output bytes. *)
Fixpoint drgbw_loop (payload : list byte) (idxs : list Z) (out : Z)
    (frame_buffer : list byte) : option (list byte) :=
  match idxs with
  | [] => Some frame_buffer
  | i :: rest =>
      if (len payload <=? i + 2) || (len frame_buffer <=? out + 2) then
        Some frame_buffer
      else
        r ← getitem payload i;
        fb ← setitem frame_buffer out r;
        g ← getitem payload (i + 1);
        fb ← setitem fb (out + 1) g;
        b ← getitem payload (i + 2);
        fb ← setitem fb (out + 2) b;
        drgbw_loop payload rest (out + 3) fb
  end.

(** Sub-protocol 4: dense RGB from a start index. *)
Fixpoint dnrgb_loop (payload : list byte) (start : Z) (idxs : list Z)
    (frame_buffer : list byte) : option (list byte) :=
  match idxs with
  | [] => Some frame_buffer
  | i :: rest =>
      let idx := start + i / 3 in
      let offset := idx * 3 in
      if (len payload <=? i + 2) || (len frame_buffer <=? offset + 2) then
        Some frame_buffer
      else
        r ← getitem payload i;
        fb ← setitem frame_buffer offset r;
        g ← getitem payload (i + 1);
        fb ← setitem fb (offset + 1) g;
        b ← getitem payload (i + 2);
        fb ← setitem fb (offset + 2) b;
        dnrgb_loop payload start rest fb
  end.

(** The raw fallback at the end of [parse_wled_or_raw]: the same dense
    copy, of the whole datagram. *)
Definition raw_fallback (data frame_buffer : list byte) : list byte :=
  if len data mod 3 =? 0 then copy_and_clear data frame_buffer
  else frame_buffer.

Definition parse_wled_or_raw (data frame_buffer : list byte)
    : option (list byte) :=
  if len data =? 0 then Some frame_buffer else
  b0 ← getitem data 0;
  let proto := byte_val b0 in
  if ((proto =? 1) || (proto =? 2) || (proto =? 3) || (proto =? 4))
     && (2 <=? len data) then
    if (proto =? 2) && ((len data - 1) mod 3 =? 0) then
      Some (copy_and_clear (slice_from data 1) frame_buffer)
    else if len data <? 2 then Some frame_buffer
    else if proto =? 1 then
      let payload := slice_from data 2 in
      warls_loop payload (range 0 (len payload) 4) frame_buffer
    else if proto =? 2 then
      Some (copy_and_clear (slice_from data 2) frame_buffer)
    else if proto =? 3 then
      let payload := slice_from data 2 in
      drgbw_loop payload (range 0 (len payload) 4) 0 frame_buffer
    else if proto =? 4 then
      if len data <? 4 then Some frame_buffer else
      d2 ← getitem data 2;
      d3 ← getitem data 3;
      let start := Z.lor (Z.shiftl (byte_val d2) 8) (byte_val d3) in
      let payload := slice_from data 4 in
      dnrgb_loop payload start (range 0 (len payload) 3) frame_buffer
    else Some (raw_fallback data frame_buffer)
  else Some (raw_fallback data frame_buffer).

End Decoders.

(* ===================================================================== *)
(** ** The device mapper *)
(* ===================================================================== *)

Module Mapper.
Import Py.

Abbreviation byte := Byte.byte.
Abbreviation device_id := string.

(** A [CorsairLedColor]: LED identifier, channels and, when the binding
    has it, an alpha attribute. *)
Record Color := mkColor {
  c_id : Z;
  c_r : Z;
  c_g : Z;
  c_b : Z;
  c_a : option Z;
}.

(** Values the SDK hands back: [None], something [int()] accepts, or
    something it rejects. *)
Inductive PyVal :=
| VNone
| VInt (z : Z)
| VOther.

(** Result of an SDK call: a plain value or a tuple. *)
Inductive SdkResult :=
| ResVal (v : PyVal)
| ResTuple (vs : list PyVal).

(** The error that the mapper extracts from a result. *)
Inductive Err :=
| ErrVal (v : PyVal)
| ErrTuple (vs : list PyVal)
| ErrException.

(** The device-control capability, as [LedMapper] consumes it.  A write
    that raises gives [None] in place of its result, a flush that raises
    gives [false]. *)
Class Sdk (S : Type) := {
  set_led_colors : S -> device_id -> list Color -> option SdkResult * S;
  set_led_colors_buffer : S -> device_id -> list Color -> option SdkResult * S;
  flush : S -> bool * S;
  CorsairLedColor5 : Z -> Z -> Z -> Z -> Z -> option Color;
  CorsairLedColor4 : Z -> Z -> Z -> Z -> option Color;
  (** whether a color object accepts attribute assignment *)
  color_setattr : bool;
}.

(** The calls made to the SDK to push colors, recorded in call order with
    the success the mapper read off each write. *)
Inductive SdkCall :=
| CallDirect (d : device_id) (ok : bool)
| CallBuffer (d : device_id) (ok : bool)
| CallFlush.

Definition call_ok (c : SdkCall) : bool :=
  match c with
  | CallDirect _ ok => ok
  | CallBuffer _ ok => ok
  | CallFlush => false
  end.

(** One [Map Entry]: a tuple of two, three or four fields in the source;
    the third and fourth are absent or [None] when [None] here. *)
Inductive LedTarget :=
| OneLed (li : Z)
| ManyLeds (lis : list Z).

Record MapEntry := mkEntry {
  e_device : device_id;
  e_led : LedTarget;
  e_src : option Z;
  e_wb : option (float * float * float);
}.

Record LedMapper := mkMapper {
  led_colors_by_device : gmap device_id (list Color);
  order_by_device : gmap device_id (list Z);
  mutable_colors : bool;
  _success_code : Z;
  debug_icue : bool;
}.

Definition with_colors (m : LedMapper) (cs : gmap device_id (list Color))
    : LedMapper :=
  mkMapper cs (order_by_device m) (mutable_colors m) (_success_code m)
           (debug_icue m).

Definition with_mutable (m : LedMapper) (mc : bool) : LedMapper :=
  mkMapper (led_colors_by_device m) (order_by_device m) mc (_success_code m)
           (debug_icue m).

(** [self.led_colors_by_device.get(device_id) or []] *)
Definition colors_or_empty (m : LedMapper) (d : device_id) : list Color :=
  default [] (led_colors_by_device m !! d).

Definition get_device_order (m : LedMapper) (d : device_id) : list Z :=
  let order := order_by_device m !! d in
  let colors := colors_or_empty m d in
  match order with
  | Some o =>
      if negb (len o =? 0) && (len o =? len colors) then o
      else range 0 (len colors) 1
  | None => range 0 (len colors) 1
  end.

Definition _err_from_result (result : SdkResult) : Err :=
  match result with
  | ResVal VNone => ErrVal VNone
  | ResTuple [_; e] => ErrVal e
  | ResTuple [e] => ErrVal e
  | ResTuple vs => ErrTuple vs
  | ResVal v => ErrVal v
  end.

Definition _is_success (m : LedMapper) (err : Err) : bool :=
  match err with
  | ErrVal VNone => true
  | ErrVal (VInt z) => z =? _success_code m
  | _ => false
  end.

(** [float(z)] for a machine-sized integer. *)
Definition float_of_Z (z : Z) : float :=
  if z <? 0 then (- PrimFloat.of_uint63 (Uint63.of_Z (- z)))%float
  else PrimFloat.of_uint63 (Uint63.of_Z z).

(** [int(max(0, min(255, c * w)))] *)
Definition scale_channel (c : Z) (w : float) : option Z :=
  let x := (float_of_Z c * w)%float in
  let lo := if (x <? 255)%float then x else 255%float in
  let hi := if (0 <? lo)%float then lo else 0%float in
  Lut.int_of_float hi.

(** The color an entry takes from the frame: three bytes at [offset]
    through the table, black past the end of the frame, then the white
    balance. *)
Definition entry_rgb (frame_bytes : list byte) (lut : list Z) (offset : Z)
    (wb : option (float * float * float)) : option (Z * Z * Z) :=
  '(r, g, b) ← (if len frame_bytes <=? offset + 2 then Some (0, 0, 0)
         else
           fr ← getitem frame_bytes offset;
           r ← getitem lut (byte_val fr);
           fg ← getitem frame_bytes (offset + 1);
           g ← getitem lut (byte_val fg);
           fb ← getitem frame_bytes (offset + 2);
           b ← getitem lut (byte_val fb);
           Some (r, g, b));
  match wb with
  | Some (w0, w1, w2) =>
      r ← scale_channel r w0;
      g ← scale_channel g w1;
      b ← scale_channel b w2;
      Some (r, g, b)
  | None => Some (r, g, b)
  end.

(** The source offset of an entry and the running index after it. *)
Definition entry_offset (e : MapEntry) (idx : Z) : Z * Z :=
  match e_src e with
  | None => (idx, idx + 3)
  | Some s => (s * 3, idx)
  end.

Definition target_indices (e : MapEntry) : list Z :=
  match e_led e with
  | OneLed li => [li]
  | ManyLeds lis => lis
  end.

(** How a call ends: with a value, or with an exception.  The state a call
    leaves behind is returned next to it in both cases. *)
Inductive Outcome (A : Type) :=
| Returned (a : A)
| Raised.

Arguments Returned {A} _.
Arguments Raised {A}.

(** How the first pass of [apply_frame_map] ends: at the end of the map,
    by the [break] of its [except] clause, or by an exception outside the
    [try]. *)
Inductive PassEnd :=
| PassDone
| PassBreak
| PassRaise.

(** The SDK together with the record of the color writes made to it. *)
Record World (S : Type) := mkWorld {
  sdk : S;
  calls : list SdkCall;
}.

Arguments mkWorld {S} _ _.
Arguments sdk {S} _.
Arguments calls {S} _.

Section WithSdk.

Context {S : Type} `{Sdk S}.

Definition _try_set_buffer (m : LedMapper) (w : World S) (d : device_id)
    (colors : list Color) : bool * Err * World S :=
  let '(res, s) := set_led_colors_buffer (sdk w) d colors in
  match res with
  | None => (false, ErrException, mkWorld s (calls w ++ [CallBuffer d false]))
  | Some res =>
      let err := _err_from_result res in
      let ok := _is_success m err in
      (ok, err, mkWorld s (calls w ++ [CallBuffer d ok]))
  end.

Definition _try_set_direct (m : LedMapper) (w : World S) (d : device_id)
    (colors : list Color) : bool * Err * World S :=
  let '(res, s) := set_led_colors (sdk w) d colors in
  match res with
  | None => (false, ErrException, mkWorld s (calls w ++ [CallDirect d false]))
  | Some res =>
      let err := _err_from_result res in
      let ok := _is_success m err in
      (ok, err, mkWorld s (calls w ++ [CallDirect d ok]))
  end.

(** [self.sdk.flush()]; the flag tells whether it returned. *)
Definition sdk_flush (w : World S) : bool * World S :=
  let '(ok, s) := flush (sdk w) in
  (ok, mkWorld s (calls w ++ [CallFlush])).

Definition _make_color (led r g b : Z) : option Color :=
  match CorsairLedColor5 led r g b 255 with
  | Some c => Some c
  | None =>
      let second :=
        c ← CorsairLedColor4 led r g b;
        match c_a c with
        | Some _ =>
            if color_setattr then Some (mkColor (c_id c) (c_r c) (c_g c) (c_b c) (Some 255))
            else None
        | None => Some c
        end in
      match second with
      | Some c => Some c
      | None => CorsairLedColor5 led r g b 255
      end
  end.

(** [color.r = r; color.g = g; color.b = b] and, when the object has one,
    [color.a = 255]. *)
Definition set_rgb (c : Color) (r g b : Z) : option Color :=
  if color_setattr then
    Some (mkColor (c_id c) r g b
            (match c_a c with Some _ => Some 255 | None => None end))
  else None.

(** The body of the [try] for one target index: look the color object up
    and mutate it in place. *)
Definition mutate_led (colors : gmap device_id (list Color)) (d : device_id)
    (li r g b : Z) : option (gmap device_id (list Color)) :=
  cs ← colors !! d;
  c ← getitem cs li;
  c' ← set_rgb c r g b;
  cs' ← setitem cs li c';
  Some (<[d := cs']> colors).

(** The target indices of one entry, in order; the flag tells whether the
    [try] went through. What was mutated before an exception stays mutated. *)
Fixpoint mutate_leds (colors : gmap device_id (list Color)) (d : device_id)
    (lis : list Z) (r g b : Z) : gmap device_id (list Color) * bool :=
  match lis with
  | [] => (colors, true)
  | li :: rest =>
      match mutate_led colors d li r g b with
      | Some colors' => mutate_leds colors' d rest r g b
      | None => (colors, false)
      end
  end.

(** The first pass of [apply_frame_map], taken while [mutable_colors]
    holds, with the colors as the pass leaves them. *)
Fixpoint mutable_pass (frame_bytes : list byte) (lut : list Z)
    (entries : list MapEntry) (idx : Z)
    (colors : gmap device_id (list Color))
    : gmap device_id (list Color) * PassEnd :=
  match entries with
  | [] => (colors, PassDone)
  | e :: rest =>
      let '(offset, idx') := entry_offset e idx in
      match entry_rgb frame_bytes lut offset (e_wb e) with
      | None => (colors, PassRaise)
      | Some (r, g, b) =>
          let '(colors', ok) :=
            mutate_leds colors (e_device e) (target_indices e) r g b in
          if ok then mutable_pass frame_bytes lut rest idx' colors'
          else (colors', PassBreak)
      end
  end.

(** [rebuilt_map[device_id] = [None] * len(colors)] for the group's devices. *)
Fixpoint rebuilt_init (m : LedMapper) (device_ids : list device_id)
    (rebuilt : gmap device_id (list (option Color)))
    : gmap device_id (list (option Color)) :=
  match device_ids with
  | [] => rebuilt
  | d :: rest =>
      rebuilt_init m rest
        (<[d := replicate (length (colors_or_empty m d)) None]> rebuilt)
  end.

Fixpoint rebuild_leds (colors : list Color) (d : device_id) (lis : list Z)
    (r g b : Z) (rebuilt : gmap device_id (list (option Color)))
    : option (gmap device_id (list (option Color))) :=
  match lis with
  | [] => Some rebuilt
  | li :: rest =>
      old ← getitem colors li;
      c ← _make_color (c_id old) r g b;
      row ← rebuilt !! d;
      row' ← setitem row li (Some c);
      rebuild_leds colors d rest r g b (<[d := row']> rebuilt)
  end.

(** The second pass, for read-only color objects: a fresh color per write. *)
Fixpoint rebuild_pass (m : LedMapper) (frame_bytes : list byte) (lut : list Z)
    (entries : list MapEntry) (idx : Z)
    (rebuilt : gmap device_id (list (option Color)))
    : option (gmap device_id (list (option Color))) :=
  match entries with
  | [] => Some rebuilt
  | e :: rest =>
      let '(offset, idx') := entry_offset e idx in
      '(r, g, b) ← entry_rgb frame_bytes lut offset (e_wb e);
      colors ← led_colors_by_device m !! e_device e;
      rebuilt' ← rebuild_leds colors (e_device e) (target_indices e) r g b rebuilt;
      rebuild_pass m frame_bytes lut rest idx' rebuilt'
  end.

(** Missing indices are filled with the existing colors: both lists have
    the device's LED count, so the filled list has no [None] left. *)
Definition fill_missing (row : list (option Color)) (existing : list Color)
    : list Color :=
  zip_with (fun new old => default old new) row existing.

(** [for device_id, colors in rebuilt_map.items(): ...]: every non-empty
    rebuilt list replaces the device's colors. *)
Definition install_rebuilt (m : LedMapper)
    (rebuilt : gmap device_id (list (option Color)))
    : gmap device_id (list Color) :=
  map_fold
    (fun d row colors =>
       match row with
       | [] => colors
       | _ => <[d := fill_missing row (colors_or_empty m d)]> colors
       end)
    (led_colors_by_device m) rebuilt.

(** [update_mode == "direct"] *)
Fixpoint push_direct (m : LedMapper) (device_ids : list device_id)
    (any_ok : bool) (w : World S) : bool * World S :=
  match device_ids with
  | [] => (any_ok, w)
  | d :: rest =>
      match led_colors_by_device m !! d with
      | None | Some [] => push_direct m rest any_ok w
      | Some colors =>
          let '(okd, _, w') := _try_set_direct m w d colors in
          push_direct m rest (any_ok || okd) w'
      end
  end.

(** The first loop of [update_mode in ("buffer", "buffer_safe")]. *)
Fixpoint push_buffer (m : LedMapper) (device_ids : list device_id)
    (any_ok used_buffer : bool) (w : World S) : bool * bool * World S :=
  match device_ids with
  | [] => (any_ok, used_buffer, w)
  | d :: rest =>
      match led_colors_by_device m !! d with
      | None | Some [] => push_buffer m rest any_ok used_buffer w
      | Some colors =>
          let '(okb, _, w') := _try_set_buffer m w d colors in
          if okb then push_buffer m rest true true w'
          else
            let '(okd, _, w'') := _try_set_direct m w' d colors in
            push_buffer m rest (any_ok || okd) used_buffer w''
      end
  end.

(** The loop of the remaining mode, "auto". *)
Fixpoint push_auto (m : LedMapper) (device_ids : list device_id)
    (any_ok used_buffer : bool) (w : World S) : bool * bool * World S :=
  match device_ids with
  | [] => (any_ok, used_buffer, w)
  | d :: rest =>
      match led_colors_by_device m !! d with
      | None | Some [] => push_auto m rest any_ok used_buffer w
      | Some colors =>
          let '(okd, _, w') := _try_set_direct m w d colors in
          if okd then push_auto m rest true used_buffer w'
          else
            let '(okb, _, w'') := _try_set_buffer m w' d colors in
            if okb then push_auto m rest true true w''
            else push_auto m rest any_ok used_buffer w''
      end
  end.

(** The last part of [apply_frame_map]: the colors are pushed to the
    devices of the group in the way [update_mode] names. *)
Definition push_colors (m : LedMapper) (w : World S)
    (device_ids : list device_id) (update_mode : string)
    : Outcome bool * World S :=
  if String.eqb update_mode "direct" then
    let '(any_ok, w) := push_direct m device_ids false w in
    (Returned any_ok, w)
  else if String.eqb update_mode "buffer"
          || String.eqb update_mode "buffer_safe" then
    let '(any_ok, used_buffer, w) := push_buffer m device_ids false false w in
    let '(flushed, w) := if used_buffer then sdk_flush w else (true, w) in
    if negb flushed then (Raised, w)
    else if String.eqb update_mode "buffer_safe" then
      let '(any_ok, w) := push_direct m device_ids any_ok w in
      (Returned any_ok, w)
    else (Returned any_ok, w)
  else
    let '(any_ok, used_buffer, w) := push_auto m device_ids false false w in
    let '(flushed, w) := if used_buffer then sdk_flush w else (true, w) in
    if negb flushed then (Raised, w) else (Returned any_ok, w).

(** The second part of [apply_frame_map], [if not self.mutable_colors:];
    [None] when it raises, which leaves the mapper as it was. *)
Definition rebuild_colors (m : LedMapper) (map_list : list MapEntry)
    (device_ids : list device_id) (frame_bytes : list byte) (lut : list Z)
    : option LedMapper :=
  let rebuilt := rebuilt_init m device_ids ∅ in
  rebuilt ← rebuild_pass m frame_bytes lut map_list 0 rebuilt;
  Some (with_colors m (install_rebuilt m rebuilt)).

(** [LedMapper.apply_frame_map]: how the call ends, and the mapper and the
    SDK after it.  [lut] and [update_mode] are [None] for an argument that
    is absent or [None]. *)
Definition apply_frame_map (m : LedMapper) (w : World S)
    (map_list : list MapEntry) (device_ids : list device_id)
    (frame_bytes : list byte) (lut : option (list Z))
    (update_mode : option string) : Outcome bool * LedMapper * World S :=
  match map_list with
  | [] => (Returned false, m, w)
  | _ =>
      let lut := match lut with Some l => l | None => range 0 256 1 end in
      let '(m, pass_end) :=
        if mutable_colors m then
          let '(colors, pass_end) :=
            mutable_pass frame_bytes lut map_list 0 (led_colors_by_device m) in
          let m := with_colors m colors in
          (match pass_end with
           | PassBreak => with_mutable m false
           | _ => m
           end, pass_end)
        else (m, PassDone) in
      match pass_end with
      | PassRaise => (Raised, m, w)
      | _ =>
          let rebuilt :=
            if negb (mutable_colors m) then
              rebuild_colors m map_list device_ids frame_bytes lut
            else Some m in
          match rebuilt with
          | None => (Raised, m, w)
          | Some m =>
              let update_mode := lower (or_default update_mode "auto") in
              let '(res, w) := push_colors m w device_ids update_mode in
              (res, m, w)
          end
      end
  end.

End WithSdk.

(** *** Geometric ordering: rows and serpentine order *)

(** A device LED position: the dictionary [{"id", "x", "y"}]. *)
Record Position := mkPos {
  p_id : Z;
  p_x : option float;
  p_y : option float;
}.

(** A point of the ordering engine: [(idx, fx, fy)]. *)
Definition Point : Type := Z * float * float.

Definition pt_idx (p : Point) : Z := p.1.1.
Definition pt_x (p : Point) : float := p.1.2.
Definition pt_y (p : Point) : float := p.2.

(** [sorted(l, key=key, reverse=reverse)]: a stable sort that compares
    keys with [<] only; a reversed sort reverses the list before and
    after, so equal keys keep their order there too. *)
Section Sorting.

Context {A K : Type} (key : A -> K) (lt : K -> K -> bool).

Fixpoint insert_sorted (x : A) (l : list A) : list A :=
  match l with
  | [] => [x]
  | y :: l' =>
      if lt (key x) (key y) then x :: y :: l' else y :: insert_sorted x l'
  end.

Definition sort_stable (l : list A) : list A :=
  fold_left (fun acc x => insert_sorted x acc) l [].

Definition sorted (reverse : bool) (l : list A) : list A :=
  if reverse then rev (sort_stable (rev l)) else sort_stable l.

End Sorting.

Definition float_lt (a b : float) : bool := (a <? b)%float.

(** [<] on pairs of floats: the first components decide unless equal. *)
Definition float_pair_lt (a b : float * float) : bool :=
  if (a.1 =? b.1)%float then (a.2 <? b.2)%float else (a.1 <? b.1)%float.

(** [min(range(k), key=...)]: the first index whose key is smallest. *)
Fixpoint argmin_from (keys : list float) (j : Z) (best : Z) (best_key : float)
    : Z :=
  match keys with
  | [] => best
  | x :: rest =>
      if (x <? best_key)%float then argmin_from rest (j + 1) j x
      else argmin_from rest (j + 1) best best_key
  end.

Definition argmin (keys : list float) : option Z :=
  match keys with
  | [] => None
  | x :: rest => Some (argmin_from rest 1 0 x)
  end.

(** [max(...)] of a non-empty sequence of floats. *)
Definition float_max (l : list float) : option float :=
  match l with
  | [] => None
  | x :: rest =>
      Some (fold_left (fun best y => if (best <? y)%float then y else best) rest x)
  end.

(** [sum(...)], from the integer zero. *)
Definition float_sum (l : list float) : float :=
  fold_left (fun acc y => (acc + y)%float) l 0%float.

(** The initial centers of [_cluster_rows]. *)
Fixpoint initial_centers (ys_sorted : list float) (rows_count : Z)
    (idxs : list Z) : option (list float) :=
  match idxs with
  | [] => Some []
  | i :: rest =>
      let q := if 1 <? rows_count
               then (float_of_Z i / float_of_Z (rows_count - 1))%float
               else 0%float in
      idx ← Lut.int_of_float (q * float_of_Z (len ys_sorted - 1))%float;
      c ← getitem ys_sorted idx;
      cs ← initial_centers ys_sorted rows_count rest;
      Some (c :: cs)
  end.

(** [clusters[ci].append(p)] for every point, [ci] the nearest center. *)
Fixpoint assign_points (centers : list float) (points : list Point)
    (clusters : list (list Point)) : option (list (list Point)) :=
  match points with
  | [] => Some clusters
  | p :: rest =>
      ci ← argmin (map (fun c => abs (pt_y p - c)%float) centers);
      row ← getitem clusters ci;
      clusters' ← setitem clusters ci (row ++ [p]);
      assign_points centers rest clusters'
  end.

Definition new_center (old : float) (c : list Point) : float :=
  match c with
  | [] => old
  | _ => (float_sum (map pt_y c) / float_of_Z (len c))%float
  end.

(** [for _ in range(20): ...] with its [break]. *)
Fixpoint cluster_rounds (rounds : nat) (points : list Point) (rows_count : Z)
    (centers : list float) (clusters : list (list Point))
    : option (list float * list (list Point)) :=
  match rounds with
  | O => Some (centers, clusters)
  | Datatypes.S n =>
      let clusters := replicate (Z.to_nat rows_count) [] in
      clusters ← assign_points centers points clusters;
      let new_centers := zip_with new_center centers clusters in
      delta ← float_max
                (zip_with (fun n c => abs (n - c)%float) new_centers centers);
      if (delta <? 1e-3)%float then Some (new_centers, clusters)
      else cluster_rounds n points rows_count new_centers clusters
  end.

Definition _cluster_rows (points : list Point) (rows_count : Z)
    : option (list (list Point)) :=
  let ys := map pt_y points in
  let ys_sorted := sorted (fun y => y) float_lt false ys in
  match ys_sorted with
  | [] => Some []
  | _ =>
      if len ys_sorted <=? rows_count then
        Some (map (fun p => [p]) (sorted pt_y float_lt false points))
      else
        centers ← initial_centers ys_sorted rows_count (range 0 rows_count 1);
        '(centers, clusters) ← cluster_rounds 20 points rows_count centers [];
        Some (map snd (sorted fst float_lt false (zip centers clusters)))
  end.

(** The distinct values of a list of floats, as a Python set keeps them. *)
Fixpoint float_set (l : list float) (seen : list float) : list float :=
  match l with
  | [] => seen
  | y :: rest =>
      if existsb (fun z => (z =? y)%float) seen then float_set rest seen
      else float_set rest (seen ++ [y])
  end.

(** The smallest positive gap between consecutive sorted values. *)
Fixpoint min_gap (ys : list float) (min_diff : option float) : option float :=
  match ys with
  | y0 :: ((y1 :: _) as rest) =>
      let d := (y1 - y0)%float in
      let better := match min_diff with
                    | None => true
                    | Some m => (d <? m)%float
                    end in
      min_gap rest (if (0 <? d)%float && better then Some d else min_diff)
  | _ => min_diff
  end.

(** The tolerance sweep over the sorted points. *)
Fixpoint sweep_rows (points : list Point) (tol : float)
    (current : list Point) (current_y : option float)
    (rows : list (list Point)) : list (list Point) * list Point :=
  match points with
  | [] => (rows, current)
  | p :: rest =>
      match current_y with
      | None => sweep_rows rest tol [p] (Some (pt_y p)) rows
      | Some cy =>
          if (abs (pt_y p - cy) <=? tol)%float then
            sweep_rows rest tol (current ++ [p]) current_y rows
          else
            sweep_rows rest tol [p] (Some (pt_y p)) (rows ++ [current])
      end
  end.

(** [for idx, pos in enumerate(positions)]: [None] as soon as a
    coordinate is missing. *)
Fixpoint collect_points (positions : list Position) (idx : Z)
    (flip_x flip_y swap_xy : bool) : option (list Point) :=
  match positions with
  | [] => Some []
  | pos :: rest =>
      x ← p_x pos;
      y ← p_y pos;
      let fx := if flip_x then (- x)%float else x in
      let fy := if flip_y then (- y)%float else y in
      let '(fx, fy) := if swap_xy then (fy, fx) else (fx, fy) in
      ps ← collect_points rest (idx + 1) flip_x flip_y swap_xy;
      Some ((idx, fx, fy) :: ps)
  end.

(** The rows in visiting order, each sorted by X with its direction. *)
Fixpoint emit_rows (rows : list (list Point)) (idx_row : Z)
    (first_dir mode : string) : list Z :=
  match rows with
  | [] => []
  | row :: rest =>
      let reverse :=
        if String.eqb mode "linear" then String.eqb first_dir "right"
        else if String.eqb first_dir "right" then idx_row mod 2 =? 0
        else idx_row mod 2 =? 1 in
      map pt_idx (sorted pt_x float_lt reverse row)
      ++ emit_rows rest (idx_row + 1) first_dir mode
  end.

(** The row tolerance: the one given when positive, else half the smallest
    positive gap between distinct Y values, else one. *)
Definition row_tol (points : list Point) (row_tolerance : option float)
    : float :=
  let ys := sorted (fun y => y) float_lt false
              (float_set (map pt_y points) []) in
  let automatic :=
    match row_tolerance with
    | None => true
    | Some t => (t <=? 0)%float
    end in
  if automatic then
    if len ys <=? 1 then 1%float
    else match min_gap ys None with
         | Some d => if Lut.truthy d then (d / 2)%float else 1%float
         | None => 1%float
         end
  else default 1%float row_tolerance.

(** The branch [if not rows:] of [_compute_serpentine_order]: rows by a
    sweep over the points sorted by Y, then X. *)
Definition rows_by_tolerance (points : list Point)
    (row_tolerance : option float) (row_order : option string)
    : list (list Point) :=
  let tol := row_tol points row_tolerance in
  let row_order_val := lower (or_default row_order "top") in
  let points :=
    if String.eqb row_order_val "bottom" then
      sorted (fun p => ((- pt_y p)%float, pt_x p)) float_pair_lt false points
    else
      sorted (fun p => (pt_y p, pt_x p)) float_pair_lt false points in
  let '(rows, current) := sweep_rows points tol [] None [] in
  match current with
  | [] => rows
  | _ => rows ++ [current]
  end.

(** [LedMapper._compute_serpentine_order]. The outer option is [None] when
    the call raises, the inner one is the [None] the method returns. *)
Definition _compute_serpentine_order (positions : list Position)
    (row_tolerance : option float) (first_dir row_order : option string)
    (rows_count : option Z) (flip_x flip_y swap_xy : bool)
    (mode : option string) : option (option (list Z)) :=
  match positions with
  | [] => Some None
  | _ =>
    match collect_points positions 0 flip_x flip_y swap_xy with
    | None => Some None
    | Some points =>
      rows ← match rows_count with
             | Some k => if 1 <? k then _cluster_rows points k else Some []
             | None => Some []
             end;
      let rows :=
        match rows with
        | _ :: _ => rows
        | [] => rows_by_tolerance points row_tolerance row_order
        end in
      let first_dir := lower (or_default first_dir "left") in
      let mode := lower (or_default mode "serpentine") in
      Some (Some (emit_rows rows 0 first_dir mode))
    end
  end.

End Mapper.

(* ===================================================================== *)
(** ** The reactive loop of run_bridge *)
(* ===================================================================== *)

Module Runtime.
Import Py Mapper Decoders.

(** A runtime group: the dictionary that [setup_runtime] completes and the
    loop mutates.  The socket and its address are left to the event source. *)
Record Group := mkGroup {
  g_name : string;
  g_protocol : string;
  g_map : list MapEntry;
  g_device_ids : list device_id;
  g_update_mode : option string;
  g_led_count : Z;
  g_frame_buffer : list byte;
  g_last_send : float;
  g_first_packet : bool;
  g_pkt_count : Z;
  g_byte_count : Z;
  g_stats_ts : float;
  g_last_packet_ts : float;
  g_fail_count : Z;
  g_idle_cleared : bool;
  g_idle_clear_disabled : bool;
  g_idle_clear_seconds : option float;
  g_keepalive_interval : option float;
  g_keepalive_reapply : option bool;
  g_last_keepalive : float;
  g_ddp_auto : bool;
}.

(** [g[key] = v] for the keys the loop writes. *)
Definition set_frame_buffer (g : Group) (v : list byte) : Group :=
  mkGroup (g_name g) (g_protocol g) (g_map g) (g_device_ids g)
    (g_update_mode g) (g_led_count g) v (g_last_send g) (g_first_packet g)
    (g_pkt_count g) (g_byte_count g) (g_stats_ts g) (g_last_packet_ts g)
    (g_fail_count g) (g_idle_cleared g) (g_idle_clear_disabled g)
    (g_idle_clear_seconds g) (g_keepalive_interval g)
    (g_keepalive_reapply g) (g_last_keepalive g) (g_ddp_auto g).

Definition set_last_send (g : Group) (v : float) : Group :=
  mkGroup (g_name g) (g_protocol g) (g_map g) (g_device_ids g)
    (g_update_mode g) (g_led_count g) (g_frame_buffer g) v
    (g_first_packet g) (g_pkt_count g) (g_byte_count g) (g_stats_ts g)
    (g_last_packet_ts g) (g_fail_count g) (g_idle_cleared g)
    (g_idle_clear_disabled g) (g_idle_clear_seconds g)
    (g_keepalive_interval g) (g_keepalive_reapply g) (g_last_keepalive g)
    (g_ddp_auto g).

Definition set_first_packet (g : Group) (v : bool) : Group :=
  mkGroup (g_name g) (g_protocol g) (g_map g) (g_device_ids g)
    (g_update_mode g) (g_led_count g) (g_frame_buffer g) (g_last_send g) v
    (g_pkt_count g) (g_byte_count g) (g_stats_ts g) (g_last_packet_ts g)
    (g_fail_count g) (g_idle_cleared g) (g_idle_clear_disabled g)
    (g_idle_clear_seconds g) (g_keepalive_interval g)
    (g_keepalive_reapply g) (g_last_keepalive g) (g_ddp_auto g).

Definition set_pkt_count (g : Group) (v : Z) : Group :=
  mkGroup (g_name g) (g_protocol g) (g_map g) (g_device_ids g)
    (g_update_mode g) (g_led_count g) (g_frame_buffer g) (g_last_send g)
    (g_first_packet g) v (g_byte_count g) (g_stats_ts g)
    (g_last_packet_ts g) (g_fail_count g) (g_idle_cleared g)
    (g_idle_clear_disabled g) (g_idle_clear_seconds g)
    (g_keepalive_interval g) (g_keepalive_reapply g) (g_last_keepalive g)
    (g_ddp_auto g).

Definition set_byte_count (g : Group) (v : Z) : Group :=
  mkGroup (g_name g) (g_protocol g) (g_map g) (g_device_ids g)
    (g_update_mode g) (g_led_count g) (g_frame_buffer g) (g_last_send g)
    (g_first_packet g) (g_pkt_count g) v (g_stats_ts g) (g_last_packet_ts g)
    (g_fail_count g) (g_idle_cleared g) (g_idle_clear_disabled g)
    (g_idle_clear_seconds g) (g_keepalive_interval g)
    (g_keepalive_reapply g) (g_last_keepalive g) (g_ddp_auto g).

Definition set_stats_ts (g : Group) (v : float) : Group :=
  mkGroup (g_name g) (g_protocol g) (g_map g) (g_device_ids g)
    (g_update_mode g) (g_led_count g) (g_frame_buffer g) (g_last_send g)
    (g_first_packet g) (g_pkt_count g) (g_byte_count g) v
    (g_last_packet_ts g) (g_fail_count g) (g_idle_cleared g)
    (g_idle_clear_disabled g) (g_idle_clear_seconds g)
    (g_keepalive_interval g) (g_keepalive_reapply g) (g_last_keepalive g)
    (g_ddp_auto g).

Definition set_last_packet_ts (g : Group) (v : float) : Group :=
  mkGroup (g_name g) (g_protocol g) (g_map g) (g_device_ids g)
    (g_update_mode g) (g_led_count g) (g_frame_buffer g) (g_last_send g)
    (g_first_packet g) (g_pkt_count g) (g_byte_count g) (g_stats_ts g) v
    (g_fail_count g) (g_idle_cleared g) (g_idle_clear_disabled g)
    (g_idle_clear_seconds g) (g_keepalive_interval g)
    (g_keepalive_reapply g) (g_last_keepalive g) (g_ddp_auto g).

Definition set_fail_count (g : Group) (v : Z) : Group :=
  mkGroup (g_name g) (g_protocol g) (g_map g) (g_device_ids g)
    (g_update_mode g) (g_led_count g) (g_frame_buffer g) (g_last_send g)
    (g_first_packet g) (g_pkt_count g) (g_byte_count g) (g_stats_ts g)
    (g_last_packet_ts g) v (g_idle_cleared g) (g_idle_clear_disabled g)
    (g_idle_clear_seconds g) (g_keepalive_interval g)
    (g_keepalive_reapply g) (g_last_keepalive g) (g_ddp_auto g).

Definition set_idle_cleared (g : Group) (v : bool) : Group :=
  mkGroup (g_name g) (g_protocol g) (g_map g) (g_device_ids g)
    (g_update_mode g) (g_led_count g) (g_frame_buffer g) (g_last_send g)
    (g_first_packet g) (g_pkt_count g) (g_byte_count g) (g_stats_ts g)
    (g_last_packet_ts g) (g_fail_count g) v (g_idle_clear_disabled g)
    (g_idle_clear_seconds g) (g_keepalive_interval g)
    (g_keepalive_reapply g) (g_last_keepalive g) (g_ddp_auto g).

Definition set_last_keepalive (g : Group) (v : float) : Group :=
  mkGroup (g_name g) (g_protocol g) (g_map g) (g_device_ids g)
    (g_update_mode g) (g_led_count g) (g_frame_buffer g) (g_last_send g)
    (g_first_packet g) (g_pkt_count g) (g_byte_count g) (g_stats_ts g)
    (g_last_packet_ts g) (g_fail_count g) (g_idle_cleared g)
    (g_idle_clear_disabled g) (g_idle_clear_seconds g)
    (g_keepalive_interval g) (g_keepalive_reapply g) v (g_ddp_auto g).

Definition set_ddp_auto (g : Group) (v : bool) : Group :=
  mkGroup (g_name g) (g_protocol g) (g_map g) (g_device_ids g)
    (g_update_mode g) (g_led_count g) (g_frame_buffer g) (g_last_send g)
    (g_first_packet g) (g_pkt_count g) (g_byte_count g) (g_stats_ts g)
    (g_last_packet_ts g) (g_fail_count g) (g_idle_cleared g)
    (g_idle_clear_disabled g) (g_idle_clear_seconds g)
    (g_keepalive_interval g) (g_keepalive_reapply g) (g_last_keepalive g) v.

(** The variables of [run_bridge] that stay fixed while the loop runs. *)
Record LoopCfg := mkLoopCfg {
  min_interval : float;
  lut : list Z;
  debug_udp : bool;
  request_control_interval : float;
  keepalive_enabled : bool;
  keepalive_interval : float;
  keepalive_reapply : bool;
  keepalive_request_always : bool;
  unique_idle_clear_enabled : bool;
  unique_idle_clear_s : float;
  apply_fail_threshold : Z;
  skip_reconnect_when_idle : bool;
  watchdog_enabled : bool;
  watchdog_interval : float;
  watchdog_fail_threshold : Z;
  watchdog_idle_only : bool;
}.

(** [min_interval = 1.0 / max_fps if max_fps > 0 else 0] *)
Definition min_interval_of (max_fps : float) : float :=
  if (0 <? max_fps)%float then (1 / max_fps)%float else 0%float.

(** What the loop does to the outside, in order: each call of
    [apply_frame_map] with the place it is made from, the group, the frame
    handed over and how the call ended; each call of [attempt_reconnect];
    each [request_control]. *)
Inductive ApplyOrigin :=
| ByPacket
| ByKeepalive
| ByIdleClear.

Inductive LoopEvent :=
| EvApply (origin : ApplyOrigin) (gid : nat) (frame : list byte)
    (res : Outcome bool)
| EvReconnect (reason : string)
| EvRequestControl.

(** The state of the loop.  Group dictionaries are shared objects: they
    live in [l_groups] under their identity, [runtime_groups] and the
    readiness events refer to them by it. *)
Record Loop (S : Type) := mkLoop {
  l_mapper : LedMapper;
  l_world : World S;
  l_groups : gmap nat Group;
  l_runtime_groups : list nat;
  l_last_watchdog : float;
  l_last_request_control : float;
  l_watchdog_fail_count : Z;
  l_log : list LoopEvent;
}.

Arguments mkLoop {S} _ _ _ _ _ _ _ _.
Arguments l_mapper {S} _.
Arguments l_world {S} _.
Arguments l_groups {S} _.
Arguments l_runtime_groups {S} _.
Arguments l_last_watchdog {S} _.
Arguments l_last_request_control {S} _.
Arguments l_watchdog_fail_count {S} _.
Arguments l_log {S} _.

Section Loop.

Context {S : Type} `{Sdk S}.

Definition set_l_mapper (st : Loop S) (v : LedMapper) : Loop S :=
  mkLoop v (l_world st) (l_groups st) (l_runtime_groups st)
    (l_last_watchdog st) (l_last_request_control st)
    (l_watchdog_fail_count st) (l_log st).

Definition set_l_world (st : Loop S) (v : World S) : Loop S :=
  mkLoop (l_mapper st) v (l_groups st) (l_runtime_groups st)
    (l_last_watchdog st) (l_last_request_control st)
    (l_watchdog_fail_count st) (l_log st).

Definition set_l_groups (st : Loop S) (v : gmap nat Group) : Loop S :=
  mkLoop (l_mapper st) (l_world st) v (l_runtime_groups st)
    (l_last_watchdog st) (l_last_request_control st)
    (l_watchdog_fail_count st) (l_log st).

Definition set_l_last_watchdog (st : Loop S) (v : float) : Loop S :=
  mkLoop (l_mapper st) (l_world st) (l_groups st) (l_runtime_groups st) v
    (l_last_request_control st) (l_watchdog_fail_count st) (l_log st).

Definition set_l_last_request_control (st : Loop S) (v : float) : Loop S :=
  mkLoop (l_mapper st) (l_world st) (l_groups st) (l_runtime_groups st)
    (l_last_watchdog st) v (l_watchdog_fail_count st) (l_log st).

Definition set_l_watchdog_fail_count (st : Loop S) (v : Z) : Loop S :=
  mkLoop (l_mapper st) (l_world st) (l_groups st) (l_runtime_groups st)
    (l_last_watchdog st) (l_last_request_control st) v (l_log st).

Definition set_l_log (st : Loop S) (v : list LoopEvent) : Loop S :=
  mkLoop (l_mapper st) (l_world st) (l_groups st) (l_runtime_groups st)
    (l_last_watchdog st) (l_last_request_control st)
    (l_watchdog_fail_count st) v.

(** The external collaborators of the loop.  [attempt_reconnect] is the
    nested function of [run_bridge] that, outside its cooldown, reconnects
    and rebuilds mapper, groups and sockets; it and the two SDK calls are
    taken as given.  The record of events is kept out of their reach. *)
Variable attempt_reconnect : string -> Loop S -> Loop S.
Variable request_control : World S -> World S.
Variable is_icue_connected : World S -> bool * World S.

Definition log_event (st : Loop S) (e : LoopEvent) : Loop S :=
  set_l_log st (l_log st ++ [e]).

Definition do_reconnect (reason : string) (st : Loop S) : Loop S :=
  let st' := attempt_reconnect reason st in
  set_l_log st' (l_log st ++ [EvReconnect reason]).

Definition do_request_control (st : Loop S) : Loop S :=
  log_event (set_l_world st (request_control (l_world st))) EvRequestControl.

(** The group object behind a reference is mutated in place. *)
Definition update_group (st : Loop S) (gid : nat) (g : Group) : Loop S :=
  set_l_groups st (<[gid := g]> (l_groups st)).

(** [mapper.apply_frame_map(g["map"], g["device_ids"], frame, lut=lut,
    update_mode=g.get("update_mode", "auto"))] *)
Definition call_apply (cfg : LoopCfg) (origin : ApplyOrigin) (gid : nat)
    (g : Group) (frame : list byte) (st : Loop S) : Outcome bool * Loop S :=
  let '(res, m, w) :=
    apply_frame_map (l_mapper st) (l_world st) (g_map g) (g_device_ids g)
      frame (Some (lut cfg)) (g_update_mode g) in
  (res, log_event (set_l_world (set_l_mapper st m) w)
          (EvApply origin gid frame res)).

(** [g.get("keepalive_interval") or keepalive_interval] *)
Definition group_keepalive_interval (cfg : LoopCfg) (g : Group) : float :=
  match g_keepalive_interval g with
  | Some k => if Lut.truthy k then k else keepalive_interval cfg
  | None => keepalive_interval cfg
  end.

(** [any(... for g in runtime_groups)] of the keepalive and idle-clear
    gates. *)
Definition any_active_recent (cfg : LoopCfg) (now : float) (st : Loop S)
    : bool :=
  existsb
    (fun gid =>
       match l_groups st !! gid with
       | Some g =>
           Lut.truthy (g_last_packet_ts g)
           && (now - g_last_packet_ts g <? group_keepalive_interval cfg g)%float
       | None => false
       end)
    (l_runtime_groups st).

(** *** Decoding a datagram *)

(** The protocol dispatch of the packet loop: the frame buffer after the
    decoder, and whether the loop goes on to the rate limit ([false] for
    the [continue] of a DDP packet without push and of a raw packet of the
    wrong length).  [None] when the decoder raises. *)
Definition decode_packet (protocol : string) (data frame_buffer : list byte)
    : option (bool * list byte) :=
  ddp_like ← looks_like_ddp data;
  if String.eqb protocol "ddp"
     || ((String.eqb protocol "auto" || String.eqb protocol "wled") && ddp_like)
  then
    '(push, fb) ← parse_ddp data frame_buffer;
    Some (push, fb)
  else if String.eqb protocol "wled" then
    fb ← parse_wled_or_raw data frame_buffer;
    Some (true, fb)
  else if String.eqb protocol "raw" then
    if len data mod 3 =? 0 then
      Some (true,
            slice_assign frame_buffer 0 (Z.min (len frame_buffer) (len data))
              (slice_to data (len frame_buffer)))
    else Some (false, frame_buffer)
  else
    fb ← parse_wled_or_raw data frame_buffer;
    Some (true, fb).

(** [g["ddp_auto"] = True], set at the first DDP datagram on a "wled"
    group; the flag guards a log line. *)
Definition mark_ddp_auto (g : Group) (data : list byte) : Group :=
  if String.eqb (g_protocol g) "wled"
     && default false (looks_like_ddp data)
     && negb (g_ddp_auto g)
  then set_ddp_auto g true else g.

(** The bookkeeping at the head of the packet loop body. *)
Definition note_packet (cfg : LoopCfg) (now : float) (data : list byte)
    (g : Group) : Group :=
  let g := if g_first_packet g then set_first_packet g false else g in
  let g := if debug_udp cfg then
             set_byte_count (set_pkt_count g (g_pkt_count g + 1))
               (g_byte_count g + len data)
           else g in
  let g := set_last_packet_ts g now in
  set_idle_cleared g false.

(** The tail of the packet loop body, after the rate limit: the frame is
    applied and failures are counted. *)
Definition apply_packet (cfg : LoopCfg) (now : float) (gid : nat) (g : Group)
    (st : Loop S) : Loop S :=
  let g := set_last_send g now in
  let st := update_group st gid g in
  let '(res, st) := call_apply cfg ByPacket gid g (g_frame_buffer g) st in
  match res with
  | Returned true => update_group st gid (set_fail_count g 0)
  | Returned false =>
      let g := set_fail_count g (g_fail_count g + 1) in
      if apply_fail_threshold cfg <=? g_fail_count g then
        do_reconnect "apply_no_success"
          (update_group st gid (set_fail_count g 0))
      else update_group st gid g
  | Raised => do_reconnect "apply_frame_map_error" st
  end.

(** One turn of [for key, _ in events:], for the group [gid] and what
    [recvfrom] gave ([None] when it raised).  The result is [None] when an
    exception leaves the loop. *)
Definition handle_event (cfg : LoopCfg) (now : float) (gid : nat)
    (recv : option (list byte)) (st : Loop S) : option (Loop S) :=
  match recv, l_groups st !! gid with
  | Some data, Some g =>
      let g := note_packet cfg now data g in
      let g := mark_ddp_auto g data in
      '(emit, fb) ← decode_packet (g_protocol g) data (g_frame_buffer g);
      let g := set_frame_buffer g fb in
      if negb emit then Some (update_group st gid g)
      else if Lut.truthy (min_interval cfg)
              && (now - g_last_send g <? min_interval cfg)%float
      then Some (update_group st gid g)
      else Some (apply_packet cfg now gid g st)
  | _, _ => Some st
  end.

Fixpoint handle_events (cfg : LoopCfg) (now : float)
    (events : list (nat * option (list byte))) (st : Loop S)
    : option (Loop S) :=
  match events with
  | [] => Some st
  | (gid, recv) :: rest =>
      st ← handle_event cfg now gid recv st;
      handle_events cfg now rest st
  end.

(** *** Periodic maintenance *)

(** [sdk.request_control()] every [request_control_interval] seconds. *)
Definition request_control_block (cfg : LoopCfg) (now : float) (st : Loop S)
    : Loop S :=
  if (0 <? request_control_interval cfg)%float
     && (request_control_interval cfg <=? now - l_last_request_control st)%float
  then set_l_last_request_control (do_request_control st) now
  else st.

(** The first loop of the keepalive block: the groups due for a
    re-application, each with its interval. *)
Fixpoint keepalive_due (cfg : LoopCfg) (now : float) (gids : list nat)
    (st : Loop S) : Loop S * list (nat * float) :=
  match gids with
  | [] => (st, [])
  | gid :: rest =>
      match l_groups st !! gid with
      | None => keepalive_due cfg now rest st
      | Some g =>
          let interval := group_keepalive_interval cfg g in
          if (now - g_last_keepalive g <? interval)%float then
            keepalive_due cfg now rest st
          else
            let g := set_last_keepalive g now in
            let st := update_group st gid g in
            let due :=
              negb (match g_keepalive_reapply g with
                    | Some false => true
                    | _ => false
                    end)
              && Lut.truthy (g_last_packet_ts g)
              && negb (now - g_last_packet_ts g <? interval)%float
              && negb (g_last_send g <=? 0)%float in
            let '(st, dues) := keepalive_due cfg now rest st in
            (st, if due then (gid, interval) :: dues else dues)
      end
  end.

(** The re-application of one due group. *)
Definition keepalive_apply (cfg : LoopCfg) (active : bool) (gid : nat)
    (st : Loop S) : Loop S :=
  match l_groups st !! gid with
  | None => st
  | Some g =>
      let '(res, st) := call_apply cfg ByKeepalive gid g (g_frame_buffer g) st in
      match res with
      | Returned true => st
      | Returned false =>
          let g := set_fail_count g (g_fail_count g + 1) in
          if apply_fail_threshold cfg <=? g_fail_count g then
            let st := update_group st gid (set_fail_count g 0) in
            if skip_reconnect_when_idle cfg && negb active then st
            else do_reconnect "keepalive_no_success" st
          else update_group st gid g
      | Raised =>
          if skip_reconnect_when_idle cfg && negb active then st
          else do_reconnect "keepalive_error" st
      end
  end.

Definition keepalive_block (cfg : LoopCfg) (now : float) (active : bool)
    (st : Loop S) : Loop S :=
  if keepalive_enabled cfg then
    let '(st, dues) := keepalive_due cfg now (l_runtime_groups st) st in
    let st :=
      match dues with
      | _ :: _ => if keepalive_request_always cfg then do_request_control st
                  else st
      | [] => st
      end in
    if keepalive_reapply cfg then
      fold_left (fun st due => keepalive_apply cfg active due.1 st) dues st
    else st
  else st.

(** [g.get("idle_clear_seconds")], or the global delay when it is [None]. *)
Definition group_clear_after (cfg : LoopCfg) (g : Group) : float :=
  match g_idle_clear_seconds g with
  | Some s => s
  | None => unique_idle_clear_s cfg
  end.

(** The body of the idle-clear loop for one group. *)
Definition idle_clear_group (cfg : LoopCfg) (now : float) (gid : nat)
    (st : Loop S) : Loop S :=
  match l_groups st !! gid with
  | None => st
  | Some g =>
      if g_idle_clear_disabled g then st else
      let clear_after := group_clear_after cfg g in
      let last_pkt := g_last_packet_ts g in
      if negb (Lut.truthy last_pkt) then st else
      let idle_for := (now - last_pkt)%float in
      if (idle_for <? clear_after)%float then st else
      if g_idle_cleared g then st else
      let frame := g_frame_buffer g in
      let frame := slice_assign frame 0 (len frame) (zeros (len frame)) in
      let g := set_frame_buffer g frame in
      let st := update_group st gid g in
      let '(res, st) := call_apply cfg ByIdleClear gid g frame st in
      match res with
      | Returned true =>
          update_group st gid
            (set_idle_cleared (set_fail_count (set_last_send g now) 0) true)
      | _ => st
      end
  end.

Definition idle_clear_block (cfg : LoopCfg) (now : float) (active : bool)
    (st : Loop S) : Loop S :=
  if unique_idle_clear_enabled cfg && active then
    fold_left (fun st gid => idle_clear_group cfg now gid st)
      (l_runtime_groups st) st
  else st.

(** The connectivity watchdog. *)
Definition watchdog_block (cfg : LoopCfg) (now : float) (st : Loop S)
    : Loop S :=
  if watchdog_enabled cfg
     && (watchdog_interval cfg <=? now - l_last_watchdog st)%float
  then
    let st := set_l_last_watchdog st now in
    let active_recent :=
      existsb
        (fun gid =>
           match l_groups st !! gid with
           | Some g => (now - g_last_packet_ts g <? watchdog_interval cfg)%float
           | None => false
           end)
        (l_runtime_groups st) in
    if watchdog_idle_only cfg && active_recent then
      set_l_watchdog_fail_count st 0
    else if skip_reconnect_when_idle cfg && negb active_recent then
      set_l_watchdog_fail_count st 0
    else
      let '(connected, w) := is_icue_connected (l_world st) in
      let st := set_l_world st w in
      if negb connected then
        let st := set_l_watchdog_fail_count st (l_watchdog_fail_count st + 1) in
        if watchdog_fail_threshold cfg <=? l_watchdog_fail_count st then
          do_reconnect "watchdog" (set_l_watchdog_fail_count st 0)
        else st
      else set_l_watchdog_fail_count st 0
  else st.

(** The per-second packet statistics of [debug_udp]. *)
Definition debug_stats_block (cfg : LoopCfg) (now : float) (st : Loop S)
    : Loop S :=
  if debug_udp cfg then
    fold_left
      (fun st gid =>
         match l_groups st !! gid with
         | Some g =>
             if (1 <=? now - g_stats_ts g)%float then
               update_group st gid
                 (set_stats_ts (set_byte_count (set_pkt_count g 0) 0) now)
             else st
         | None => st
         end)
      (l_runtime_groups st) st
  else st.

(** One iteration of [while True:], from the time read after [select] and
    the readiness events.  The update check, the mode window and the
    keyboard, which belong to the excluded user interface, and the
    statistics log line are left out. *)
Definition loop_iteration (cfg : LoopCfg) (now : float)
    (events : list (nat * option (list byte))) (st : Loop S)
    : option (Loop S) :=
  let st := request_control_block cfg now st in
  let active := any_active_recent cfg now st in
  let st := keepalive_block cfg now active st in
  let st := idle_clear_block cfg now active st in
  let st := watchdog_block cfg now st in
  let st := debug_stats_block cfg now st in
  handle_events cfg now events st.

(** The first iterations of the loop, each from its time and its events. *)
Fixpoint run_iterations (cfg : LoopCfg)
    (iterations : list (float * list (nat * option (list byte))))
    (st : Loop S) : option (Loop S) :=
  match iterations with
  | [] => Some st
  | (now, events) :: rest =>
      st ← loop_iteration cfg now events st;
      run_iterations cfg rest st
  end.

End Loop.

End Runtime.

(* ===================================================================== *)
(** ** Notions used to state the properties *)
(* ===================================================================== *)

Module Notions.
Import Py Mapper Decoders Runtime.

(** A decoder run that ends without an exception and leaves the buffer
    with the length it had. *)
Definition keeps_length (fb : list byte) (r : option (list byte)) : Prop :=
  exists fb', r = Some fb' /\ length fb' = length fb.

(** The group as the packet loop has it when it reaches the decoder. *)
Definition received (cfg : LoopCfg) (now : float) (data : list byte)
    (g : Group) : Group :=
  mark_ddp_auto (note_packet cfg now data g) data.

(** The group behind a reference after a run of the loop. *)
Definition group_after {S} (run : option (Loop S)) (gid : nat) : option Group :=
  st ← run; l_groups st !! gid.

(** The applications of a cleared frame to a group, among the events of
    the loop. *)
Definition is_idle_clear_of (gid : nat) (e : LoopEvent) : bool :=
  match e with
  | EvApply ByIdleClear gid' _ _ => Nat.eqb gid' gid
  | _ => false
  end.

Definition idle_clears (gid : nat) (evs : list LoopEvent) : list LoopEvent :=
  List.filter (is_idle_clear_of gid) evs.

(** The group after its idle clear, given how the application ended. *)
Definition cleared (now : float) (g : Group) (res : Outcome bool) : Group :=
  let g := set_frame_buffer g (zeros (len (g_frame_buffer g))) in
  match res with
  | Returned true =>
      set_idle_cleared (set_fail_count (set_last_send g now) 0) true
  | _ => g
  end.

Section WithState.

Context {S : Type}.

(** The calls of a run extend the record by [evs], and the flag is the
    initial one or the success of one of these calls. *)
Definition extends_with (w w' : World S) (any0 any : bool) (evs : list SdkCall)
    : Prop :=
  calls w' = calls w ++ evs /\ any = any0 || existsb call_ok evs.

(** A step that adds events to the record, none of them an idle clear of
    the group [gid]. *)
Definition no_idle_clear (gid : nat) (st st' : Loop S) : Prop :=
  exists evs, l_log st' = l_log st ++ evs /\ idle_clears gid evs = [].

(** A step that moreover leaves the group object [gid] as it is. *)
Definition untouched (gid : nat) (st st' : Loop S) : Prop :=
  l_groups st' !! gid = l_groups st !! gid /\ no_idle_clear gid st st'.

(** The group's flag is set. *)
Definition flag_set (gid : nat) (st : Loop S) : Prop :=
  exists g, l_groups st !! gid = Some g /\ g_idle_cleared g = true.

(** A step that keeps the flag set and makes no idle clear of the group. *)
Definition quiet (gid : nat) (st st' : Loop S) : Prop :=
  flag_set gid st' /\ no_idle_clear gid st st'.

End WithState.

End Notions.

(* ===================================================================== *)
(** ** A small installation *)
(* ===================================================================== *)

(** Concrete devices, SDK and groups on which the definitions above are
    run. *)
Module Samples.
Import Py Mapper Runtime.

Definition sample_colors : list Color :=
  [mkColor 101 0 0 0 (Some 255); mkColor 102 0 0 0 (Some 255);
   mkColor 103 0 0 0 (Some 255)].

(** A mapper with three devices of three LEDs: one with a stored order of
    the right length, one with a stored order too short, one with none. *)
Definition sample_mapper : LedMapper :=
  mkMapper
    (<["kbd" := sample_colors]> (<["fan" := sample_colors]>
       (<["ram" := sample_colors]> ∅)))
    (<["kbd" := [2; 0; 1]]> (<["fan" := [1; 0]]> ∅))
    true 0 false.

(** A stand-in SDK: its state is the list of colors handed to the hardware,
    latest first.  Direct writes to the device "fan" are refused with error
    code 5, other direct writes succeed; buffered writes raise. *)
#[export] Instance sample_sdk : Sdk (list (device_id * list Color)) := {|
  set_led_colors s d cs :=
    if String.eqb d "fan" then (Some (ResVal (VInt 5)), s)
    else (Some (ResTuple [VNone; VInt 0]), (d, cs) :: s);
  set_led_colors_buffer s d cs := (None, s);
  flush s := (true, s);
  CorsairLedColor5 led r g b a := Some (mkColor led r g b (Some a));
  CorsairLedColor4 led r g b := Some (mkColor led r g b None);
  color_setattr := true;
|}.

Definition sample_world : World (list (device_id * list Color)) := mkWorld [] [].

(** Two LEDs of "kbd" fed in sequence, then one LED of "fan" mirroring the
    first pixel. *)
Definition sample_map : list MapEntry :=
  [mkEntry "kbd" (OneLed 0) None None;
   mkEntry "kbd" (ManyLeds [1; 2]) None None;
   mkEntry "fan" (OneLed 0) (Some 0) None].

Definition sample_frame : list byte := bytes [10; 20; 30; 40; 50; 60; 70; 80; 90]%N.

(** The loop variables for the default configuration: 60 frames per
    second, idle clear after one second, keepalive every thirty. *)
Definition sample_cfg : LoopCfg := {|
  min_interval := min_interval_of 60;
  lut := range 0 256 1;
  debug_udp := false;
  request_control_interval := 10;
  keepalive_enabled := true;
  keepalive_interval := 30;
  keepalive_reapply := true;
  keepalive_request_always := true;
  unique_idle_clear_enabled := true;
  unique_idle_clear_s := 1;
  apply_fail_threshold := 6;
  skip_reconnect_when_idle := true;
  watchdog_enabled := true;
  watchdog_interval := 5;
  watchdog_fail_threshold := 3;
  watchdog_idle_only := false;
|}.

(** A group of three pixels as [setup_runtime] leaves it at time 100, for
    a protocol, a map and its devices. *)
Definition sample_group (protocol : string) (map : list MapEntry)
    (device_ids : list device_id) : Group := {|
  g_name := "desk";
  g_protocol := protocol;
  g_map := map;
  g_device_ids := device_ids;
  g_update_mode := None;
  g_led_count := 3;
  g_frame_buffer := zeros 9;
  g_last_send := 100;
  g_first_packet := true;
  g_pkt_count := 0;
  g_byte_count := 0;
  g_stats_ts := 100;
  g_last_packet_ts := 0;
  g_fail_count := 0;
  g_idle_cleared := false;
  g_idle_clear_disabled := false;
  g_idle_clear_seconds := None;
  g_keepalive_interval := None;
  g_keepalive_reapply := None;
  g_last_keepalive := 100;
  g_ddp_auto := false;
|}.

(** The loop at time 100 with one group, under reference 0. *)
Definition sample_loop (g : Group) : Loop (list (device_id * list Color)) := {|
  l_mapper := sample_mapper;
  l_world := sample_world;
  l_groups := {[ 0%nat := g ]};
  l_runtime_groups := [0%nat];
  l_last_watchdog := 100;
  l_last_request_control := 100;
  l_watchdog_fail_count := 0;
  l_log := [];
|}.

(** Collaborators of the loop: a reconnection that returns at once, as it
    does within its cooldown, and an SDK that is connected. *)
Definition reconnect_in_cooldown {S} (reason : string) (st : Loop S) : Loop S := st.
Definition request_control_ok {S} (w : World S) : World S := w.
Definition connected {S} (w : World S) : bool * World S := (true, w).


Definition sample_run :=
  apply_frame_map sample_mapper sample_world sample_map
    ["kbd"; "fan"] sample_frame None (Some "auto").

(** The positions (0,0), (1,0), (0,1), (1,1), with any LED identifiers. *)
Definition four_positions (i0 i1 i2 i3 : Z) : list Position :=
  [mkPos i0 (Some 0%float) (Some 0%float);
   mkPos i1 (Some 1%float) (Some 0%float);
   mkPos i2 (Some 0%float) (Some 1%float);
   mkPos i3 (Some 1%float) (Some 1%float)].

Definition pt (i : Z) (x y : float) : Point := (i, x, y).

Definition four_points : list Point := [pt 0 0 0; pt 1 1 0; pt 2 0 1; pt 3 1 1].

Definition wled_loop := sample_loop (sample_group "wled" sample_map ["kbd"; "fan"]).

Definition raw_loop := sample_loop (sample_group "raw" sample_map ["kbd"; "fan"]).

(** A DDP datagram: version 1 with push, offset 0, length 3, payload 1 2 3. *)
Definition ddp_datagram : list byte :=
  bytes [0x41; 0; 0; 1; 0; 0; 0; 0; 0; 3; 1; 2; 3]%N.

(** A datagram of sub-protocol 2 of the notification family: pixel 7 8 9. *)
Definition drgb_datagram : list byte := bytes [2; 1; 7; 8; 9]%N.

Definition iterate :=
  run_iterations (S := list (device_id * list Color))
    reconnect_in_cooldown request_control_ok connected sample_cfg.

Definition six_bytes : list byte := bytes [1; 2; 3; 4; 5; 6]%N.

(** The loop with the group of "kbd" and "fan", after a first iteration at
    time 101 in which a packet arrives. *)
Definition loop_after_packet : Loop (list (device_id * list Color)) :=
  default raw_loop (iterate [(101%float, [(0%nat, Some six_bytes)])] raw_loop).

End Samples.

(* ===================================================================== *)
(** ** Notions used to state what the decoders write *)
(* ===================================================================== *)

Module DecoderNotions.
Import Py Decoders.

(** The payload that [parse_ddp] copies: what follows the header, cut to
    the declared length when that is not zero; a declared length that is a
    third of the payload size counts pixels and stands for all of it. *)
Definition ddp_payload (data : list byte) : list byte :=
  match data with
  | [] => []
  | b0 :: _ =>
      let payload := slice_from data (ddp_header_len b0) in
      let length := ddp_length data in
      let length :=
        if negb (length =? 0) && (length * 3 =? len payload) then len payload
        else length in
      if negb (length =? 0) && (length <? len payload)
      then slice_to payload length
      else payload
  end.

(** A buffer of the size of [frame_buffer] filled from its start with
    [payload], cut or followed by zeros. *)
Definition dense (payload frame_buffer : list byte) : list byte :=
  take (length frame_buffer) (payload ++ zeros (len frame_buffer)).

End DecoderNotions.

(* ===================================================================== *)
(** ** Notions used to state what the mapper pushes *)
(* ===================================================================== *)

Module MapperNotions.
Import Py Mapper.

(** The device a recorded call writes to. *)
Definition call_device (c : SdkCall) : option device_id :=
  match c with
  | CallDirect d _ => Some d
  | CallBuffer d _ => Some d
  | CallFlush => None
  end.

Definition is_direct (c : SdkCall) : bool :=
  match c with CallDirect _ _ => true | _ => false end.

Definition is_flush (c : SdkCall) : bool :=
  match c with CallFlush => true | _ => false end.

(** A buffered write that reported success. *)
Definition buffered_ok (c : SdkCall) : bool :=
  match c with CallBuffer _ ok => ok | _ => false end.

(** A write of a run over [device_ids]: no flush, and to one of these
    devices, which has colors in the mapper. *)
Definition write_within (m : LedMapper) (device_ids : list device_id)
    (c : SdkCall) : Prop :=
  exists d, call_device c = Some d /\ d ∈ device_ids /\ colors_or_empty m d <> [].

(** The update mode that [apply_frame_map] works with. *)
Definition effective_mode (update_mode : option string) : string :=
  lower (or_default update_mode "auto").

(** Two color tables with the same number of LEDs for every device. *)
Definition same_counts (a b : gmap device_id (list Color)) : Prop :=
  forall d, length (default [] (a !! d)) = length (default [] (b !! d)).

(** Every row of the rebuilt map has the LED count of its device. *)
Definition rows_fit (m : LedMapper)
    (rebuilt : gmap device_id (list (option Color))) : Prop :=
  forall d row, rebuilt !! d = Some row ->
                length row = length (colors_or_empty m d).

End MapperNotions.

(** A second stand-in SDK, whose state counts the flushes: direct writes
    are refused with error code 5, buffered writes succeed. *)
Module MapperSamples.
Import Py Mapper Samples.

#[export] Instance buffering_sdk : Sdk nat := {|
  set_led_colors s d cs := (Some (ResVal (VInt 5)), s);
  set_led_colors_buffer s d cs := (Some (ResVal VNone), s);
  flush s := (true, Datatypes.S s);
  CorsairLedColor5 led r g b a := Some (mkColor led r g b (Some a));
  CorsairLedColor4 led r g b := Some (mkColor led r g b None);
  color_setattr := true;
|}.

Definition buffered_run :=
  apply_frame_map sample_mapper (mkWorld 0%nat []) sample_map
    ["kbd"; "fan"] sample_frame None None.

End MapperSamples.

(* ===================================================================== *)
(** ** Notions used to state what the loop keeps *)
(* ===================================================================== *)

Module LoopNotions.
Import Py Mapper Decoders Runtime.

(** What the loop leaves as it is in a group object: the configuration
    that [setup_runtime] received, and the size of the frame buffer. *)
Definition same_shape (g g' : Group) : Prop :=
  g_name g' = g_name g /\
  g_protocol g' = g_protocol g /\
  g_map g' = g_map g /\
  g_device_ids g' = g_device_ids g /\
  g_update_mode g' = g_update_mode g /\
  g_led_count g' = g_led_count g /\
  g_idle_clear_disabled g' = g_idle_clear_disabled g /\
  g_idle_clear_seconds g' = g_idle_clear_seconds g /\
  g_keepalive_interval g' = g_keepalive_interval g /\
  g_keepalive_reapply g' = g_keepalive_reapply g /\
  length (g_frame_buffer g') = length (g_frame_buffer g).

(** The frames handed to [apply_frame_map] for the group [gid] all have
    [n] bytes. *)
Definition frames_sized (gid : nat) (n : nat) (evs : list LoopEvent) : Prop :=
  forall origin frame res,
    EvApply origin gid frame res ∈ evs -> length frame = n.

(** No readiness event of the list delivers an empty datagram. *)
Definition no_empty_datagram (events : list (nat * option (list byte)))
    : Prop :=
  Forall (fun ev => ev.2 <> Some []) events.

Section WithState.

Context {S : Type}.

(** The group [gid] of the state has the shape of [g]. *)
Definition shaped (gid : nat) (g : Group) (st : Loop S) : Prop :=
  exists g', l_groups st !! gid = Some g' /\ same_shape g g'.

(** A step that keeps the shape of the group [gid] and hands only frames
    of the size of its buffer to [apply_frame_map]. *)
Definition keeps_shape (gid : nat) (g : Group) (st st' : Loop S) : Prop :=
  shaped gid g st' /\
  exists evs, l_log st' = l_log st ++ evs /\
              frames_sized gid (length (g_frame_buffer g)) evs.

End WithState.

End LoopNotions.

Module LoopSamples.
Import Py Mapper Runtime Samples.

Definition ddp_loop := sample_loop (sample_group "ddp" sample_map ["kbd"; "fan"]).

(** Two iterations: a raw datagram of six bytes, then one of sub-protocol
    2 and a socket whose [recvfrom] raises. *)
Definition two_iterations : list (float * list (nat * option (list byte))) :=
  [(101%float, [(0%nat, Some six_bytes)]);
   (103%float, [(0%nat, Some drgb_datagram); (0%nat, None)])].

(** The loop with two groups: the "wled" group under reference 0 and a
    "raw" group of the same devices under reference 1. *)
Definition two_groups : Loop (list (device_id * list Color)) :=
  set_l_groups (S := list (device_id * list Color))
    (sample_loop (sample_group "wled" sample_map ["kbd"; "fan"]))
    (<[1%nat := sample_group "raw" sample_map ["kbd"; "fan"]]>
       {[ 0%nat := sample_group "wled" sample_map ["kbd"; "fan"] ]}).

End LoopSamples.

(* ===================================================================== *)
(** ** Notions used to state what a datagram leaves in the buffer *)
(* ===================================================================== *)

(** What a datagram leaves in a frame buffer, said byte by byte and
    without reference to the decoders: the vocabulary of the statement on
    the rate limit. *)
Module FrameNotions.
Import Py Decoders Runtime DecoderNotions.











End FrameNotions.

(* ===================================================================== *)
(** ** Notions used to state the range of a color *)
(* ===================================================================== *)

Module ColorNotions.
Import Py Mapper.



End ColorNotions.

(* ===================================================================== *)
(** * Properties *)
(* ===================================================================== *)

Module PyFacts.
Import Py.

Ltac case_ltb :=
  cbv beta iota zeta;
  match goal with
  | |- context [?a <? ?b] =>
      lazymatch a with context [if _ then _ else _] => fail | _ => idtac end;
      lazymatch b with context [if _ then _ else _] => fail | _ => idtac end;
      destruct (Z.ltb_spec a b)
  | |- context [?a <=? ?b] =>
      lazymatch a with context [if _ then _ else _] => fail | _ => idtac end;
      lazymatch b with context [if _ then _ else _] => fail | _ => idtac end;
      destruct (Z.leb_spec a b)
  end;
  cbv beta iota zeta.

Lemma len_nonneg {A} (l : list A) : 0 <= len l.
Proof. unfold len. lia. Qed.

Lemma clip_le n i : 0 <= n -> (clip n i <= Z.to_nat n)%nat.
Proof.
  intros Hn. unfold clip.
  repeat case_ltb; lia.
Qed.

Lemma clip_inside n i : 0 <= i <= n -> clip n i = Z.to_nat i.
Proof.
  intros Hi. unfold clip.
  repeat case_ltb; lia.
Qed.

Lemma clip_above n i : 0 <= n <= i -> clip n i = Z.to_nat n.
Proof.
  intros Hi. unfold clip.
  repeat case_ltb; lia.
Qed.

Lemma length_slice {A} (l : list A) lo hi :
  length (slice l lo hi)
  = (Nat.min (clip (len l) hi - clip (len l) lo) (length l - clip (len l) lo))%nat.
Proof. unfold slice. rewrite length_take, length_drop. reflexivity. Qed.

Lemma length_slice_assign {A} (l src : list A) lo hi :
  length (slice_assign l lo hi src)
  = (clip (len l) lo + length src
     + (length l - Nat.max (clip (len l) lo) (clip (len l) hi)))%nat.
Proof.
  unfold slice_assign. rewrite !length_app, length_take, length_drop.
  pose proof (clip_le (len l) lo (len_nonneg l)). unfold len in *. lia.
Qed.

Lemma getitem_Some {A} (l : list A) i :
  0 <= i < len l -> is_Some (getitem l i).
Proof.
  intros Hi. unfold getitem. repeat case_ltb; try lia.
  apply lookup_lt_is_Some. unfold len in Hi. lia.
Qed.

Lemma setitem_Some {A} (l : list A) i v :
  0 <= i < len l -> exists l', setitem l i v = Some l' /\ length l' = length l.
Proof.
  intros Hi. unfold setitem. repeat case_ltb; try lia. simpl.
  eexists; split; [reflexivity|]. apply length_insert.
Qed.

Lemma getitem_head {A} (x : A) (l : list A) : getitem (x :: l) 0 = Some x.
Proof. reflexivity. Qed.

Lemma length_zeros n : length (zeros n) = Z.to_nat n.
Proof. unfold zeros. apply length_replicate. Qed.

End PyFacts.

(* --------------------------------------------------------------------- *)
(** ** The DDP classifier *)
(* --------------------------------------------------------------------- *)

Module DdpClassifier.
Import Py PyFacts Decoders.

(** The classifier never raises. *)
Lemma looks_like_ddp_total data : is_Some (looks_like_ddp data).
Proof.
  unfold looks_like_ddp.
  destruct data as [|b0 rest]; [by eexists|].
  rewrite getitem_head. simpl.
  repeat match goal with
         | |- is_Some (if ?c then _ else _) => destruct c
         | |- is_Some (Some _) => by eexists
         end.
Qed.

(** The header fields do not depend on the push bit. *)
Lemma ddp_version_push b0 b0' :
  Z.land (byte_val b0) 0xFE = Z.land (byte_val b0') 0xFE ->
  ddp_version b0 = ddp_version b0'.
Proof.
  intros H. unfold ddp_version.
  change 0xC0 with (Z.land 0xFE 0xC0).
  by rewrite !Z.land_assoc, H.
Qed.

Lemma ddp_header_len_push b0 b0' :
  Z.land (byte_val b0) 0xFE = Z.land (byte_val b0') 0xFE ->
  ddp_header_len b0 = ddp_header_len b0'.
Proof.
  intros H. unfold ddp_header_len.
  change 0x10 with (Z.land 0xFE 0x10).
  by rewrite !Z.land_assoc, H.
Qed.

(** What the classifier decides on a non-empty datagram. *)
Lemma looks_like_ddp_cons b0 rest :
  looks_like_ddp (b0 :: rest) =
  Some (negb (len (b0 :: rest) <? 10)
        && negb (ddp_version b0 =? 0)
        && negb (len (b0 :: rest) <? ddp_header_len b0)
        && (ddp_length (b0 :: rest)
            <=? len (b0 :: rest) - ddp_header_len b0)).
Proof.
  unfold looks_like_ddp. rewrite getitem_head.
  set (data := b0 :: rest).
  destruct (len data <? 10) eqn:E10; [done|].
  simpl.
  destruct (ddp_version b0 =? 0) eqn:Ev; [done|].
  destruct (Z.ltb_spec (len data) (ddp_header_len b0)) as [Hh|Hh]; [done|].
  simpl.
  destruct (Z.eqb_spec (ddp_length data) 0) as [H0|H0].
  { rewrite H0. symmetry. f_equal. apply Z.leb_le. lia. }
  destruct (Z.leb_spec (ddp_length data) (len data - ddp_header_len b0)); [done|].
  destruct (Z.eqb_spec (ddp_length data * 3) (len data - ddp_header_len b0));
    [|done].
  assert (0 <= ddp_length data); [|lia].
  unfold ddp_length, int_from_bytes_big.
  generalize (slice data 8 10). intros bs.
  assert (G : forall (l : list byte) acc, 0 <= acc ->
              0 <= fold_left (fun a b => a * 256 + byte_val b) l acc).
  { induction l as [|x l IH]; simpl; intros acc Ha; [done|].
    apply IH. unfold byte_val. lia. }
  by apply G.
Qed.

Lemma ddp_length_head b0 b0' rest :
  ddp_length (b0 :: rest) = ddp_length (b0' :: rest).
Proof.
  unfold ddp_length, slice. f_equal.
  replace (len (b0' :: rest)) with (len (b0 :: rest)) by reflexivity.
  assert (Ha : exists k, clip (len (b0 :: rest)) 8 = S k).
  { unfold clip, len. simpl length. repeat case_ltb; try lia;
      match goal with |- exists k, Z.to_nat ?z = S k =>
        exists (Nat.pred (Z.to_nat z)); lia end. }
  destruct Ha as [k ->]. reflexivity.
Qed.

(** C1, as the code has it: a datagram is classified as DDP exactly when it
    has at least ten bytes, version bits other than 00, at least the header
    length (10 bytes, 14 with the timecode flag), and a declared length that
    does not exceed the remaining payload size (a zero declared length
    included).  The push bit plays no part, and a datagram with version
    bits 00, or an empty one, is never classified as DDP. *)
Theorem looks_like_ddp_spec :
  (forall data, is_Some (looks_like_ddp data)) /\
  looks_like_ddp [] = Some false /\
  (forall b0 rest,
     let data := b0 :: rest in
     looks_like_ddp data = Some true <->
     10 <= len data /\ ddp_version b0 <> 0 /\ ddp_header_len b0 <= len data /\
     ddp_length data <= len data - ddp_header_len b0) /\
  (forall b0 b0' rest,
     Z.land (byte_val b0) 0xFE = Z.land (byte_val b0') 0xFE ->
     looks_like_ddp (b0 :: rest) = looks_like_ddp (b0' :: rest)) /\
  (forall b0 rest, ddp_version b0 = 0 -> looks_like_ddp (b0 :: rest) = Some false).
Proof.
  split; [exact looks_like_ddp_total|].
  split; [reflexivity|].
  split; [|split].
  - intros b0 rest data. subst data. rewrite looks_like_ddp_cons.
    split.
    + intros [= H]. repeat (apply andb_prop in H as [H ?]).
      repeat match goal with
             | H : negb _ = true |- _ => apply negb_true_iff in H
             end.
      repeat split; lia.
    + intros (H1 & H2 & H3 & H4). f_equal.
      repeat (apply andb_true_intro; split);
        try apply negb_true_iff; lia.
  - intros b0 b0' rest H. rewrite !looks_like_ddp_cons.
    rewrite (ddp_version_push _ _ H), (ddp_header_len_push _ _ H).
    rewrite (ddp_length_head b0 b0'). reflexivity.
  - intros b0 rest H. rewrite looks_like_ddp_cons, H.
    by rewrite andb_false_r.
Qed.

(** A datagram with version bits 01, no timecode and the push bit set, the
    same with the push bit cleared, and one with version bits 00. *)
Lemma looks_like_ddp_spec_witness :
  looks_like_ddp (bytes [0x41; 0; 0; 1; 0; 0; 0; 0; 0; 3; 7; 8; 9]%N) = Some true /\
  looks_like_ddp (bytes [0x40; 0; 0; 1; 0; 0; 0; 0; 0; 3; 7; 8; 9]%N) = Some true /\
  looks_like_ddp (bytes [0x01; 0; 0; 1; 0; 0; 0; 0; 0; 3; 7; 8; 9]%N) = Some false.
Proof.
  destruct looks_like_ddp_spec as (_ & _ & Hiff & Hpush & Hzero).
  assert (H1 : looks_like_ddp (bytes [0x41; 0; 0; 1; 0; 0; 0; 0; 0; 3; 7; 8; 9]%N)
               = Some true).
  { apply Hiff. vm_compute. repeat split; congruence. }
  split; [exact H1|]. split.
  - rewrite <- H1. apply Hpush. reflexivity.
  - apply Hzero. reflexivity.
Defined.

(** The datagram 41 00 00 00 00 00 00 00 00 05 has version bits 01 and
    exactly the ten header bytes, and declares five payload bytes where
    none follow: it is not classified as DDP. *)
Lemma looks_like_ddp_rejects_excess_length :
  let data := bytes [0x41; 0; 0; 0; 0; 0; 0; 0; 0; 5]%N in
  (exists b0 rest, data = b0 :: rest /\ ddp_version b0 = 1 /\
                   ddp_header_len b0 = 10) /\
  len data = 10 /\
  ddp_length data = 5 /\
  looks_like_ddp data = Some false.
Proof.
  repeat split; try reflexivity.
  eexists _, _. repeat split; reflexivity.
Qed.

End DdpClassifier.

(* --------------------------------------------------------------------- *)
(** ** Decoders: no exception, no resizing *)
(* --------------------------------------------------------------------- *)

Module DecoderSafety.
Import Py PyFacts Decoders Notions.

Lemma byte_val_nonneg b : 0 <= byte_val b.
Proof. unfold byte_val. lia. Qed.

Lemma int_from_bytes_big_nonneg bs : 0 <= int_from_bytes_big bs.
Proof.
  unfold int_from_bytes_big.
  assert (G : forall (l : list byte) acc, 0 <= acc ->
              0 <= fold_left (fun a b => a * 256 + byte_val b) l acc).
  { induction l as [|x l IH]; simpl; intros acc Ha; [done|].
    apply IH. pose proof (byte_val_nonneg x). lia. }
  by apply G.
Qed.

Lemma length_slice_to {A} (l : list A) k :
  0 <= k <= len l -> length (slice_to l k) = Z.to_nat k.
Proof.
  intros Hk. unfold slice_to. rewrite length_slice.
  rewrite (clip_inside (len l) k) by lia.
  rewrite (clip_inside (len l) 0) by lia.
  unfold len in Hk. lia.
Qed.

Lemma length_slice_assign_fit {A} (l src : list A) lo hi :
  0 <= lo <= hi -> hi <= len l -> length src = Z.to_nat (hi - lo) ->
  length (slice_assign l lo hi src) = length l.
Proof.
  intros Hlo Hhi Hsrc. rewrite length_slice_assign.
  rewrite (clip_inside (len l) lo), (clip_inside (len l) hi) by lia.
  unfold len in Hhi. lia.
Qed.

Lemma length_clear_tail fb start :
  0 <= start -> length (_clear_tail fb start) = length fb.
Proof.
  intros Hs. unfold _clear_tail. case_ltb; [|done].
  apply length_slice_assign_fit; [lia|lia|]. apply length_zeros.
Qed.

Lemma length_copy_and_clear payload fb :
  length (copy_and_clear payload fb) = length fb.
Proof.
  unfold copy_and_clear.
  pose proof (len_nonneg payload). pose proof (len_nonneg fb).
  assert (Hc : length (slice_assign fb 0 (Z.min (len fb) (len payload))
                         (slice_to payload (Z.min (len fb) (len payload))))
               = length fb).
  { apply length_slice_assign_fit; [lia|lia|].
    rewrite length_slice_to by lia. f_equal. lia. }
  case_ltb; [|done].
  rewrite length_clear_tail by lia. done.
Qed.

Lemma length_raw_fallback data fb : length (raw_fallback data fb) = length fb.
Proof.
  unfold raw_fallback. destruct (_ =? _); [|done]. apply length_copy_and_clear.
Qed.

Lemma keeps_length_Some fb fb' :
  length fb' = length fb -> keeps_length fb (Some fb').
Proof. intros H. by exists fb'. Qed.

Lemma keeps_length_trans fb fb1 r :
  length fb1 = length fb -> keeps_length fb1 r -> keeps_length fb r.
Proof. intros H (fb' & -> & H'). exists fb'. split; [done|congruence]. Qed.

(** One read or one in-range write of a loop body goes through. *)
Ltac read_ok :=
  match goal with
  | |- keeps_length _ (getitem ?l ?i ≫= _) =>
      let x := fresh "x" in
      let E := fresh "E" in
      destruct (getitem_Some l i) as [x E]; [lia|]; rewrite E; clear E; simpl
  end.

Ltac write_ok :=
  match goal with
  | |- keeps_length ?fb0 (setitem ?l ?i ?v ≫= _) =>
      let l' := fresh "fb" in
      let E := fresh "E" in
      let L := fresh "L" in
      destruct (setitem_Some l i v) as (l' & E & L); [unfold len in *; lia|];
      rewrite E; clear E; simpl;
      apply (keeps_length_trans fb0 l'); [congruence|]
  end.

Lemma range_fuel_lower fuel start stop step :
  0 <= step -> Forall (fun i => start <= i) (range_fuel fuel start stop step).
Proof.
  intros Hstep. revert start.
  induction fuel as [|k IH]; intros start; simpl; [constructor|].
  destruct (start <? stop); constructor; [lia|].
  eapply Forall_impl; [apply IH|]. simpl. intros. lia.
Qed.

Lemma range_nonneg stop step :
  0 <= step -> Forall (fun i => 0 <= i) (range 0 stop step).
Proof. intros. by apply range_fuel_lower. Qed.

Lemma warls_loop_ok payload idxs fb :
  Forall (fun i => 0 <= i) idxs ->
  keeps_length fb (warls_loop payload idxs fb).
Proof.
  intros Hidx. revert fb.
  induction Hidx as [|i idxs Hi _ IH]; intros fb; simpl;
    [by apply keeps_length_Some|].
  case_ltb; [by apply keeps_length_Some|].
  read_ok. pose proof (byte_val_nonneg x).
  case_ltb; [apply IH|].
  read_ok. write_ok. read_ok. write_ok. read_ok. write_ok.
  apply IH.
Qed.

Lemma drgbw_loop_ok payload idxs out fb :
  Forall (fun i => 0 <= i) idxs -> 0 <= out ->
  keeps_length fb (drgbw_loop payload idxs out fb).
Proof.
  intros Hidx. revert out fb.
  induction Hidx as [|i idxs Hi _ IH]; intros out fb Hout; simpl;
    [by apply keeps_length_Some|].
  repeat case_ltb; simpl; try by apply keeps_length_Some.
  read_ok. write_ok. read_ok. write_ok. read_ok. write_ok.
  apply IH. lia.
Qed.

Lemma dnrgb_loop_ok payload start idxs fb :
  Forall (fun i => 0 <= i) idxs -> 0 <= start ->
  keeps_length fb (dnrgb_loop payload start idxs fb).
Proof.
  intros Hidx Hstart. revert fb.
  induction Hidx as [|i idxs Hi _ IH]; intros fb; simpl;
    [by apply keeps_length_Some|].
  assert (0 <= i / 3) by (apply Z.div_pos; lia).
  repeat case_ltb; simpl; try by apply keeps_length_Some.
  read_ok. write_ok. read_ok. write_ok. read_ok. write_ok.
  apply IH.
Qed.

Lemma parse_wled_or_raw_ok data fb :
  keeps_length fb (parse_wled_or_raw data fb).
Proof.
  unfold parse_wled_or_raw.
  destruct (Z.eqb_spec (len data) 0) as [H0|H0]; [by apply keeps_length_Some|].
  pose proof (len_nonneg data).
  read_ok.
  destruct (_ && (2 <=? len data)) eqn:Hhead; simpl;
    [|apply keeps_length_Some, length_raw_fallback].
  apply andb_prop in Hhead as [_ H2]. apply Z.leb_le in H2.
  destruct (_ && _); [apply keeps_length_Some, length_copy_and_clear|].
  destruct (len data <? 2); [by apply keeps_length_Some|].
  destruct (byte_val x =? 1).
  { apply warls_loop_ok, range_nonneg. lia. }
  destruct (byte_val x =? 2);
    [apply keeps_length_Some, length_copy_and_clear|].
  destruct (byte_val x =? 3).
  { apply drgbw_loop_ok; [apply range_nonneg|]; lia. }
  destruct (byte_val x =? 4);
    [|apply keeps_length_Some, length_raw_fallback].
  case_ltb; [by apply keeps_length_Some|].
  read_ok. read_ok.
  apply dnrgb_loop_ok; [apply range_nonneg; lia|].
  pose proof (byte_val_nonneg x0). pose proof (byte_val_nonneg x1).
  apply Z.lor_nonneg. split; [apply Z.shiftl_nonneg|]; lia.
Qed.

Lemma parse_ddp_ok data fb :
  data <> [] ->
  exists fb', parse_ddp data fb = Some (ddp_push (default Byte.x00 (head data)), fb')
              /\ length fb' = length fb.
Proof.
  intros Hne. destruct data as [|b0 rest]; [done|].
  unfold parse_ddp. rewrite getitem_head. simpl.
  set (data := b0 :: rest).
  set (payload0 := slice_from data (ddp_header_len b0)).
  set (length1 := if _ && _ then len payload0 else ddp_length data).
  set (payload := if _ && _ then slice_to payload0 length1 else payload0).
  eexists; split; [reflexivity|].
  pose proof (int_from_bytes_big_nonneg (slice data 4 8)) as Hoff.
  fold (ddp_offset data) in Hoff.
  pose proof (len_nonneg payload). pose proof (len_nonneg fb).
  case_ltb; [|done].
  apply length_slice_assign_fit; [lia|lia|].
  rewrite length_slice_to by lia. done.
Qed.

(** C10: the decoders are total and keep the frame buffer's size.
    [parse_wled_or_raw] raises on no datagram, the empty one included;
    [parse_ddp] raises on no datagram of ten bytes or more; [_clear_tail]
    from a non-negative start, and both decoders, leave the buffer with the
    length it had.  In this model a single-byte write outside the buffer is
    an exception and a slice assignment of the wrong size resizes the
    buffer, so every write of a run lands inside the buffer or is left out. *)
Theorem decoders_total_and_in_bounds :
  (forall data fb,
     exists fb', parse_wled_or_raw data fb = Some fb' /\ length fb' = length fb) /\
  (forall data fb,
     10 <= len data ->
     exists push fb', parse_ddp data fb = Some (push, fb') /\
                      length fb' = length fb) /\
  (forall fb start, 0 <= start -> length (_clear_tail fb start) = length fb).
Proof.
  split; [exact parse_wled_or_raw_ok|]. split.
  - intros data fb Hlen.
    destruct (parse_ddp_ok data fb) as (fb' & E & L).
    { intros ->. unfold len in Hlen. simpl in Hlen. lia. }
    eauto.
  - exact length_clear_tail.
Qed.

(** A ten-byte header with offset 3 and length 6 followed by eight payload
    bytes, decoded into a six-byte buffer: the copy is clipped at the end
    of the buffer. *)
Lemma decoders_total_and_in_bounds_witness :
  let data := bytes
                [0x41; 0; 0; 1; 0; 0; 0; 3; 0; 6; 1; 2; 3; 4; 5; 6; 7; 8]%N in
  let fb := bytes [9; 9; 9; 9; 9; 9]%N in
  10 <= len data /\
  (exists push fb', parse_ddp data fb = Some (push, fb') /\
                    length fb' = length fb) /\
  parse_ddp data fb = Some (true, bytes [9; 9; 9; 1; 2; 3]%N) /\
  length (_clear_tail fb 2) = length fb.
Proof.
  intros data fb.
  destruct decoders_total_and_in_bounds as (_ & Hddp & Htail).
  split; [vm_compute; congruence|].
  split; [apply Hddp; vm_compute; congruence|].
  split; [reflexivity|].
  apply Htail. lia.
Defined.

(** The decoders on two small datagrams: a DDP datagram without push,
    offset 0, length 6, and a datagram of sub-protocol 2 with six payload
    bytes into a buffer of nine. *)
Example parse_ddp_placement :
  parse_ddp (bytes [0x40; 0; 0; 1; 0; 0; 0; 0; 0; 6; 1; 2; 3; 4; 5; 6]%N)
            (bytes [9; 9; 9; 9; 9; 9; 9; 9]%N)
  = Some (false, bytes [1; 2; 3; 4; 5; 6; 9; 9]%N).
Proof. reflexivity. Qed.

Example parse_wled_dense_copy :
  parse_wled_or_raw (bytes [2; 10; 20; 30; 40; 50; 60]%N)
                    (bytes [9; 9; 9; 9; 9; 9; 9; 9; 9]%N)
  = Some (bytes [10; 20; 30; 40; 50; 60; 0; 0; 0]%N).
Proof. reflexivity. Qed.

End DecoderSafety.

(* --------------------------------------------------------------------- *)
(** ** The lookup table *)
(* --------------------------------------------------------------------- *)

Module LutFacts.
Import Py PyFacts Lut Samples.


(** *** Truncation and rounding of an exact value *)









Section Pow.

Variable pow : float -> float -> option float.

(** [x ** 1.0 == x]: the one fact about [pow] the table relies on, since
    [build_lut] does not call it for a gamma equal to one. *)
Hypothesis pow_one : forall x g, (g =? 1)%float = true -> pow x g = Some x.







End Pow.



End LutFacts.

(* --------------------------------------------------------------------- *)
(** ** Device order *)
(* --------------------------------------------------------------------- *)

Module DeviceOrder.
Import Py PyFacts Mapper Samples.

Lemma range_fuel_seq k : forall s stop,
  Z.to_nat (stop - s) = k ->
  range_fuel k s stop 1 = map (fun i => s + Z.of_nat i) (seq 0 k).
Proof.
  induction k as [|k IH]; intros s stop Hk; simpl; [done|].
  case_ltb; [|lia].
  f_equal; [lia|].
  rewrite (IH (s + 1) stop) by lia.
  rewrite <- seq_shift, map_map. apply map_ext. intros i. lia.
Qed.

(** [list(range(n))] is the identity order over [n] LEDs. *)
Lemma range_identity (n : nat) :
  range 0 (Z.of_nat n) 1 = map Z.of_nat (seq 0 n).
Proof.
  unfold range. rewrite (range_fuel_seq (Z.to_nat (Z.of_nat n - 0)) 0) by done.
  replace (Z.to_nat (Z.of_nat n - 0)) with n by lia.
  apply map_ext. intros i. lia.
Qed.

(** C5: the order returned for a device always has as many entries as the
    device has LEDs; it is the stored order when that order has this length,
    and the identity order [0, 1, ..., n-1] when the stored order has
    another length or when none is stored. *)
Theorem get_device_order_spec (m : LedMapper) (d : device_id) :
  let n := length (colors_or_empty m d) in
  let identity := map Z.of_nat (seq 0 n) in
  length (get_device_order m d) = n /\
  (forall o, order_by_device m !! d = Some o -> length o = n ->
             get_device_order m d = o) /\
  (forall o, order_by_device m !! d = Some o -> length o <> n ->
             get_device_order m d = identity) /\
  (order_by_device m !! d = None -> get_device_order m d = identity).
Proof.
  intros n identity.
  assert (Hid : range 0 (len (colors_or_empty m d)) 1 = identity).
  { unfold len. apply range_identity. }
  assert (Hlen : length identity = n).
  { unfold identity. by rewrite length_map, length_seq. }
  unfold get_device_order. rewrite Hid.
  repeat split.
  - destruct (order_by_device m !! d) as [o|]; [|done].
    destruct (negb _ && _) eqn:E; [|done].
    apply andb_prop in E as [_ E]. apply Z.eqb_eq in E.
    unfold len in E. fold n in E. lia.
  - intros o -> Ho.
    destruct (negb _ && _) eqn:E; [done|].
    apply andb_false_iff in E as [E|E].
    + apply negb_false_iff, Z.eqb_eq in E. unfold len in E.
      destruct o; [|simpl in E; lia].
      subst identity. by rewrite <- Ho.
    + apply Z.eqb_neq in E. unfold len in E. fold n in E. lia.
  - intros o -> Ho.
    destruct (negb _ && _) eqn:E; [|done].
    apply andb_prop in E as [_ E]. apply Z.eqb_eq in E.
    unfold len in E. fold n in E. lia.
  - by intros ->.
Qed.

Lemma get_device_order_spec_witness :
  get_device_order sample_mapper "kbd" = [2; 0; 1] /\
  get_device_order sample_mapper "fan" = [0; 1; 2] /\
  get_device_order sample_mapper "ram" = [0; 1; 2].
Proof.
  split; [|split].
  - apply (get_device_order_spec sample_mapper "kbd"); reflexivity.
  - apply (proj1 (proj2 (proj2 (get_device_order_spec sample_mapper "fan")))
             [1; 0]); [reflexivity|].
    vm_compute. lia.
  - apply (get_device_order_spec sample_mapper "ram"). reflexivity.
Defined.

End DeviceOrder.

(* --------------------------------------------------------------------- *)
(** ** The result of apply_frame_map *)
(* --------------------------------------------------------------------- *)

Module ApplyResult.
Import Py PyFacts Mapper Notions Samples.

Section WithSdk.

Context {S : Type} `{Sdk S}.

Lemma extends_refl (w : World S) any : extends_with w w any any [].
Proof. split; simpl; [by rewrite app_nil_r|by rewrite orb_false_r]. Qed.

Lemma extends_trans (w1 w2 w3 : World S) a1 a2 a3 evs1 evs2 :
  extends_with w1 w2 a1 a2 evs1 -> extends_with w2 w3 a2 a3 evs2 ->
  extends_with w1 w3 a1 a3 (evs1 ++ evs2).
Proof.
  intros [C1 A1] [C2 A2]. split.
  - by rewrite C2, C1, app_assoc.
  - by rewrite A2, A1, existsb_app, orb_assoc.
Qed.

Lemma try_set_direct_calls m w d colors :
  calls (_try_set_direct m w d colors).2
  = calls w ++ [CallDirect d (_try_set_direct m w d colors).1.1].
Proof.
  unfold _try_set_direct.
  destruct (set_led_colors (sdk w) d colors) as [[res|] s]; reflexivity.
Qed.

Lemma try_set_buffer_calls m w d colors :
  calls (_try_set_buffer m w d colors).2
  = calls w ++ [CallBuffer d (_try_set_buffer m w d colors).1.1].
Proof.
  unfold _try_set_buffer.
  destruct (set_led_colors_buffer (sdk w) d colors) as [[res|] s]; reflexivity.
Qed.

Lemma try_set_direct_extends m w d colors any :
  extends_with w (_try_set_direct m w d colors).2 any
    (any || (_try_set_direct m w d colors).1.1)
    [CallDirect d (_try_set_direct m w d colors).1.1].
Proof.
  split; [apply try_set_direct_calls|]. simpl. by rewrite orb_false_r.
Qed.

Lemma try_set_buffer_extends m w d colors any :
  extends_with w (_try_set_buffer m w d colors).2 any
    (any || (_try_set_buffer m w d colors).1.1)
    [CallBuffer d (_try_set_buffer m w d colors).1.1].
Proof.
  split; [apply try_set_buffer_calls|]. simpl. by rewrite orb_false_r.
Qed.

Lemma sdk_flush_extends w any :
  extends_with w (sdk_flush w).2 any any [CallFlush].
Proof.
  unfold sdk_flush. destruct (flush (sdk w)) as [ok s]; simpl.
  split; simpl; [done|]. by rewrite orb_false_r.
Qed.

Lemma push_direct_extends m ids : forall any w,
  exists evs,
    extends_with w (push_direct m ids any w).2 any (push_direct m ids any w).1 evs.
Proof.
  induction ids as [|d ids IH]; intros any w; simpl.
  - exists []. apply extends_refl.
  - destruct (led_colors_by_device m !! d) as [[|c cs]|]; try apply IH.
    pose proof (try_set_direct_extends m w d (c :: cs) any) as Hd.
    destruct (_try_set_direct m w d (c :: cs)) as [[okd errd] w1].
    simpl in Hd.
    destruct (IH (any || okd) w1) as [evs Hevs].
    eexists. eapply extends_trans; eassumption.
Qed.

Lemma push_buffer_extends m ids : forall any used w,
  exists evs,
    extends_with w (push_buffer m ids any used w).2 any
      (push_buffer m ids any used w).1.1 evs.
Proof.
  induction ids as [|d ids IH]; intros any used w; simpl.
  - exists []. apply extends_refl.
  - destruct (led_colors_by_device m !! d) as [[|c cs]|]; try apply IH.
    pose proof (try_set_buffer_extends m w d (c :: cs) any) as Hb.
    destruct (_try_set_buffer m w d (c :: cs)) as [[okb errb] w1].
    simpl in Hb. destruct okb.
    + rewrite orb_true_r in Hb.
      destruct (IH true true w1) as [evs Hevs].
      eexists. eapply extends_trans; eassumption.
    + rewrite orb_false_r in Hb.
      pose proof (try_set_direct_extends m w1 d (c :: cs) any) as Hd.
      destruct (_try_set_direct m w1 d (c :: cs)) as [[okd errd] w2].
      simpl in Hd.
      destruct (IH (any || okd) used w2) as [evs Hevs].
      eexists. eapply extends_trans; [|eassumption].
      eapply extends_trans; eassumption.
Qed.

Lemma push_auto_extends m ids : forall any used w,
  exists evs,
    extends_with w (push_auto m ids any used w).2 any
      (push_auto m ids any used w).1.1 evs.
Proof.
  induction ids as [|d ids IH]; intros any used w; simpl.
  - exists []. apply extends_refl.
  - destruct (led_colors_by_device m !! d) as [[|c cs]|]; try apply IH.
    pose proof (try_set_direct_extends m w d (c :: cs) any) as Hd.
    destruct (_try_set_direct m w d (c :: cs)) as [[okd errd] w1].
    simpl in Hd. destruct okd.
    + rewrite orb_true_r in Hd.
      destruct (IH true used w1) as [evs Hevs].
      eexists. eapply extends_trans; eassumption.
    + rewrite orb_false_r in Hd.
      pose proof (try_set_buffer_extends m w1 d (c :: cs) any) as Hb.
      destruct (_try_set_buffer m w1 d (c :: cs)) as [[okb errb] w2].
      simpl in Hb. destruct okb.
      * rewrite orb_true_r in Hb.
        destruct (IH true true w2) as [evs Hevs].
        eexists. eapply extends_trans; [|eassumption].
        eapply extends_trans; eassumption.
      * rewrite orb_false_r in Hb.
        destruct (IH any used w2) as [evs Hevs].
        eexists. eapply extends_trans; [|eassumption].
        eapply extends_trans; eassumption.
Qed.

(** The three ways of pushing, from a flag that starts false. *)
Lemma push_colors_extends m w ids (mode : string) ok w' :
  push_colors m w ids mode = (Returned ok, w') ->
  exists evs, extends_with w w' false ok evs.
Proof.
  unfold push_colors.
  destruct (String.eqb mode "direct").
  { destruct (push_direct_extends m ids false w) as [evs Hevs].
    destruct (push_direct m ids false w) as [any w1].
    intros [= <- <-]. eauto. }
  destruct (String.eqb mode "buffer" || String.eqb mode "buffer_safe").
  { destruct (push_buffer_extends m ids false false w) as [evs1 H1].
    destruct (push_buffer m ids false false w) as [[any used] w1].
    simpl in H1.
    assert (Hfl : exists evs,
              extends_with w (if used then sdk_flush w1 else (true, w1)).2
                false any evs).
    { destruct used; simpl; [|eauto].
      eexists. eapply extends_trans; [eassumption|apply sdk_flush_extends]. }
    destruct Hfl as [evs2 H2].
    destruct (if used then sdk_flush w1 else (true, w1)) as [flushed w2].
    simpl in H2. destruct flushed; simpl; [|done].
    destruct (String.eqb mode "buffer_safe").
    - destruct (push_direct_extends m ids any w2) as [evs3 H3].
      destruct (push_direct m ids any w2) as [any' w3].
      intros [= <- <-]. eexists. eapply extends_trans; eassumption.
    - intros [= <- <-]. eauto. }
  destruct (push_auto_extends m ids false false w) as [evs1 H1].
  destruct (push_auto m ids false false w) as [[any used] w1].
  simpl in H1.
  assert (Hfl : exists evs,
            extends_with w (if used then sdk_flush w1 else (true, w1)).2
              false any evs).
  { destruct used; simpl; [|eauto].
    eexists. eapply extends_trans; [eassumption|apply sdk_flush_extends]. }
  destruct Hfl as [evs2 H2].
  destruct (if used then sdk_flush w1 else (true, w1)) as [flushed w2].
  simpl in H2. destruct flushed; simpl; [|done].
  intros [= <- <-]. eauto.
Qed.

(** C6: when [apply_frame_map] returns, its result is true exactly when
    one of the device writes of this call, direct or buffered, reported
    success; with an empty map entry list it returns false without a write,
    and so it does when every write of the call fails. *)
Theorem apply_frame_map_result m w map_list device_ids frame_bytes lut
    update_mode ok m' w' :
  apply_frame_map m w map_list device_ids frame_bytes lut update_mode
    = (Returned ok, m', w') ->
  exists evs,
    calls w' = calls w ++ evs /\
    (ok = true <-> exists c, c ∈ evs /\ call_ok c = true) /\
    (map_list = [] -> ok = false /\ evs = []) /\
    ((forall c, c ∈ evs -> call_ok c = false) -> ok = false).
Proof.
  intros Hrun.
  assert (Hex : exists evs, extends_with w w' false ok evs
                            /\ (map_list = [] -> evs = [])).
  { destruct map_list as [|e entries].
    - injection Hrun as <- <- <-. exists []. split; [apply extends_refl|done].
    - unfold apply_frame_map in Hrun.
      destruct (if mutable_colors m then _ else _) as [m1 pass_end].
      assert (Hpush : exists m2 mode,
                (let '(res, w2) := push_colors m2 w device_ids mode in
                 (res, m2, w2)) = (Returned ok, m', w')).
      { destruct pass_end; try done;
          destruct (if negb (mutable_colors m1) then _ else _) as [m2|];
          try done; eauto. }
      destruct Hpush as (m2 & mode & Hpush).
      destruct (push_colors m2 w device_ids mode) as [res w2] eqn:E.
      injection Hpush as -> -> ->.
      destruct (push_colors_extends _ _ _ _ _ _ E) as [evs Hevs].
      exists evs. split; [done|done]. }
  destruct Hex as (evs & [Hcalls Hok] & Hnil).
  simpl in Hok.
  assert (Hiff : ok = true <-> exists c, c ∈ evs /\ call_ok c = true).
  { rewrite Hok, existsb_exists.
    split; intros (c & Hc & Hs); exists c; (split; [|done]);
      by apply list_elem_of_In. }
  exists evs. repeat split; try done.
  - apply Hiff.
  - apply Hiff.
  - destruct ok; [|done]. destruct (proj1 Hiff eq_refl) as (c & Hc & Hs).
    destruct map_list; [|done]. rewrite Hnil in Hc by done. by inversion Hc.
  - by apply Hnil.
  - intros Hall. destruct ok; [|done].
    destruct (proj1 Hiff eq_refl) as (c & Hc & Hs).
    rewrite (Hall c Hc) in Hs. done.
Qed.

End WithSdk.

Example sample_run_calls :
  (sample_run.1.1, calls sample_run.2)
  = (Returned true, [CallDirect "kbd" true; CallDirect "fan" false;
                     CallBuffer "fan" false]).
Proof. vm_compute. reflexivity. Qed.

Example sample_run_colors :
  led_colors_by_device sample_run.1.2 !! "kbd"
  = Some [mkColor 101 10 20 30 (Some 255); mkColor 102 40 50 60 (Some 255);
          mkColor 103 40 50 60 (Some 255)].
Proof. vm_compute. reflexivity. Qed.

Lemma apply_frame_map_result_witness :
  exists ok m' w',
    sample_run = (Returned ok, m', w') /\
    (ok = true <-> exists c, c ∈ calls w' /\ call_ok c = true).
Proof.
  destruct sample_run as [[[ok|] m'] w'] eqn:E; [|vm_compute in E; discriminate].
  exists ok, m', w'. split; [reflexivity|].
  destruct (apply_frame_map_result _ _ _ _ _ _ _ _ _ _ E)
    as (evs & Hcalls & Hiff & _).
  simpl in Hcalls. rewrite Hcalls. exact Hiff.
Defined.

End ApplyResult.

(* --------------------------------------------------------------------- *)
(** ** Comparisons of binary64 numbers *)
(* --------------------------------------------------------------------- *)

Module FloatFacts.

Lemma SFcompare_antisym a b c :
  SFcompare a b = Some c -> SFcompare b a = Some (CompOpp c).
Proof.
  destruct a as [sa|sa| |sa ma ea], b as [sb|sb| |sb mb eb]; simpl;
    try discriminate; intros [= <-];
    try (destruct sa; reflexivity); try (destruct sb; reflexivity);
    try (destruct sa, sb; reflexivity).
  f_equal.
  destruct sa, sb; try reflexivity;
    rewrite (Z.compare_antisym ea eb); destruct (ea ?= eb)%Z; simpl;
    try reflexivity;
    rewrite (Pos.compare_cont_antisym ma mb Eq); reflexivity.
Qed.

Lemma ltb_leb_false a b : (a <? b)%float = true -> (b <=? a)%float = false.
Proof.
  rewrite FloatAxioms.ltb_spec, FloatAxioms.leb_spec. unfold SFltb, SFleb.
  destruct (SFcompare (Prim2SF a) (Prim2SF b)) as [[]|] eqn:E; try discriminate.
  intros _. rewrite (SFcompare_antisym _ _ _ E). reflexivity.
Qed.

Lemma ltb_leb a b : (a <? b)%float = true -> (a <=? b)%float = true.
Proof.
  rewrite FloatAxioms.ltb_spec, FloatAxioms.leb_spec. unfold SFltb, SFleb.
  destruct (SFcompare (Prim2SF a) (Prim2SF b)) as [[]|] eqn:E; try discriminate.
  reflexivity.
Qed.


End FloatFacts.

(* --------------------------------------------------------------------- *)
(** ** Serpentine order of a two by two grid *)
(* --------------------------------------------------------------------- *)

Module Serpentine.
Import Py Mapper FloatFacts Samples.

Lemma collect_four_points i0 i1 i2 i3 :
  collect_points (four_positions i0 i1 i2 i3) 0 false false false
  = Some four_points.
Proof. reflexivity. Qed.

(** With a tolerance between zero and the gap between the two Y values,
    the sweep finds the two rows, lower Y first. *)
Lemma rows_of_four_points t :
  (0 <? t)%float = true -> (t <? 1)%float = true ->
  rows_by_tolerance four_points (Some t) (Some "top")
  = [[pt 0 0 0; pt 1 1 0]; [pt 2 0 1; pt 3 1 1]].
Proof.
  intros H0 H1.
  pose proof (ltb_leb_false _ _ H0) as A.
  pose proof (ltb_leb _ _ H0) as B.
  pose proof (ltb_leb_false _ _ H1) as C.
  unfold rows_by_tolerance, row_tol. rewrite A. cbv beta iota zeta.
  change (default 1%float (Some t)) with t.
  change (if String.eqb _ _ then _ else _) with four_points.
  unfold four_points. cbn [sweep_rows pt_y pt snd].
  change (abs (0 - 0)) with 0%float. rewrite B.
  change (abs (1 - 0)) with 1%float. rewrite C.
  change (abs (1 - 1)) with 0%float. rewrite B.
  reflexivity.
Qed.

(** C7: for the positions (0,0), (1,0), (0,1), (1,1) in this index order,
    a row tolerance that merges equal Y values and keeps the two Y values
    apart (any [t] with [0 < t < 1], such as 0.4), first_dir "left",
    row_order "top", no rows_count, no flip or swap and mode "serpentine",
    the order is [0, 1, 3, 2]. *)
Theorem serpentine_order_two_rows (t : float) (i0 i1 i2 i3 : Z) :
  (0 <? t)%float = true -> (t <? 1)%float = true ->
  _compute_serpentine_order (four_positions i0 i1 i2 i3) (Some t)
    (Some "left") (Some "top") None false false false (Some "serpentine")
  = Some (Some [0; 1; 3; 2]).
Proof.
  intros H0 H1. unfold _compute_serpentine_order.
  change (four_positions i0 i1 i2 i3) with
    (mkPos i0 (Some 0%float) (Some 0%float)
       :: tail (four_positions i0 i1 i2 i3)) at 1.
  cbv iota. rewrite collect_four_points. simpl mbind.
  rewrite (rows_of_four_points t H0 H1).
  reflexivity.
Qed.

Lemma serpentine_order_two_rows_witness :
  _compute_serpentine_order (four_positions 7 8 9 10) (Some 0.4%float)
    (Some "left") (Some "top") None false false false (Some "serpentine")
  = Some (Some [0; 1; 3; 2]).
Proof. apply serpentine_order_two_rows; reflexivity. Defined.

(** The same grid in other configurations. *)
Example serpentine_order_right_bottom :
  _compute_serpentine_order (four_positions 7 8 9 10) (Some 0.4%float)
    (Some "right") (Some "bottom") None false false false (Some "serpentine")
  = Some (Some [3; 2; 0; 1]).
Proof. vm_compute. reflexivity. Qed.

Example serpentine_order_linear :
  _compute_serpentine_order (four_positions 7 8 9 10) None
    (Some "left") None None false false false (Some "linear")
  = Some (Some [0; 1; 2; 3]).
Proof. vm_compute. reflexivity. Qed.

Example serpentine_order_rows_count :
  _compute_serpentine_order (four_positions 7 8 9 10) None
    None None (Some 2) false false false None
  = Some (Some [0; 1; 3; 2]).
Proof. vm_compute. reflexivity. Qed.

End Serpentine.

(* --------------------------------------------------------------------- *)
(** ** The packet loop *)
(* --------------------------------------------------------------------- *)

Module PacketLoop.
Import Py PyFacts Mapper Decoders Runtime FloatFacts Notions Samples.

(** The bookkeeping of a packet touches neither the protocol, nor the frame
    buffer, nor the time of the last send. *)
Lemma note_packet_protocol cfg now data g :
  g_protocol (note_packet cfg now data g) = g_protocol g.
Proof. unfold note_packet. by destruct (g_first_packet g), (debug_udp cfg). Qed.

Lemma note_packet_frame_buffer cfg now data g :
  g_frame_buffer (note_packet cfg now data g) = g_frame_buffer g.
Proof. unfold note_packet. by destruct (g_first_packet g), (debug_udp cfg). Qed.

Lemma note_packet_last_send cfg now data g :
  g_last_send (note_packet cfg now data g) = g_last_send g.
Proof. unfold note_packet. by destruct (g_first_packet g), (debug_udp cfg). Qed.

Lemma note_packet_idle_cleared cfg now data g :
  g_idle_cleared (note_packet cfg now data g) = false.
Proof. reflexivity. Qed.

Lemma mark_ddp_auto_protocol g data :
  g_protocol (mark_ddp_auto g data) = g_protocol g.
Proof. unfold mark_ddp_auto. by destruct (_ && _). Qed.

Lemma mark_ddp_auto_frame_buffer g data :
  g_frame_buffer (mark_ddp_auto g data) = g_frame_buffer g.
Proof. unfold mark_ddp_auto. by destruct (_ && _). Qed.

Lemma mark_ddp_auto_last_send g data :
  g_last_send (mark_ddp_auto g data) = g_last_send g.
Proof. unfold mark_ddp_auto. by destruct (_ && _). Qed.

Lemma mark_ddp_auto_idle_cleared g data :
  g_idle_cleared (mark_ddp_auto g data) = g_idle_cleared g.
Proof. unfold mark_ddp_auto. by destruct (_ && _). Qed.

Lemma mark_ddp_auto_not_wled g data :
  g_protocol g <> "wled" -> mark_ddp_auto g data = g.
Proof.
  intros Hp. unfold mark_ddp_auto.
  destruct (String.eqb_spec (g_protocol g) "wled"); [done|reflexivity].
Qed.

Lemma received_protocol cfg now data g :
  g_protocol (received cfg now data g) = g_protocol g.
Proof. unfold received. by rewrite mark_ddp_auto_protocol, note_packet_protocol. Qed.

Lemma received_frame_buffer cfg now data g :
  g_frame_buffer (received cfg now data g) = g_frame_buffer g.
Proof.
  unfold received.
  by rewrite mark_ddp_auto_frame_buffer, note_packet_frame_buffer.
Qed.

Lemma received_last_send cfg now data g :
  g_last_send (received cfg now data g) = g_last_send g.
Proof.
  unfold received. by rewrite mark_ddp_auto_last_send, note_packet_last_send.
Qed.

Lemma received_idle_cleared cfg now data g :
  g_idle_cleared (received cfg now data g) = false.
Proof. unfold received. by rewrite mark_ddp_auto_idle_cleared. Qed.

(** The dispatch on a "raw" group. *)
Lemma decode_packet_raw data fb :
  decode_packet "raw" data fb =
  Some (if len data mod 3 =? 0
        then (true, slice_assign fb 0 (Z.min (len fb) (len data))
                      (slice_to data (len fb)))
        else (false, fb)).
Proof.
  unfold decode_packet.
  destruct (DdpClassifier.looks_like_ddp_total data) as [b ->]. simpl.
  by destruct (_ =? 0).
Qed.

(** The dispatch on a group of the notification family. *)
Lemma decode_packet_auto protocol data fb :
  protocol = "wled" \/ protocol = "auto" ->
  decode_packet protocol data fb =
  match looks_like_ddp data with
  | Some true => parse_ddp data fb
  | _ => fb' ← parse_wled_or_raw data fb; Some (true, fb')
  end.
Proof.
  unfold decode_packet.
  destruct (DdpClassifier.looks_like_ddp_total data) as [b ->].
  intros [-> | ->]; destruct b; simpl; try reflexivity;
    by destruct (parse_ddp data fb) as [[push fb']|].
Qed.

Section Loop.

Context {S : Type} `{Sdk S}.

Variable attempt_reconnect : string -> Loop S -> Loop S.

Abbreviation handle_event := (handle_event attempt_reconnect).
Abbreviation apply_packet := (apply_packet attempt_reconnect).

(** How one datagram is handled, in terms of the decoder's verdict. *)
Lemma handle_event_unfold cfg now gid data st g :
  l_groups st !! gid = Some g ->
  handle_event cfg now gid (Some data) st =
  match decode_packet (g_protocol g) data (g_frame_buffer g) with
  | None => None
  | Some (emit, fb) =>
      let g' := set_frame_buffer (received cfg now data g) fb in
      if negb emit then Some (update_group st gid g')
      else if Lut.truthy (min_interval cfg)
              && (now - g_last_send g <? min_interval cfg)%float
      then Some (update_group st gid g')
      else Some (apply_packet cfg now gid g' st)
  end.
Proof.
  intros Hg. unfold handle_event. rewrite Hg.
  fold (received cfg now data g).
  rewrite received_protocol, received_frame_buffer.
  destruct (decode_packet _ _ _) as [[emit fb]|]; simpl; [|reflexivity].
  change (g_last_send (set_frame_buffer (received cfg now data g) fb))
    with (g_last_send (received cfg now data g)).
  by rewrite received_last_send.
Qed.

Lemma call_apply_log cfg origin gid g frame (st : Loop S) :
  l_log (call_apply cfg origin gid g frame st).2
  = l_log st ++ [EvApply origin gid frame (call_apply cfg origin gid g frame st).1].
Proof.
  unfold call_apply.
  by destruct (apply_frame_map _ _ _ _ _ _ _) as [[res m] w].
Qed.

Lemma call_apply_groups cfg origin gid g frame (st : Loop S) :
  l_groups (call_apply cfg origin gid g frame st).2 = l_groups st.
Proof.
  unfold call_apply.
  by destruct (apply_frame_map _ _ _ _ _ _ _) as [[res m] w].
Qed.


(** C3: on a group whose protocol is "raw", a datagram whose length is not
    a multiple of three is ignored: the loop records its arrival in the
    group and goes on to the next event; the group's frame buffer is the
    one it had, nothing is added to the record of [apply_frame_map] and
    [attempt_reconnect] calls, and mapper and SDK are as they were. *)
Theorem raw_packet_of_wrong_length_is_ignored cfg now gid data st g :
  l_groups st !! gid = Some g ->
  g_protocol g = "raw" ->
  len data mod 3 <> 0 ->
  let g' := note_packet cfg now data g in
  let st' := update_group st gid g' in
  handle_event cfg now gid (Some data) st = Some st' /\
  g_frame_buffer g' = g_frame_buffer g /\
  l_log st' = l_log st /\
  l_mapper st' = l_mapper st /\
  l_world st' = l_world st.
Proof.
  intros Hg Hraw Hlen g' st'.
  split; [|by rewrite <- (note_packet_frame_buffer cfg now data g)].
  rewrite (handle_event_unfold _ _ _ _ _ _ Hg), Hraw, decode_packet_raw.
  apply Z.eqb_neq in Hlen. rewrite Hlen. simpl.
  unfold received. rewrite mark_ddp_auto_not_wled;
    [|by rewrite note_packet_protocol, Hraw].
  subst st' g'. do 2 f_equal.
  unfold note_packet. by destruct (g_first_packet g), (debug_udp cfg), g.
Qed.

(** A reconnection leaves the group objects that exist alone: it builds
    new ones. *)
Hypothesis reconnect_keeps_groups : forall reason st gid g,
  l_groups st !! gid = Some g ->
  l_groups (attempt_reconnect reason st) !! gid = Some g.

(** The group after one of its datagrams has been handled: it has the
    protocol it had, the buffer the dispatch decoded, and its idle-cleared
    flag is reset. *)
Lemma handle_event_group cfg now gid data st g st' :
  l_groups st !! gid = Some g ->
  handle_event cfg now gid (Some data) st = Some st' ->
  exists emit fb g',
    decode_packet (g_protocol g) data (g_frame_buffer g) = Some (emit, fb) /\
    l_groups st' !! gid = Some g' /\
    g_protocol g' = g_protocol g /\
    g_frame_buffer g' = fb /\
    g_idle_cleared g' = false.
Proof.
  intros Hg. rewrite (handle_event_unfold _ _ _ _ _ _ Hg).
  destruct (decode_packet _ _ _) as [[emit fb]|]; simpl; [|done].
  set (g1 := set_frame_buffer (received cfg now data g) fb).
  assert (Hp : g_protocol g1 = g_protocol g) by apply received_protocol.
  assert (Hc : g_idle_cleared g1 = false) by apply received_idle_cleared.
  assert (Hup : exists g', l_groups (update_group st gid g1) !! gid = Some g'
                           /\ g_protocol g' = g_protocol g
                           /\ g_frame_buffer g' = fb
                           /\ g_idle_cleared g' = false).
  { exists g1. split; [apply lookup_insert_eq|done]. }
  intros Hrun. exists emit, fb.
  assert (Hgoal : exists g', l_groups st' !! gid = Some g'
                             /\ g_protocol g' = g_protocol g
                             /\ g_frame_buffer g' = fb
                             /\ g_idle_cleared g' = false);
    [|destruct Hgoal as (g' & ?); by exists g'].
  revert Hrun.
  destruct (negb emit); [by intros [= <-]|].
  destruct (_ && _); [by intros [= <-]|].
  intros [= <-]. unfold Runtime.apply_packet. cbv zeta.
  match goal with
  | |- context [call_apply ?c ?o ?i ?gg ?f ?s] =>
      pose proof (call_apply_groups c o i gg f s) as Hgr;
      destruct (call_apply c o i gg f s) as [res st2]
  end.
  simpl in Hgr.
  destruct res as [[|]|].
  - eexists. split; [apply lookup_insert_eq|done].
  - destruct (_ <=? _).
    + eexists. split; [|shelve]. simpl. apply reconnect_keeps_groups.
      apply lookup_insert_eq.
    + eexists. split; [apply lookup_insert_eq|done].
  - eexists. split; [|shelve]. simpl. apply reconnect_keeps_groups.
    rewrite Hgr. apply lookup_insert_eq.
  Unshelve. all: done.
Qed.

(** C9, as the code has it: the protocol of a group is the configured one
    for the whole session, and on a "wled" or "auto" group each datagram is
    tested by the DDP classifier on its own: one classified as DDP goes
    through the DDP decoder, any other through the notification and raw
    decoder, whatever was received before and whether or not the
    detection flag of the group is set. *)
Theorem ddp_detection_is_per_packet cfg now gid data st g st' :
  l_groups st !! gid = Some g ->
  g_protocol g = "wled" \/ g_protocol g = "auto" ->
  handle_event cfg now gid (Some data) st = Some st' ->
  exists emit fb g',
    (if bool_decide (looks_like_ddp data = Some true)
     then parse_ddp data (g_frame_buffer g) = Some (emit, fb)
     else parse_wled_or_raw data (g_frame_buffer g) = Some fb /\ emit = true) /\
    l_groups st' !! gid = Some g' /\
    g_protocol g' = g_protocol g /\
    g_frame_buffer g' = fb.
Proof.
  intros Hg Hp Hrun.
  destruct (handle_event_group _ _ _ _ _ _ _ Hg Hrun)
    as (emit & fb & g' & Hdec & Hg' & Hp' & Hfb & _).
  exists emit, fb, g'. split; [|done].
  rewrite (decode_packet_auto _ _ _ Hp) in Hdec.
  destruct (looks_like_ddp data) as [[|]|];
    [rewrite bool_decide_eq_true_2 by done; exact Hdec
    |rewrite bool_decide_eq_false_2 by done
    |rewrite bool_decide_eq_false_2 by done];
    destruct (parse_wled_or_raw data (g_frame_buffer g)) as [fb'|];
    simpl in Hdec; try done; by injection Hdec as <- <-.
Qed.

End Loop.

(** *** The theorems on the sample installation *)

Lemma raw_packet_of_wrong_length_is_ignored_witness :
  let data := bytes [1; 2; 3; 4]%N in
  let g := sample_group "raw" sample_map ["kbd"; "fan"] in
  let st' := update_group raw_loop 0 (note_packet sample_cfg 101 data g) in
  Runtime.handle_event reconnect_in_cooldown sample_cfg 101 0 (Some data) raw_loop
    = Some st' /\
  l_log st' = [].
Proof.
  intros data g st'.
  destruct (raw_packet_of_wrong_length_is_ignored reconnect_in_cooldown
              sample_cfg 101 0%nat data raw_loop g)
    as (Hrun & _ & Hlog & _); [reflexivity|reflexivity|vm_compute; congruence|].
  split; [exact Hrun|exact Hlog].
Defined.

Lemma ddp_detection_is_per_packet_witness :
  exists emit fb,
    parse_wled_or_raw drgb_datagram (zeros 9) = Some fb /\ emit = true.
Proof.
  destruct (Runtime.handle_event reconnect_in_cooldown sample_cfg 101 0
              (Some drgb_datagram) wled_loop) as [st'|] eqn:E;
    [|vm_compute in E; discriminate].
  destruct (ddp_detection_is_per_packet reconnect_in_cooldown
              ltac:(done) sample_cfg 101
              0%nat drgb_datagram wled_loop
              (sample_group "wled" sample_map ["kbd"; "fan"]) st')
    as (emit & fb & g' & Hwhich & _); [reflexivity|by left|exact E|].
  exists emit, fb. exact Hwhich.
Defined.

(** On a "wled" group, a DDP datagram at time 101 and a datagram of
    sub-protocol 2 at time 102.  The first is classified as DDP and sets
    the detection flag; the protocol stays "wled", and the second is
    decoded by the notification decoder, which writes the pixel 7 8 9 and
    clears the rest, where the DDP decoder would have left the buffer as it
    was. *)
Lemma later_packet_not_decoded_as_ddp :
  let run1 := Runtime.handle_event reconnect_in_cooldown sample_cfg 101 0
                (Some ddp_datagram) wled_loop in
  let run2 := st ← run1;
              Runtime.handle_event reconnect_in_cooldown sample_cfg 102 0
                (Some drgb_datagram) st in
  let fb1 := bytes [1; 2; 3; 0; 0; 0; 0; 0; 0]%N in
  let fb2 := bytes [7; 8; 9; 0; 0; 0; 0; 0; 0]%N in
  looks_like_ddp ddp_datagram = Some true /\
  g_frame_buffer <$> group_after run1 0 = Some fb1 /\
  g_ddp_auto <$> group_after run1 0 = Some true /\
  g_protocol <$> group_after run1 0 = Some "wled" /\
  g_frame_buffer <$> group_after run2 0 = Some fb2 /\
  g_protocol <$> group_after run2 0 = Some "wled" /\
  parse_wled_or_raw drgb_datagram fb1 = Some fb2 /\
  parse_ddp drgb_datagram fb1 = Some (false, fb1) /\
  fb2 <> fb1.
Proof. vm_compute. repeat split; congruence. Qed.

End PacketLoop.

(* --------------------------------------------------------------------- *)
(** ** Idle clear *)
(* --------------------------------------------------------------------- *)

Module IdleClear.
Import Py PyFacts Mapper Decoders Runtime Notions Samples PacketLoop.

Lemma idle_clears_app gid evs1 evs2 :
  idle_clears gid (evs1 ++ evs2) = idle_clears gid evs1 ++ idle_clears gid evs2.
Proof. apply List.filter_app. Qed.

(** Assigning a slice that is the whole buffer. *)
Lemma slice_assign_all {A} (l src : list A) :
  slice_assign l 0 (len l) src = src.
Proof.
  unfold slice_assign.
  rewrite (clip_inside (len l) 0) by (pose proof (len_nonneg l); lia).
  rewrite (clip_inside (len l) (len l)) by (pose proof (len_nonneg l); lia).
  simpl. unfold len. rewrite Nat2Z.id, drop_all. apply app_nil_r.
Qed.

Section Loop.

Context {S : Type} `{Sdk S}.

Variable attempt_reconnect : string -> Loop S -> Loop S.
Variable request_control : World S -> World S.
Variable is_icue_connected : World S -> bool * World S.

Lemma no_idle_clear_refl gid (st : Loop S) : no_idle_clear gid st st.
Proof. exists []. split; [by rewrite app_nil_r|done]. Qed.

Lemma no_idle_clear_trans gid (st1 st2 st3 : Loop S) :
  no_idle_clear gid st1 st2 -> no_idle_clear gid st2 st3 ->
  no_idle_clear gid st1 st3.
Proof.
  intros (evs1 & L1 & F1) (evs2 & L2 & F2). exists (evs1 ++ evs2). split.
  - by rewrite L2, L1, app_assoc.
  - by rewrite idle_clears_app, F1, F2.
Qed.

Lemma untouched_refl gid (st : Loop S) : untouched gid st st.
Proof. split; [done|apply no_idle_clear_refl]. Qed.

Lemma untouched_trans gid (st1 st2 st3 : Loop S) :
  untouched gid st1 st2 -> untouched gid st2 st3 -> untouched gid st1 st3.
Proof.
  intros [G1 N1] [G2 N2]. split; [congruence|].
  eapply no_idle_clear_trans; eassumption.
Qed.

Lemma untouched_update_group gid gid' g (st : Loop S) :
  gid' <> gid -> untouched gid st (update_group st gid' g).
Proof.
  intros Hne. split.
  - simpl. by apply lookup_insert_ne.
  - exists []. split; [simpl; by rewrite app_nil_r|done].
Qed.

Lemma untouched_call_apply cfg origin gid gid' g frame st :
  (origin = ByIdleClear -> gid' <> gid) ->
  untouched gid st (call_apply cfg origin gid' g frame st).2.
Proof.
  intros Hne. unfold call_apply.
  destruct (apply_frame_map _ _ _ _ _ _ _) as [[res m] w]. simpl.
  split; [done|]. eexists. split; [reflexivity|].
  simpl. destruct origin; try done.
  destruct (Nat.eqb_spec gid' gid) as [->|]; [|done]. by destruct Hne.
Qed.

(** The idle-clear pass over another group. *)
Lemma idle_clear_group_other cfg now gid gid' st :
  gid' <> gid -> untouched gid st (idle_clear_group cfg now gid' st).
Proof.
  intros Hne. unfold idle_clear_group.
  destruct (l_groups st !! gid') as [g|]; [|apply untouched_refl].
  destruct (g_idle_clear_disabled g); [apply untouched_refl|].
  destruct (negb _); [apply untouched_refl|].
  destruct (_ <? _)%float; [apply untouched_refl|].
  destruct (g_idle_cleared g); [apply untouched_refl|].
  cbv zeta.
  match goal with
  | |- context [call_apply ?c ?o ?i ?gg ?f ?s] =>
      pose proof (untouched_call_apply c o gid i gg f s (fun _ => Hne)) as Hc;
      destruct (call_apply c o i gg f s) as [res st2]
  end.
  simpl in Hc.
  assert (Hu : untouched gid st st2).
  { eapply untouched_trans; [|exact Hc]. by apply untouched_update_group. }
  destruct res as [[|]|]; try exact Hu.
  eapply untouched_trans; [exact Hu|]. by apply untouched_update_group.
Qed.

Lemma idle_clear_groups_other cfg now gid gids : forall st,
  gid ∉ gids ->
  untouched gid st
    (fold_left (fun st gid' => idle_clear_group cfg now gid' st) gids st).
Proof.
  induction gids as [|gid' gids IH]; intros st Hnotin; simpl.
  - apply untouched_refl.
  - apply not_elem_of_cons in Hnotin as [Hne Hnotin].
    eapply untouched_trans; [|by apply IH].
    by apply idle_clear_group_other.
Qed.

(** The idle-clear pass over a group whose flag is set does nothing. *)
Lemma idle_clear_group_skip cfg now gid g st :
  l_groups st !! gid = Some g -> g_idle_cleared g = true ->
  idle_clear_group cfg now gid st = st.
Proof.
  intros Hg Hflag. unfold idle_clear_group. rewrite Hg, Hflag.
  destruct (g_idle_clear_disabled g); [done|].
  destruct (negb _); [done|]. by destruct (_ <? _)%float.
Qed.

(** The idle-clear pass over a group that is due. *)
Lemma idle_clear_group_fires cfg now gid g st :
  l_groups st !! gid = Some g ->
  g_idle_clear_disabled g = false ->
  Lut.truthy (g_last_packet_ts g) = true ->
  (now - g_last_packet_ts g <? group_clear_after cfg g)%float = false ->
  g_idle_cleared g = false ->
  exists res,
    l_log (idle_clear_group cfg now gid st)
    = l_log st ++ [EvApply ByIdleClear gid (zeros (len (g_frame_buffer g))) res]
    /\ l_groups (idle_clear_group cfg now gid st) !! gid
       = Some (cleared now g res).
Proof.
  intros Hg Hdis Hpkt Hidle Hflag. unfold idle_clear_group.
  rewrite Hg, Hdis, Hpkt, Hidle, Hflag. cbv zeta. simpl negb. cbv iota.
  rewrite slice_assign_all.
  match goal with
  | |- context [call_apply ?c ?o ?i ?gg ?f ?s] =>
      pose proof (call_apply_log c o i gg f s) as Hlog;
      pose proof (call_apply_groups c o i gg f s) as Hgr;
      destruct (call_apply c o i gg f s) as [res st2]
  end.
  simpl in Hlog, Hgr. exists res. unfold cleared.
  destruct res as [[|]|]; simpl.
  - split; [exact Hlog|]. apply lookup_insert_eq.
  - split; [exact Hlog|]. rewrite Hgr. simpl. apply lookup_insert_eq.
  - split; [exact Hlog|]. rewrite Hgr. simpl. apply lookup_insert_eq.
Qed.

(** The idle-clear block of one iteration, for a group that is due: the
    cleared frame is applied to it once. *)
Lemma idle_clear_block_fires cfg now gid g st :
  unique_idle_clear_enabled cfg = true ->
  NoDup (l_runtime_groups st) ->
  gid ∈ l_runtime_groups st ->
  l_groups st !! gid = Some g ->
  g_idle_clear_disabled g = false ->
  Lut.truthy (g_last_packet_ts g) = true ->
  (now - g_last_packet_ts g <? group_clear_after cfg g)%float = false ->
  g_idle_cleared g = false ->
  exists res evs,
    l_log (idle_clear_block cfg now true st) = l_log st ++ evs /\
    idle_clears gid evs
    = [EvApply ByIdleClear gid (zeros (len (g_frame_buffer g))) res] /\
    l_groups (idle_clear_block cfg now true st) !! gid = Some (cleared now g res).
Proof.
  intros Hen Hnd Hin Hg Hdis Hpkt Hidle Hflag.
  unfold idle_clear_block. rewrite Hen. simpl.
  apply list_elem_of_split in Hin as (l1 & l2 & Hl). rewrite Hl in *.
  apply NoDup_app in Hnd as (_ & Hl1 & Hnd).
  apply NoDup_cons in Hnd as [Hl2 _].
  assert (Hn1 : gid ∉ l1).
  { intros Hin1. apply (Hl1 gid Hin1). by left. }
  rewrite fold_left_app. simpl.
  destruct (idle_clear_groups_other cfg now gid l1 st Hn1)
    as [G1 (evs1 & L1 & F1)].
  set (st1 := fold_left _ l1 st) in *.
  rewrite Hg in G1.
  destruct (idle_clear_group_fires cfg now gid g st1 G1 Hdis Hpkt Hidle Hflag)
    as (res & L2 & G2).
  set (st2 := idle_clear_group cfg now gid st1) in *.
  destruct (idle_clear_groups_other cfg now gid l2 st2 Hl2)
    as [G3 (evs3 & L3 & F3)].
  exists res, (evs1 ++ [EvApply ByIdleClear gid
                          (zeros (len (g_frame_buffer g))) res] ++ evs3).
  split; [|split].
  - rewrite L3, L2, L1. by rewrite <- !app_assoc.
  - rewrite !idle_clears_app, F1, F3. simpl. by rewrite Nat.eqb_refl.
  - by rewrite G3.
Qed.

(** *** While the flag is set *)

(** A reconnection leaves the group objects that exist alone: it builds
    new ones. *)
Hypothesis reconnect_keeps_groups : forall reason st gid g,
  l_groups st !! gid = Some g ->
  l_groups (attempt_reconnect reason st) !! gid = Some g.

Lemma flag_of_lookup gid (st : Loop S) g :
  flag_set gid st -> l_groups st !! gid = Some g -> g_idle_cleared g = true.
Proof. intros (g0 & Hg0 & Hf) Hg. congruence. Qed.

Lemma quiet_refl gid (st : Loop S) : flag_set gid st -> quiet gid st st.
Proof. intros Hf. split; [done|apply no_idle_clear_refl]. Qed.

Lemma quiet_trans gid (st1 st2 st3 : Loop S) :
  quiet gid st1 st2 -> quiet gid st2 st3 -> quiet gid st1 st3.
Proof.
  intros [_ N1] [F2 N2]. split; [done|].
  eapply no_idle_clear_trans; eassumption.
Qed.

Lemma quiet_untouched gid (st st' : Loop S) :
  flag_set gid st -> untouched gid st st' -> quiet gid st st'.
Proof.
  intros (g & Hg & Hf) [G N]. split; [|done]. exists g. by rewrite G.
Qed.

(** A step that changes neither the groups nor the record of events. *)
Lemma quiet_same gid (st st' : Loop S) :
  flag_set gid st -> l_groups st' = l_groups st -> l_log st' = l_log st ->
  quiet gid st st'.
Proof.
  intros Hf G L. apply quiet_untouched; [done|]. split; [by rewrite G|].
  exists []. by rewrite L, app_nil_r.
Qed.

Lemma quiet_update_group gid gid' g' (st : Loop S) :
  flag_set gid st -> (gid' = gid -> g_idle_cleared g' = true) ->
  quiet gid st (update_group st gid' g').
Proof.
  intros Hf Hg'. destruct (decide (gid' = gid)) as [->|Hne].
  - split.
    + exists g'. split; [apply lookup_insert_eq|by apply Hg'].
    + exists []. split; [simpl; by rewrite app_nil_r|done].
  - apply quiet_untouched; [done|]. by apply untouched_update_group.
Qed.

Lemma quiet_reconnect gid reason st :
  flag_set gid st -> quiet gid st (do_reconnect attempt_reconnect reason st).
Proof.
  intros (g & Hg & Hf). split.
  - exists g. split; [|done]. simpl. by apply reconnect_keeps_groups.
  - eexists. split; [reflexivity|done].
Qed.

Lemma quiet_request_control gid st :
  flag_set gid st -> quiet gid st (do_request_control request_control st).
Proof.
  intros Hf. apply quiet_untouched; [done|]. split; [done|].
  eexists. split; [reflexivity|done].
Qed.

Lemma quiet_call_apply cfg origin gid gid' g frame st :
  flag_set gid st -> (origin = ByIdleClear -> gid' <> gid) ->
  quiet gid st (call_apply cfg origin gid' g frame st).2.
Proof.
  intros Hf Hne. apply quiet_untouched; [done|].
  by apply untouched_call_apply.
Qed.

Lemma fold_left_quiet {A} gid (f : Loop S -> A -> Loop S) (l : list A) :
  (forall st x, flag_set gid st -> quiet gid st (f st x)) ->
  forall st, flag_set gid st -> quiet gid st (fold_left f l st).
Proof.
  intros Hf. induction l as [|x l IH]; intros st Hst; simpl.
  - by apply quiet_refl.
  - pose proof (Hf st x Hst) as Hq.
    eapply quiet_trans; [exact Hq|]. apply IH. apply Hq.
Qed.

Lemma request_control_block_quiet cfg now gid st :
  flag_set gid st ->
  quiet gid st (request_control_block request_control cfg now st).
Proof.
  intros Hf. unfold request_control_block.
  destruct (_ && _); [|by apply quiet_refl].
  pose proof (quiet_request_control gid st Hf) as Hq.
  eapply quiet_trans; [exact Hq|]. apply quiet_same; [apply Hq|done|done].
Qed.

Lemma keepalive_due_quiet cfg now gid gids : forall st : Loop S,
  flag_set gid st -> quiet gid st (keepalive_due cfg now gids st).1.
Proof.
  induction gids as [|gid' gids IH]; intros st Hf; simpl.
  - by apply quiet_refl.
  - destruct (l_groups st !! gid') as [g|] eqn:Hg; [|by apply IH].
    destruct (_ <? _)%float; [by apply IH|].
    cbv zeta.
    assert (Hq : quiet gid st (update_group st gid' (set_last_keepalive g now))).
    { apply quiet_update_group; [done|]. intros ->.
      exact (flag_of_lookup _ _ _ Hf Hg). }
    pose proof (IH _ (proj1 Hq)) as Hrest.
    destruct (keepalive_due cfg now gids _) as [st' dues]. simpl in *.
    exact (quiet_trans _ _ _ _ Hq Hrest).
Qed.

Lemma keepalive_apply_quiet cfg active gid gid' st :
  flag_set gid st ->
  quiet gid st (keepalive_apply attempt_reconnect cfg active gid' st).
Proof.
  intros Hf. unfold keepalive_apply.
  destruct (l_groups st !! gid') as [g|] eqn:Hg; [|by apply quiet_refl].
  pose proof (quiet_call_apply cfg ByKeepalive gid gid' g (g_frame_buffer g)
                st Hf ltac:(done)) as Hc.
  pose proof (call_apply_groups cfg ByKeepalive gid' g (g_frame_buffer g) st)
    as Hgr.
  destruct (call_apply cfg ByKeepalive gid' g (g_frame_buffer g) st)
    as [res st1].
  simpl in Hc, Hgr.
  assert (Hflag : gid' = gid -> g_idle_cleared g = true).
  { intros ->. exact (flag_of_lookup _ _ _ Hf Hg). }
  destruct res as [[|]|]; [exact Hc| |].
  - destruct (_ <=? _).
    + assert (Hu : quiet gid st
                (update_group st1 gid'
                   (set_fail_count (set_fail_count g (g_fail_count g + 1)) 0))).
      { eapply quiet_trans; [exact Hc|].
        apply quiet_update_group; [apply Hc|exact Hflag]. }
      destruct (_ && _); [exact Hu|].
      eapply quiet_trans; [exact Hu|]. apply quiet_reconnect. apply Hu.
    + eapply quiet_trans; [exact Hc|].
      apply quiet_update_group; [apply Hc|exact Hflag].
  - destruct (_ && _); [exact Hc|].
    eapply quiet_trans; [exact Hc|]. apply quiet_reconnect. apply Hc.
Qed.

Lemma keepalive_block_quiet cfg now active gid st :
  flag_set gid st ->
  quiet gid st
    (keepalive_block attempt_reconnect request_control cfg now active st).
Proof.
  intros Hf. unfold keepalive_block.
  destruct (keepalive_enabled cfg); [|by apply quiet_refl].
  pose proof (keepalive_due_quiet cfg now gid (l_runtime_groups st) st Hf)
    as Hdue.
  destruct (keepalive_due cfg now (l_runtime_groups st) st) as [st1 dues].
  simpl in Hdue.
  set (st2 := match dues with
              | [] => st1
              | _ :: _ => if keepalive_request_always cfg
                          then do_request_control request_control st1
                          else st1
              end).
  assert (H2 : quiet gid st st2).
  { subst st2. destruct dues; [exact Hdue|].
    destruct (keepalive_request_always cfg); [|exact Hdue].
    eapply quiet_trans; [exact Hdue|]. apply quiet_request_control.
    apply Hdue. }
  destruct (keepalive_reapply cfg); [|exact H2].
  eapply quiet_trans; [exact H2|].
  apply fold_left_quiet; [|apply H2].
  intros st' due Hst'. by apply keepalive_apply_quiet.
Qed.

Lemma idle_clear_group_quiet cfg now gid gid' (st : Loop S) :
  flag_set gid st -> quiet gid st (idle_clear_group cfg now gid' st).
Proof.
  intros Hf. destruct (decide (gid' = gid)) as [->|Hne].
  - destruct Hf as (g & Hg & Hflag).
    rewrite (idle_clear_group_skip cfg now gid g st Hg Hflag).
    apply quiet_refl. by exists g.
  - apply quiet_untouched; [done|]. by apply idle_clear_group_other.
Qed.

Lemma idle_clear_block_quiet cfg now active gid (st : Loop S) :
  flag_set gid st -> quiet gid st (idle_clear_block cfg now active st).
Proof.
  intros Hf. unfold idle_clear_block.
  destruct (_ && _); [|by apply quiet_refl].
  apply fold_left_quiet; [|done].
  intros st' gid' Hst'. by apply idle_clear_group_quiet.
Qed.

Lemma watchdog_block_quiet cfg now gid st :
  flag_set gid st ->
  quiet gid st (watchdog_block attempt_reconnect is_icue_connected cfg now st).
Proof.
  intros Hf. unfold watchdog_block.
  destruct (_ && _); [|by apply quiet_refl]. cbv zeta.
  destruct (_ && _); [by apply quiet_same|].
  destruct (_ && _); [by apply quiet_same|].
  destruct (is_icue_connected _) as [connected w].
  destruct connected; simpl; [by apply quiet_same|].
  destruct (_ <=? _); [|by apply quiet_same].
  match goal with
  | |- quiet _ _ (do_reconnect _ _ ?X) =>
      assert (Hx : quiet gid st X) by (by apply quiet_same);
      eapply quiet_trans; [exact Hx|]; apply quiet_reconnect; apply Hx
  end.
Qed.

Lemma debug_stats_block_quiet cfg now gid (st : Loop S) :
  flag_set gid st -> quiet gid st (debug_stats_block cfg now st).
Proof.
  intros Hf. unfold debug_stats_block.
  destruct (debug_udp cfg); [|by apply quiet_refl].
  apply fold_left_quiet; [|done].
  intros st' gid' Hst'.
  destruct (l_groups st' !! gid') as [g|] eqn:Hg; [|by apply quiet_refl].
  destruct (_ <=? _)%float; [|by apply quiet_refl].
  apply quiet_update_group; [done|]. intros ->.
  exact (flag_of_lookup _ _ _ Hst' Hg).
Qed.

(** A packet for another group. *)
Lemma apply_packet_quiet cfg now gid gid' g st :
  gid' <> gid -> flag_set gid st ->
  quiet gid st (apply_packet attempt_reconnect cfg now gid' g st).
Proof.
  intros Hne Hf. unfold apply_packet. cbv zeta.
  assert (H1 : quiet gid st (update_group st gid' (set_last_send g now))).
  { by apply quiet_update_group. }
  match goal with
  | |- context [call_apply ?c ?o ?i ?gg ?f ?s] =>
      pose proof (quiet_call_apply c o gid i gg f s (proj1 H1) ltac:(done))
        as Hc;
      destruct (call_apply c o i gg f s) as [res st2]
  end.
  simpl in Hc.
  assert (H2 : quiet gid st st2) by exact (quiet_trans _ _ _ _ H1 Hc).
  assert (Hup : forall g', quiet gid st (update_group st2 gid' g')).
  { intros g'. eapply quiet_trans; [exact H2|].
    apply quiet_update_group; [apply H2|done]. }
  destruct res as [[|]|]; [apply Hup| |].
  - destruct (_ <=? _); [|apply Hup].
    eapply quiet_trans; [apply Hup|]. apply quiet_reconnect. apply Hup.
  - eapply quiet_trans; [exact H2|]. apply quiet_reconnect. apply H2.
Qed.

Lemma handle_event_quiet cfg now gid gid' recv st st' :
  gid' <> gid -> flag_set gid st ->
  Runtime.handle_event attempt_reconnect cfg now gid' recv st = Some st' ->
  quiet gid st st'.
Proof.
  intros Hne Hf. unfold Runtime.handle_event.
  destruct recv as [data|]; [|intros [= <-]; by apply quiet_refl].
  destruct (l_groups st !! gid') as [g|]; [|intros [= <-]; by apply quiet_refl].
  destruct (decode_packet _ _ _) as [[emit fb]|]; simpl; [|done].
  destruct (negb emit).
  { intros [= <-]. by apply quiet_update_group. }
  destruct (_ && _).
  { intros [= <-]. by apply quiet_update_group. }
  intros [= <-]. by apply apply_packet_quiet.
Qed.

Lemma handle_events_quiet cfg now gid events : forall st st',
  Forall (fun ev => ev.1 <> gid) events -> flag_set gid st ->
  handle_events attempt_reconnect cfg now events st = Some st' ->
  quiet gid st st'.
Proof.
  induction events as [|[gid' recv] events IH]; intros st st' Hev Hf; simpl.
  - intros [= <-]. by apply quiet_refl.
  - apply Forall_cons in Hev as [Hne Hev]. simpl in Hne.
    destruct (Runtime.handle_event attempt_reconnect cfg now gid' recv st)
      as [st1|] eqn:E; simpl; [|done].
    intros Hrest.
    pose proof (handle_event_quiet _ _ _ _ _ _ _ Hne Hf E) as H1.
    eapply quiet_trans; [exact H1|]. eapply IH; [done|apply H1|done].
Qed.

Lemma loop_iteration_quiet cfg now gid events st st' :
  Forall (fun ev => ev.1 <> gid) events -> flag_set gid st ->
  loop_iteration attempt_reconnect request_control is_icue_connected
    cfg now events st = Some st' ->
  quiet gid st st'.
Proof.
  intros Hev Hf. unfold loop_iteration. cbv zeta.
  pose proof (request_control_block_quiet cfg now gid st Hf) as H1.
  set (st1 := request_control_block request_control cfg now st) in *.
  set (active := any_active_recent cfg now st1).
  pose proof (keepalive_block_quiet cfg now active gid st1 (proj1 H1)) as H2.
  set (st2 := keepalive_block _ _ cfg now active st1) in *.
  pose proof (idle_clear_block_quiet cfg now active gid st2 (proj1 H2)) as H3.
  set (st3 := idle_clear_block cfg now active st2) in *.
  pose proof (watchdog_block_quiet cfg now gid st3 (proj1 H3)) as H4.
  set (st4 := watchdog_block _ _ cfg now st3) in *.
  pose proof (debug_stats_block_quiet cfg now gid st4 (proj1 H4)) as H5.
  set (st5 := debug_stats_block cfg now st4) in *.
  intros Hrun.
  pose proof (handle_events_quiet _ _ _ _ _ _ Hev (proj1 H5) Hrun) as H6.
  exact (quiet_trans _ _ _ _ H1 (quiet_trans _ _ _ _ H2 (quiet_trans _ _ _ _ H3
           (quiet_trans _ _ _ _ H4 (quiet_trans _ _ _ _ H5 H6))))).
Qed.

Lemma run_iterations_quiet cfg gid iterations : forall st st',
  Forall (fun it => Forall (fun ev => ev.1 <> gid) it.2) iterations ->
  flag_set gid st ->
  run_iterations attempt_reconnect request_control is_icue_connected
    cfg iterations st = Some st' ->
  quiet gid st st'.
Proof.
  induction iterations as [|[now events] its IH]; intros st st' Hits Hf; simpl.
  - intros [= <-]. by apply quiet_refl.
  - apply Forall_cons in Hits as [Hev Hits]. simpl in Hev.
    destruct (loop_iteration _ _ _ cfg now events st) as [st1|] eqn:E;
      simpl; [|done].
    intros Hrest.
    pose proof (loop_iteration_quiet _ _ _ _ _ _ Hev Hf E) as H1.
    eapply quiet_trans; [exact H1|]. eapply IH; [done|apply H1|done].
Qed.

(** A packet for the group resets its flag. *)
Lemma packet_resets_flag cfg now gid data st g st' :
  l_groups st !! gid = Some g ->
  Runtime.handle_event attempt_reconnect cfg now gid (Some data) st = Some st' ->
  exists g', l_groups st' !! gid = Some g' /\ g_idle_cleared g' = false.
Proof.
  intros Hg Hrun.
  destruct (handle_event_group attempt_reconnect reconnect_keeps_groups
              _ _ _ _ _ _ _ Hg Hrun)
    as (emit & fb & g' & _ & Hg' & _ & _ & Hflag).
  by exists g'.
Qed.

(** C8, as the code has it.  In an iteration whose idle-clear block runs
    (idle clear enabled, some group active within its keepalive interval),
    a group that is not exempt, has received a packet, has been idle for
    its idle-clear delay and does not have its idle-cleared flag set gets
    its frame buffer zeroed and [apply_frame_map] called on it exactly
    once; the flag is set when, and only when, that call reports success.
    While the flag is set and no packet arrives for the group, no number of
    iterations clears it again.  A packet for the group resets the flag. *)
Theorem idle_clear_once_until_next_packet :
  (forall cfg now gid g st,
     unique_idle_clear_enabled cfg = true ->
     NoDup (l_runtime_groups st) ->
     gid ∈ l_runtime_groups st ->
     l_groups st !! gid = Some g ->
     g_idle_clear_disabled g = false ->
     Lut.truthy (g_last_packet_ts g) = true ->
     (now - g_last_packet_ts g <? group_clear_after cfg g)%float = false ->
     g_idle_cleared g = false ->
     let st' := idle_clear_block cfg now true st in
     let zero := zeros (len (g_frame_buffer g)) in
     exists res evs g',
       l_log st' = l_log st ++ evs /\
       idle_clears gid evs = [EvApply ByIdleClear gid zero res] /\
       l_groups st' !! gid = Some g' /\
       g_frame_buffer g' = zero /\
       (g_idle_cleared g' = true <-> res = Returned true)) /\
  (forall cfg gid iterations st st',
     Forall (fun it => Forall (fun ev => ev.1 <> gid) it.2) iterations ->
     flag_set gid st ->
     run_iterations attempt_reconnect request_control is_icue_connected
       cfg iterations st = Some st' ->
     flag_set gid st' /\
     exists evs, l_log st' = l_log st ++ evs /\ idle_clears gid evs = []) /\
  (forall cfg now gid data st g st',
     l_groups st !! gid = Some g ->
     Runtime.handle_event attempt_reconnect cfg now gid (Some data) st
       = Some st' ->
     exists g', l_groups st' !! gid = Some g' /\ g_idle_cleared g' = false).
Proof.
  split; [|split].
  - intros cfg now gid g st Hen Hnd Hin Hg Hdis Hpkt Hidle Hflag st' zero.
    destruct (idle_clear_block_fires cfg now gid g st Hen Hnd Hin Hg Hdis
                Hpkt Hidle Hflag) as (res & evs & Hlog & Hclears & Hgr).
    exists res, evs, (cleared now g res).
    repeat split; try done.
    + unfold cleared. by destruct res as [[|]|].
    + unfold cleared. destruct res as [[|]|]; simpl; congruence.
    + intros ->. reflexivity.
  - intros cfg gid iterations st st' Hits Hf Hrun.
    exact (run_iterations_quiet cfg gid iterations st st' Hits Hf Hrun).
  - intros cfg now gid data st g st' Hg Hrun.
    exact (packet_resets_flag cfg now gid data st g st' Hg Hrun).
Qed.

End Loop.

(** *** On the sample installation *)

Lemma idle_clear_once_until_next_packet_witness :
  (exists res evs,
     l_log (idle_clear_block sample_cfg 103 true loop_after_packet)
     = l_log loop_after_packet ++ evs /\
     idle_clears 0 evs = [EvApply ByIdleClear 0 (zeros 9) res]) /\
  (forall st', iterate [(103.5%float, []); (104%float, [])]
                 (idle_clear_block sample_cfg 103 true loop_after_packet)
               = Some st' ->
               exists evs,
                 l_log st'
                 = l_log (idle_clear_block sample_cfg 103 true loop_after_packet)
                   ++ evs /\
                 idle_clears 0 evs = []).
Proof.
  assert (Hkeep : forall reason (st : Loop (list (device_id * list Color)))
                         gid g,
            l_groups st !! gid = Some g ->
            l_groups (reconnect_in_cooldown reason st) !! gid = Some g)
    by done.
  destruct (idle_clear_once_until_next_packet reconnect_in_cooldown
              request_control_ok connected Hkeep) as (Hfire & Hquiet & _).
  split.
  - destruct (Hfire sample_cfg 103%float 0%nat
                (default (sample_group "raw" sample_map ["kbd"; "fan"])
                   (l_groups loop_after_packet !! 0%nat))
                loop_after_packet)
      as (res & evs & g' & Hlog & Hclears & _).
    + reflexivity.
    + apply NoDup_singleton.
    + apply list_elem_of_singleton. reflexivity.
    + vm_compute. reflexivity.
    + vm_compute. reflexivity.
    + vm_compute. reflexivity.
    + vm_compute. reflexivity.
    + vm_compute. reflexivity.
    + exists res, evs. split; [exact Hlog|].
      rewrite Hclears. vm_compute. reflexivity.
  - intros st' Hrun.
    eapply (Hquiet sample_cfg 0%nat _ _ st'); [|..|exact Hrun].
    + repeat constructor.
    + eexists. split; [vm_compute; reflexivity|reflexivity].
Defined.

(** A group whose only device refuses every write.  A packet arrives in
    the iteration at time 101 and none after it: the iterations at 103 and
    at 103.5 both zero the buffer and call [apply_frame_map], and the flag
    is still not set. *)
Lemma idle_clear_repeats_after_failed_apply :
  let fan_map := [mkEntry "fan" (OneLed 0) None None;
                  mkEntry "fan" (OneLed 1) None None;
                  mkEntry "fan" (OneLed 2) None None] in
  let st0 := sample_loop (sample_group "raw" fan_map ["fan"]) in
  let run := iterate [(101%float, [(0%nat, Some six_bytes)]);
                      (103%float, []); (103.5%float, [])] st0 in
  idle_clears 0 <$> (l_log <$> run)
    = Some [EvApply ByIdleClear 0 (zeros 9) (Returned false);
            EvApply ByIdleClear 0 (zeros 9) (Returned false)] /\
  g_idle_cleared <$> group_after run 0 = Some false.
Proof. vm_compute. split; reflexivity. Qed.

End IdleClear.

(* --------------------------------------------------------------------- *)
(** ** What the decoders write *)
(* --------------------------------------------------------------------- *)

Module DecoderFacts.
Import Py PyFacts Decoders Notions DecoderNotions DecoderSafety.

(** Reading a list after a slice assignment that fits. *)
Lemma lookup_slice_assign_fit {A} (l src : list A) lo hi (j : nat) :
  0 <= lo <= hi -> hi <= len l -> length src = Z.to_nat (hi - lo) ->
  slice_assign l lo hi src !! j
  = if (Z.of_nat j <? lo) then l !! j
    else if (Z.of_nat j <? hi) then src !! (j - Z.to_nat lo)%nat
    else l !! j.
Proof.
  intros Hlo Hhi Hsrc. unfold slice_assign.
  rewrite (clip_inside (len l) lo), (clip_inside (len l) hi) by lia.
  unfold len in Hhi.
  destruct (Z.ltb_spec (Z.of_nat j) lo).
  { rewrite lookup_app_l by (rewrite length_take; lia).
    apply lookup_take_lt. lia. }
  rewrite lookup_app_r by (rewrite length_take; lia).
  rewrite length_take.
  replace (j - Nat.min (Z.to_nat lo) (length l))%nat with (j - Z.to_nat lo)%nat by lia.
  destruct (Z.ltb_spec (Z.of_nat j) hi).
  { apply lookup_app_l. lia. }
  rewrite lookup_app_r by lia.
  rewrite lookup_drop. f_equal. lia.
Qed.

Lemma slice_to_take {A} (l : list A) k :
  0 <= k -> slice_to l k = take (Z.to_nat k) l.
Proof.
  intros Hk. unfold slice_to, slice.
  rewrite (clip_inside (len l) 0) by (pose proof (len_nonneg l); lia).
  rewrite drop_0, Nat.sub_0_r.
  unfold clip. pose proof (len_nonneg l).
  repeat case_ltb; try lia; try done.
  rewrite take_ge by (unfold len in *; lia).
  rewrite take_ge by (unfold len in *; lia). done.
Qed.

Lemma slice_from_drop {A} (l : list A) k :
  0 <= k -> slice_from l k = drop (Z.to_nat k) l.
Proof.
  intros Hk. unfold slice_from, slice.
  pose proof (len_nonneg l).
  rewrite (clip_above (len l) (len l)) by lia.
  unfold clip. unfold len in *.
  repeat case_ltb; try lia.
  - rewrite Nat2Z.id, Nat.sub_diag. rewrite !drop_ge by lia. done.
  - apply take_ge. rewrite length_drop. lia.
Qed.

Lemma ddp_offset_nonneg data : 0 <= ddp_offset data.
Proof. apply int_from_bytes_big_nonneg. Qed.

(** [parse_ddp], by the bytes of the buffer it returns. *)
Lemma parse_ddp_lookup b0 rest fb :
  let data := b0 :: rest in
  exists fb',
    parse_ddp data fb = Some (ddp_push b0, fb') /\
    length fb' = length fb /\
    forall j : nat, (j < length fb)%nat ->
      fb' !! j =
      if (ddp_offset data <=? Z.of_nat j)
         && (Z.of_nat j <? ddp_offset data + len (ddp_payload data))
      then ddp_payload data !! (j - Z.to_nat (ddp_offset data))%nat
      else fb !! j.
Proof.
  intros data.
  unfold parse_ddp. subst data. rewrite getitem_head. simpl.
  set (data := b0 :: rest).
  change (if negb (_ =? 0) && (_ <? _) then _ else _) with (ddp_payload data).
  set (payload := ddp_payload data).
  pose proof (ddp_offset_nonneg data) as Hoff.
  pose proof (len_nonneg payload). pose proof (len_nonneg fb).
  eexists; split; [reflexivity|].
  destruct (Z.ltb_spec (ddp_offset data) (len fb)) as [Hin|Hout].
  - split.
    { apply length_slice_assign_fit; [lia|lia|].
      rewrite length_slice_to by lia. done. }
    intros j Hj.
    rewrite lookup_slice_assign_fit; [|lia|lia|rewrite length_slice_to by lia; done].
    rewrite slice_to_take by lia.
    unfold len in *.
    destruct (Z.ltb_spec (Z.of_nat j) (ddp_offset data)).
    { rewrite (proj2 (Z.leb_gt _ _)) by lia. done. }
    rewrite (proj2 (Z.leb_le _ _)) by lia. simpl.
    destruct (Z.ltb_spec (Z.of_nat j)
                (Z.min (Z.of_nat (length fb)) (ddp_offset data + Z.of_nat (length payload)))).
    + rewrite (proj2 (Z.ltb_lt _ _)) by lia.
      apply lookup_take_lt. lia.
    + rewrite (proj2 (Z.ltb_ge _ _)) by lia. done.
  - split; [done|]. intros j Hj. unfold len in *.
    rewrite (proj2 (Z.leb_gt _ _)) by lia. done.
Qed.


Lemma slice_assign_fit_eq {A} (l src : list A) lo hi :
  0 <= lo <= hi -> hi <= len l ->
  slice_assign l lo hi src
  = take (Z.to_nat lo) l ++ src ++ drop (Z.to_nat hi) l.
Proof.
  intros Hlo Hhi. unfold slice_assign.
  rewrite (clip_inside (len l) lo), (clip_inside (len l) hi) by lia.
  do 3 f_equal. lia.
Qed.

(** The dense copy leaves nothing of the previous frame. *)
Lemma copy_and_clear_dense payload fb :
  copy_and_clear payload fb = dense payload fb.
Proof.
  unfold copy_and_clear, dense.
  pose proof (len_nonneg payload) as Hp. pose proof (len_nonneg fb) as Hf.
  set (copy_len := Z.min (len fb) (len payload)).
  assert (Hc : slice_assign fb 0 copy_len (slice_to payload copy_len)
               = take (Z.to_nat copy_len) payload ++ drop (Z.to_nat copy_len) fb).
  { rewrite slice_assign_fit_eq by lia. rewrite slice_to_take by lia.
    change (Z.to_nat 0) with 0%nat. by rewrite take_0. }
  rewrite Hc. clear Hc.
  set (X := take (Z.to_nat copy_len) payload ++ drop (Z.to_nat copy_len) fb).
  assert (HX : length X = length fb).
  { unfold X. rewrite length_app, length_take, length_drop. unfold len in *. lia. }
  unfold len in *. rewrite HX.
  destruct (Z.ltb_spec (Z.of_nat (length payload)) (Z.of_nat (length fb))) as [Hlt|Hge].
  - assert (Hcl : copy_len = Z.of_nat (length payload)) by lia.
    clearbody copy_len. subst copy_len.
    unfold _clear_tail. unfold len. rewrite HX.
    rewrite (proj2 (Z.ltb_lt _ _)) by lia.
    rewrite slice_assign_fit_eq by (unfold len; lia).
    rewrite !Nat2Z.id. rewrite (drop_ge X) by lia. rewrite app_nil_r.
    unfold X. rewrite Nat2Z.id, firstn_all, take_app_length.
    rewrite take_app_ge by lia. f_equal.
    unfold zeros. rewrite take_replicate. f_equal. lia.
  - unfold X. replace (Z.to_nat copy_len) with (length fb) by lia.
    rewrite drop_all, app_nil_r.
    rewrite take_app_le by lia. done.
Qed.

Lemma length_dense payload fb : length (dense payload fb) = length fb.
Proof.
  unfold dense. rewrite length_take, length_app, length_zeros.
  unfold len. lia.
Qed.


(** Reads and writes at an index that is not negative. *)
Lemma getitem_nonneg {A} (l : list A) i :
  0 <= i -> getitem l i = l !! Z.to_nat i.
Proof. intros Hi. unfold getitem. repeat case_ltb; try lia. done. Qed.

Lemma setitem_nonneg {A} (l : list A) i v :
  0 <= i < len l -> setitem l i v = Some (<[Z.to_nat i := v]> l).
Proof.
  intros Hi. unfold setitem. repeat case_ltb; try lia.
  destruct (Z.leb_spec (len l) i); [lia|]. done.
Qed.

Lemma getitem_insert {A} (l : list A) i j v :
  0 <= i -> 0 <= j < len l ->
  getitem (<[Z.to_nat j := v]> l) i = if i =? j then Some v else getitem l i.
Proof.
  intros Hi Hj. rewrite !getitem_nonneg by lia.
  destruct (Z.eqb_spec i j) as [->|Hne].
  - apply list_lookup_insert_eq. unfold len in Hj. lia.
  - apply list_lookup_insert_ne. lia.
Qed.

Lemma len_insert {A} (l : list A) n v : len (<[n := v]> l) = len l.
Proof. unfold len. by rewrite length_insert. Qed.

(** [range(start, stop, step)] lists [start + step * k] for the [k] below
    the number of its elements. *)
Lemma range_fuel_steps step stop : 0 < step ->
  forall fuel start, stop - start <= Z.of_nat fuel ->
  range_fuel fuel start stop step
  = map (fun k => start + step * Z.of_nat k)
        (seq 0 (Z.to_nat ((stop - start + step - 1) / step))).
Proof.
  intros Hstep. induction fuel as [|fuel IH]; intros start Hfuel; simpl.
  - assert ((stop - start + step - 1) / step <= 0).
    { assert ((stop - start + step - 1) / step < 1); [|lia].
      apply Z.div_lt_upper_bound; lia. }
    replace (Z.to_nat _) with 0%nat by lia. done.
  - case_ltb.
    + replace (stop - start + step - 1)
        with (stop - (start + step) + step - 1 + 1 * step) by lia.
      rewrite Z.div_add by lia.
      assert (0 <= (stop - (start + step) + step - 1) / step).
      { apply Z.div_pos; lia. }
      rewrite Z2Nat.inj_add by lia. rewrite Nat.add_comm. simpl.
      f_equal; [lia|].
      rewrite IH by lia.
      rewrite <- seq_shift, map_map. apply map_ext. intros k. lia.
    + assert ((stop - start + step - 1) / step <= 0).
      { assert ((stop - start + step - 1) / step < 1); [|lia].
        apply Z.div_lt_upper_bound; lia. }
      replace (Z.to_nat _) with 0%nat by lia. done.
Qed.

Lemma range_steps start stop step : 0 < step ->
  range start stop step
  = map (fun k => start + step * Z.of_nat k)
        (seq 0 (Z.to_nat ((stop - start + step - 1) / step))).
Proof. intros Hstep. unfold range. apply range_fuel_steps; lia. Qed.


(** One pixel of a loop body: three reads that are in range, followed by
    three writes that are in range. *)
Ltac read_at E :=
  match goal with
  | |- context [getitem ?l ?i ≫= _] =>
      let x := fresh "x" in
      destruct (getitem_Some l i) as [x E]; [lia|]; rewrite E; simpl
  end.

Ltac write_at :=
  match goal with
  | |- context [setitem ?l ?i ?v ≫= _] =>
      rewrite (setitem_nonneg l i v) by (rewrite ?len_insert; lia); simpl
  end.

(** Comparisons of a goal or of a hypothesis, decided by [lia]. *)
Ltac decide_tests :=
  repeat match goal with
         | |- context [?a <? ?b] =>
             first [rewrite (proj2 (Z.ltb_lt a b)) by lia
                   |rewrite (proj2 (Z.ltb_ge a b)) by lia]
         | |- context [?a <=? ?b] =>
             first [rewrite (proj2 (Z.leb_le a b)) by lia
                   |rewrite (proj2 (Z.leb_gt a b)) by lia]
         | |- context [?a =? ?b] =>
             first [rewrite (proj2 (Z.eqb_eq a b)) by lia
                   |rewrite (proj2 (Z.eqb_neq a b)) by lia]
         end.

(** Sub-protocol 3, by the bytes of the buffer it returns: output pixel
    [p] takes the first three bytes of input pixel [p]. *)
Lemma drgbw_loop_lookup payload : forall m k0 fb,
  (forall p, 4 * p + 2 < len payload -> p < Z.of_nat (k0 + m)) ->
  exists fb',
    drgbw_loop payload (map (fun k => 0 + 4 * Z.of_nat k) (seq k0 m))
      (3 * Z.of_nat k0) fb = Some fb' /\
    len fb' = len fb /\
    forall p c, 0 <= p -> 0 <= c < 3 ->
      getitem fb' (3 * p + c)
      = if (Z.of_nat k0 <=? p) && (4 * p + 2 <? len payload)
           && (3 * p + 2 <? len fb)
        then getitem payload (4 * p + c)
        else getitem fb (3 * p + c).
Proof.
  induction m as [|m IH]; intros k0 fb Hall; simpl.
  - exists fb. split; [done|]. split; [done|]. intros p c Hp Hc.
    destruct (Z.leb_spec (Z.of_nat k0) p); [|done].
    destruct (Z.ltb_spec (4 * p + 2) (len payload)); [|done].
    specialize (Hall p). lia.
  - pose proof (len_nonneg payload). pose proof (len_nonneg fb).
    rewrite !(Z.add_0_l (4 * Z.of_nat k0)).
    destruct ((len payload <=? 4 * Z.of_nat k0 + 2)
              || (len fb <=? 3 * Z.of_nat k0 + 2)) eqn:Hbreak.
    + exists fb. split; [done|]. split; [done|]. intros p c Hp Hc.
      destruct (Z.leb_spec (Z.of_nat k0) p); [|done].
      apply orb_true_iff in Hbreak as [Hb|Hb]; apply Z.leb_le in Hb;
        decide_tests; by rewrite ?andb_false_r.
    + apply orb_false_iff in Hbreak as [Hb1 Hb2].
      apply Z.leb_gt in Hb1, Hb2.
      read_at Er. write_at. read_at Eg. write_at. read_at Eb. write_at.
      set (fb3 := <[_ := _]> (<[_ := _]> (<[_ := _]> fb))).
      destruct (IH (S k0) fb3) as (fb' & Hrun & Hlen & Hget).
      { intros p Hp. specialize (Hall p Hp). lia. }
      assert (Hlen3 : len fb3 = len fb).
      { unfold fb3. by rewrite !len_insert. }
      exists fb'.
      replace (3 * Z.of_nat k0 + 3) with (3 * Z.of_nat (S k0)) by lia.
      split; [exact Hrun|]. split; [congruence|].
      intros p c Hp Hc. rewrite Hget by done. rewrite Hlen3.
      unfold fb3.
      rewrite !getitem_insert by (rewrite ?len_insert; lia).
      destruct (Z.eq_dec p (Z.of_nat k0)) as [->|Hne].
      * decide_tests. simpl.
        assert (Hc3 : c = 0 \/ c = 1 \/ c = 2) by lia.
        destruct Hc3 as [Hc3|[Hc3|Hc3]]; subst c;
          decide_tests; rewrite ?Z.add_0_r; congruence.
      * destruct (Z.leb_spec (Z.of_nat (S k0)) p).
        { rewrite (proj2 (Z.leb_le (Z.of_nat k0) p)) by lia.
          decide_tests. done. }
        rewrite (proj2 (Z.leb_gt (Z.of_nat k0) p)) by lia.
        decide_tests. done.
Qed.

(** Sub-protocol 4, by the bytes of the buffer it returns: the pixels of
    the payload land from pixel [start] on. *)
Lemma dnrgb_loop_lookup payload start : 0 <= start -> forall m k0 fb,
  (forall p, 3 * p + 2 < len payload -> p < Z.of_nat (k0 + m)) ->
  exists fb',
    dnrgb_loop payload start (map (fun k => 0 + 3 * Z.of_nat k) (seq k0 m)) fb
    = Some fb' /\
    len fb' = len fb /\
    forall p c, 0 <= p -> 0 <= c < 3 ->
      getitem fb' (3 * p + c)
      = if (start + Z.of_nat k0 <=? p) && (3 * (p - start) + 2 <? len payload)
           && (3 * p + 2 <? len fb)
        then getitem payload (3 * (p - start) + c)
        else getitem fb (3 * p + c).
Proof.
  intros Hstart.
  induction m as [|m IH]; intros k0 fb Hall; simpl.
  - exists fb. split; [done|]. split; [done|]. intros p c Hp Hc.
    destruct (Z.leb_spec (start + Z.of_nat k0) p); [|done].
    destruct (Z.ltb_spec (3 * (p - start) + 2) (len payload)); [|done].
    specialize (Hall (p - start)). lia.
  - pose proof (len_nonneg payload). pose proof (len_nonneg fb).
    replace ((0 + 3 * Z.of_nat k0) / 3) with (Z.of_nat k0)
      by (rewrite Z.add_0_l, Z.mul_comm, Z.div_mul; lia).
    rewrite !(Z.add_0_l (3 * Z.of_nat k0)).
    destruct ((len payload <=? 3 * Z.of_nat k0 + 2)
              || (len fb <=? (start + Z.of_nat k0) * 3 + 2)) eqn:Hbreak.
    + exists fb. split; [done|]. split; [done|]. intros p c Hp Hc.
      destruct (Z.leb_spec (start + Z.of_nat k0) p); [|done].
      apply orb_true_iff in Hbreak as [Hb|Hb]; apply Z.leb_le in Hb;
        decide_tests; by rewrite ?andb_false_r.
    + apply orb_false_iff in Hbreak as [Hb1 Hb2].
      apply Z.leb_gt in Hb1, Hb2.
      read_at Er. write_at. read_at Eg. write_at. read_at Eb. write_at.
      set (fb3 := <[_ := _]> (<[_ := _]> (<[_ := _]> fb))).
      destruct (IH (S k0) fb3) as (fb' & Hrun & Hlen & Hget).
      { intros p Hp. specialize (Hall p Hp). lia. }
      assert (Hlen3 : len fb3 = len fb).
      { unfold fb3. by rewrite !len_insert. }
      exists fb'.
      split; [exact Hrun|]. split; [congruence|].
      intros p c Hp Hc. rewrite Hget by done. rewrite Hlen3.
      unfold fb3.
      rewrite !getitem_insert by (rewrite ?len_insert; lia).
      destruct (Z.eq_dec p (start + Z.of_nat k0)) as [->|Hne].
      * decide_tests. simpl.
        replace (start + Z.of_nat k0 - start) with (Z.of_nat k0) by lia.
        assert (Hc3 : c = 0 \/ c = 1 \/ c = 2) by lia.
        destruct Hc3 as [Hc3|[Hc3|Hc3]]; subst c;
          decide_tests; rewrite ?Z.add_0_r; congruence.
      * destruct (Z.leb_spec (start + Z.of_nat (S k0)) p).
        { rewrite (proj2 (Z.leb_le (start + Z.of_nat k0) p)) by lia.
          decide_tests. done. }
        rewrite (proj2 (Z.leb_gt (start + Z.of_nat k0) p)) by lia.
        decide_tests. done.
Qed.


(** Sub-protocol 1: a pixel that no complete quad of the rest of the loop
    addresses keeps its bytes. *)
Lemma warls_loop_untouched payload p c : 0 <= p -> 0 <= c < 3 ->
  forall idxs fb fb',
  Forall (fun i => 0 <= i) idxs ->
  warls_loop payload idxs fb = Some fb' ->
  (forall i x, i ∈ idxs -> i + 3 < len payload ->
               getitem payload i = Some x -> byte_val x <> p) ->
  len fb' = len fb /\ getitem fb' (3 * p + c) = getitem fb (3 * p + c).
Proof.
  intros Hp Hc idxs fb fb' Hidx. revert fb.
  induction Hidx as [|i idxs Hi _ IH]; intros fb Hrun Hno; simpl in Hrun.
  { by injection Hrun as ->. }
  pose proof (len_nonneg payload). pose proof (len_nonneg fb).
  destruct (Z.leb_spec (len payload) (i + 3)) as [Hbrk|Hin].
  { by injection Hrun as ->. }
  assert (Hrest : forall i' x, i' ∈ idxs -> i' + 3 < len payload ->
                    getitem payload i' = Some x -> byte_val x <> p).
  { intros i' x Hel. apply Hno. by right. }
  destruct (getitem_Some payload i) as [x Ex]; [lia|].
  rewrite Ex in Hrun. simpl in Hrun.
  pose proof (byte_val_nonneg x).
  assert (Hx : byte_val x <> p) by (apply (Hno i); [left|lia|done]).
  destruct (Z.leb_spec (len fb) (byte_val x * 3 + 2)) as [Hskip|Hfit].
  { by apply IH. }
  revert Hrun.
  read_at Er. write_at. read_at Eg. write_at. read_at Eb. write_at.
  intros Hrun. apply IH in Hrun as [Hlen Hget]; [|done].
  rewrite !len_insert in Hlen. split; [done|].
  rewrite Hget, !getitem_insert by (rewrite ?len_insert; lia).
  decide_tests. done.
Qed.

(** Sub-protocol 1: the last complete quad that addresses a pixel of the
    buffer decides its three bytes. *)
Lemma warls_loop_written payload i x c idxs2 :
  0 <= i -> i + 3 < len payload -> getitem payload i = Some x ->
  0 <= c < 3 ->
  Forall (fun i' => 0 <= i') idxs2 ->
  (forall i' x', i' ∈ idxs2 -> i' + 3 < len payload ->
                 getitem payload i' = Some x' -> byte_val x' <> byte_val x) ->
  forall idxs1 fb fb',
  Forall (fun i' => 0 <= i' /\ i' + 3 < len payload) idxs1 ->
  byte_val x * 3 + 2 < len fb ->
  warls_loop payload (idxs1 ++ i :: idxs2) fb = Some fb' ->
  getitem fb' (3 * byte_val x + c) = getitem payload (i + 1 + c).
Proof.
  intros Hi Hin Ex Hc Hidx2 Hlater idxs1.
  pose proof (len_nonneg payload). pose proof (byte_val_nonneg x).
  induction idxs1 as [|i1 idxs1 IH]; intros fb fb' Hidx1 Hfit Hrun;
    simpl in Hrun.
  - rewrite (proj2 (Z.leb_gt _ _)) in Hrun by lia.
    rewrite Ex in Hrun. simpl in Hrun.
    rewrite (proj2 (Z.leb_gt _ _)) in Hrun by lia.
    revert Hrun.
    read_at Er. write_at. read_at Eg. write_at. read_at Eb. write_at.
    intros Hrun.
    apply (warls_loop_untouched payload (byte_val x) c) in Hrun
      as [_ Hget]; [|lia|lia|done|done].
    rewrite Hget, !getitem_insert by (rewrite ?len_insert; lia).
    assert (Hc3 : c = 0 \/ c = 1 \/ c = 2) by lia.
    destruct Hc3 as [Hc3|[Hc3|Hc3]]; subst c;
      decide_tests; rewrite ?Z.add_0_r;
      rewrite <- ?Z.add_assoc;
      change (1 + 1) with 2; change (1 + 2) with 3; congruence.
  - apply Forall_cons in Hidx1 as [[Hi1 Hin1] Hidx1].
    rewrite (proj2 (Z.leb_gt _ _)) in Hrun by lia.
    destruct (getitem_Some payload i1) as [x1 Ex1]; [lia|].
    rewrite Ex1 in Hrun. simpl in Hrun.
    pose proof (byte_val_nonneg x1).
    destruct (Z.leb_spec (len fb) (byte_val x1 * 3 + 2)) as [Hskip|Hfit1].
    { by apply (IH fb). }
    revert Hrun.
    read_at Er. write_at. read_at Eg. write_at. read_at Eb. write_at.
    intros Hrun. apply IH in Hrun; [done|done|].
    rewrite !len_insert. done.
Qed.


Lemma len_cons {A} (x : A) (l : list A) : len (x :: l) = 1 + len l.
Proof. unfold len. simpl length. lia. Qed.

Lemma slice_from_2 {A} (x y : A) (l : list A) : slice_from (x :: y :: l) 2 = l.
Proof. by rewrite slice_from_drop. Qed.

Lemma slice_from_1 {A} (x : A) (l : list A) : slice_from (x :: l) 1 = l.
Proof. by rewrite slice_from_drop. Qed.

Lemma range_count n step p : 0 < step -> 0 <= p -> step * p < n ->
  (Z.to_nat p < Z.to_nat ((n - 0 + step - 1) / step))%nat.
Proof.
  intros Hstep Hp Hlt.
  assert (p + 1 <= (n - 0 + step - 1) / step); [|lia].
  apply Z.div_le_lower_bound; lia.
Qed.

(** X1: [parse_ddp] on a non-empty datagram returns the push bit of the
    first byte and keeps the size of the buffer; the bytes of the window
    that starts at the header's offset are those of the payload, as far as
    payload and buffer reach, and every byte outside the window is the one
    the buffer had. *)
Theorem parse_ddp_writes_window b0 rest fb :
  let data := b0 :: rest in
  let offset := ddp_offset data in
  let payload := ddp_payload data in
  exists fb',
    parse_ddp data fb = Some (ddp_push b0, fb') /\
    length fb' = length fb /\
    (forall j : nat, (j < length fb)%nat ->
       offset <= Z.of_nat j < offset + len payload ->
       fb' !! j = payload !! (j - Z.to_nat offset)%nat) /\
    (forall j : nat,
       Z.of_nat j < offset \/ offset + len payload <= Z.of_nat j ->
       fb' !! j = fb !! j).
Proof.
  intros data offset payload.
  destruct (parse_ddp_lookup b0 rest fb) as (fb' & Hrun & Hlen & Hget).
  exists fb'. split; [exact Hrun|]. split; [exact Hlen|]. split.
  - intros j Hj Hin. rewrite Hget by done.
    fold data offset payload.
    rewrite (proj2 (Z.leb_le _ _)), (proj2 (Z.ltb_lt _ _)) by lia. done.
  - intros j Hout.
    destruct (Nat.lt_ge_cases j (length fb)) as [Hj|Hj].
    + rewrite Hget by done. fold data offset payload.
      destruct Hout as [Hout|Hout].
      * rewrite (proj2 (Z.leb_gt _ _)) by lia. done.
      * rewrite (proj2 (Z.ltb_ge _ _)) by lia. by rewrite andb_false_r.
    + rewrite !lookup_ge_None_2 by lia. done.
Qed.

(** X2: decoding the same DDP datagram a second time changes nothing. *)
Theorem parse_ddp_idempotent b0 rest fb :
  exists push fb',
    parse_ddp (b0 :: rest) fb = Some (push, fb') /\
    parse_ddp (b0 :: rest) fb' = Some (push, fb').
Proof.
  destruct (parse_ddp_lookup b0 rest fb) as (fb1 & Hrun1 & Hlen1 & Hget1).
  destruct (parse_ddp_lookup b0 rest fb1) as (fb2 & Hrun2 & Hlen2 & Hget2).
  exists (ddp_push b0), fb1. split; [exact Hrun1|].
  rewrite Hrun2. do 2 f_equal.
  apply list_eq. intros j.
  destruct (Nat.lt_ge_cases j (length fb)) as [Hj|Hj].
  - rewrite Hget2 by lia. rewrite Hget1 by lia.
    by destruct (_ && _).
  - rewrite !lookup_ge_None_2 by lia. done.
Qed.

(** X3: two DDP datagrams whose windows do not overlap can be decoded in
    either order: the buffer ends up the same. *)
Theorem parse_ddp_disjoint_windows_commute b1 rest1 b2 rest2 fb :
  let d1 := b1 :: rest1 in
  let d2 := b2 :: rest2 in
  ddp_offset d1 + len (ddp_payload d1) <= ddp_offset d2 \/
  ddp_offset d2 + len (ddp_payload d2) <= ddp_offset d1 ->
  exists fb1 fb2 fb12,
    parse_ddp d1 fb = Some (ddp_push b1, fb1) /\
    parse_ddp d2 fb = Some (ddp_push b2, fb2) /\
    parse_ddp d2 fb1 = Some (ddp_push b2, fb12) /\
    parse_ddp d1 fb2 = Some (ddp_push b1, fb12).
Proof.
  intros d1 d2 Hdisj.
  destruct (parse_ddp_lookup b1 rest1 fb) as (fb1 & Hrun1 & Hlen1 & Hget1).
  destruct (parse_ddp_lookup b2 rest2 fb) as (fb2 & Hrun2 & Hlen2 & Hget2).
  destruct (parse_ddp_lookup b2 rest2 fb1) as (fb12 & Hrun12 & Hlen12 & Hget12).
  destruct (parse_ddp_lookup b1 rest1 fb2) as (fb21 & Hrun21 & Hlen21 & Hget21).
  exists fb1, fb2, fb12.
  split; [exact Hrun1|]. split; [exact Hrun2|]. split; [exact Hrun12|].
  unfold d1 at 1. rewrite Hrun21. do 2 f_equal.
  fold d1 in Hget1, Hget21. fold d2 in Hget2, Hget12.
  pose proof (len_nonneg (ddp_payload d1)).
  pose proof (len_nonneg (ddp_payload d2)).
  apply list_eq. intros j.
  destruct (Nat.lt_ge_cases j (length fb)) as [Hj|Hj].
  - rewrite Hget21, Hget12, Hget1, Hget2 by lia.
    destruct (Z.leb_spec (ddp_offset d1) (Z.of_nat j));
      destruct (Z.ltb_spec (Z.of_nat j) (ddp_offset d1 + len (ddp_payload d1)));
      destruct (Z.leb_spec (ddp_offset d2) (Z.of_nat j));
      destruct (Z.ltb_spec (Z.of_nat j) (ddp_offset d2 + len (ddp_payload d2)));
      simpl; try done; lia.
  - rewrite !lookup_ge_None_2 by lia. done.
Qed.

(** Two datagrams of 13 bytes: three payload bytes at offset 0, and three
    at offset 3. *)
Lemma parse_ddp_disjoint_windows_commute_witness :
  exists fb1 fb2 fb12,
    parse_ddp (bytes [0x41; 0; 0; 1; 0; 0; 0; 0; 0; 3; 1; 2; 3]%N)
      (zeros 9) = Some (true, fb1) /\
    parse_ddp (bytes [0x40; 0; 0; 1; 0; 0; 0; 3; 0; 3; 4; 5; 6]%N)
      (zeros 9) = Some (false, fb2) /\
    parse_ddp (bytes [0x40; 0; 0; 1; 0; 0; 0; 3; 0; 3; 4; 5; 6]%N) fb1
    = Some (false, fb12) /\
    parse_ddp (bytes [0x41; 0; 0; 1; 0; 0; 0; 0; 0; 3; 1; 2; 3]%N) fb2
    = Some (true, fb12).
Proof.
  apply (parse_ddp_disjoint_windows_commute
           (byte_of 0x41) (bytes [0; 0; 1; 0; 0; 0; 0; 0; 3; 1; 2; 3]%N)
           (byte_of 0x40) (bytes [0; 0; 1; 0; 0; 0; 3; 0; 3; 4; 5; 6]%N)
           (zeros 9)).
  left. vm_compute. congruence.
Defined.

(** X4: a datagram of sub-protocol 2 with at least two bytes replaces the
    whole frame: the buffer becomes the payload, cut at the size of the
    buffer or followed by zeros, whatever it held before.  The payload
    starts after the first byte when the bytes that follow it come in
    threes, and after the second byte otherwise. *)
Theorem dense_datagram_replaces_frame b1 rest fb :
  let data := Byte.x02 :: b1 :: rest in
  parse_wled_or_raw data fb
  = Some (dense (if (len data - 1) mod 3 =? 0 then b1 :: rest else rest) fb).
Proof.
  intros data. unfold parse_wled_or_raw. subst data.
  rewrite getitem_head. cbn [mbind option_bind].
  change (byte_val Byte.x02) with 2.
  rewrite !len_cons. pose proof (len_nonneg rest).
  decide_tests. simpl.
  destruct (_ =? 0).
  - by rewrite slice_from_1, copy_and_clear_dense.
  - by rewrite slice_from_2, copy_and_clear_dense.
Qed.

(** X5: a datagram that does not start with one of the bytes 1 to 4, or
    that has one byte only, is taken as raw RGB: when its length is a
    multiple of three it replaces the whole frame, and otherwise it leaves
    the buffer as it is.  The empty datagram leaves the buffer as it is. *)
Theorem raw_datagram_replaces_frame b0 rest fb :
  let data := b0 :: rest in
  ~ (1 <= byte_val b0 <= 4) \/ rest = [] ->
  parse_wled_or_raw [] fb = Some fb /\
  parse_wled_or_raw data fb
  = Some (if len data mod 3 =? 0 then dense data fb else fb).
Proof.
  intros data Hraw. split; [reflexivity|].
  unfold parse_wled_or_raw. subst data.
  rewrite getitem_head. cbn [mbind option_bind].
  rewrite !len_cons. pose proof (len_nonneg rest).
  rewrite (proj2 (Z.eqb_neq (1 + len rest) 0)) by lia.
  assert (Hhead : ((byte_val b0 =? 1) || (byte_val b0 =? 2)
                   || (byte_val b0 =? 3) || (byte_val b0 =? 4))
                  && (2 <=? 1 + len rest) = false).
  { destruct Hraw as [Hraw| ->].
    - apply andb_false_iff. left.
      repeat (apply orb_false_iff; split); apply Z.eqb_neq; lia.
    - apply andb_false_iff. right. reflexivity. }
  rewrite Hhead. unfold raw_fallback. rewrite !len_cons.
  destruct (_ =? 0); [|done]. by rewrite copy_and_clear_dense.
Qed.

(** A raw frame of two pixels into a buffer of three, and a datagram of
    four bytes. *)
Lemma raw_datagram_replaces_frame_witness :
  parse_wled_or_raw (bytes [9; 8; 7; 6; 5; 4]%N) (bytes [1; 1; 1; 1; 1; 1; 1; 1; 1]%N)
  = Some (bytes [9; 8; 7; 6; 5; 4; 0; 0; 0]%N) /\
  parse_wled_or_raw (bytes [9; 8; 7; 6]%N) (bytes [1; 1; 1]%N)
  = Some (bytes [1; 1; 1]%N).
Proof.
  split.
  - apply (raw_datagram_replaces_frame (byte_of 9) (bytes [8; 7; 6; 5; 4]%N)
             (bytes [1; 1; 1; 1; 1; 1; 1; 1; 1]%N)).
    left. vm_compute. intros [_ H]. by apply H.
  - apply (raw_datagram_replaces_frame (byte_of 9) (bytes [8; 7; 6]%N)
             (bytes [1; 1; 1]%N)).
    left. vm_compute. intros [_ H]. by apply H.
Defined.


(** X6: sub-protocol 3 (four bytes per pixel).  Pixel [p] of the buffer
    takes the first three bytes of pixel [p] of the payload, the fourth
    byte is dropped; this holds for every pixel that is complete in the
    payload and fits in the buffer, and all other bytes of the buffer stay
    as they were. *)
Theorem drgbw_datagram_pixels b1 payload fb :
  exists fb',
    parse_wled_or_raw (Byte.x03 :: b1 :: payload) fb = Some fb' /\
    len fb' = len fb /\
    forall p c, 0 <= p -> 0 <= c < 3 ->
      getitem fb' (3 * p + c)
      = if (4 * p + 2 <? len payload) && (3 * p + 2 <? len fb)
        then getitem payload (4 * p + c)
        else getitem fb (3 * p + c).
Proof.
  unfold parse_wled_or_raw.
  rewrite getitem_head. cbn [mbind option_bind].
  change (byte_val Byte.x03) with 3.
  rewrite !len_cons. pose proof (len_nonneg payload).
  decide_tests. simpl. rewrite slice_from_2.
  rewrite range_steps by lia.
  destruct (drgbw_loop_lookup payload
              (Z.to_nat ((len payload - 0 + 4 - 1) / 4)) 0 fb)
    as (fb' & Hrun & Hlen & Hget).
  { intros p Hp.
    destruct (Z.lt_ge_cases p 0) as [Hneg|Hpos]; [lia|].
    pose proof (range_count (len payload) 4 p). lia. }
  exists fb'. split; [exact Hrun|]. split; [exact Hlen|].
  intros p c Hp Hc. rewrite Hget by done.
  rewrite (proj2 (Z.leb_le _ _)) by lia. done.
Qed.

(** X7: sub-protocol 4 (dense RGB from a start index, read from the third
    and fourth byte).  Pixel [k] of the payload lands on pixel [start + k]
    of the buffer, for every pixel that is complete in the payload and fits
    in the buffer; all other bytes of the buffer, those before [start]
    among them, stay as they were. *)
Theorem dnrgb_datagram_pixels b1 hi lo payload fb :
  let start := Z.lor (Z.shiftl (byte_val hi) 8) (byte_val lo) in
  exists fb',
    parse_wled_or_raw (Byte.x04 :: b1 :: hi :: lo :: payload) fb = Some fb' /\
    len fb' = len fb /\
    forall p c, 0 <= p -> 0 <= c < 3 ->
      getitem fb' (3 * p + c)
      = if (start <=? p) && (3 * (p - start) + 2 <? len payload)
           && (3 * p + 2 <? len fb)
        then getitem payload (3 * (p - start) + c)
        else getitem fb (3 * p + c).
Proof.
  intros start.
  assert (Hstart : 0 <= start).
  { pose proof (byte_val_nonneg hi). pose proof (byte_val_nonneg lo).
    apply Z.lor_nonneg. split; [apply Z.shiftl_nonneg|]; lia. }
  unfold parse_wled_or_raw.
  rewrite getitem_head. cbn [mbind option_bind].
  change (byte_val Byte.x04) with 4.
  rewrite !len_cons. pose proof (len_nonneg payload).
  decide_tests. simpl.
  rewrite slice_from_drop by lia. simpl drop.
  fold start. rewrite range_steps by lia.
  destruct (dnrgb_loop_lookup payload start Hstart
              (Z.to_nat ((len payload - 0 + 3 - 1) / 3)) 0 fb)
    as (fb' & Hrun & Hlen & Hget).
  { intros p Hp.
    destruct (Z.lt_ge_cases p 0) as [Hneg|Hpos]; [lia|].
    pose proof (range_count (len payload) 3 p). lia. }
  exists fb'. split; [exact Hrun|]. split; [exact Hlen|].
  intros p c Hp Hc. rewrite Hget by done.
  by rewrite Z.add_0_r.
Qed.

(** X8: sub-protocol 1 (quads of pixel index, red, green, blue).  A pixel
    that no complete quad addresses keeps its bytes, and a pixel of the
    buffer takes the colour of the last complete quad that addresses it. *)
Theorem warls_datagram_pixels b1 payload fb :
  exists fb',
    parse_wled_or_raw (Byte.x01 :: b1 :: payload) fb = Some fb' /\
    len fb' = len fb /\
    (forall p c, 0 <= p -> 0 <= c < 3 ->
       (forall q x, 0 <= q -> 4 * q + 3 < len payload ->
                    getitem payload (4 * q) = Some x -> byte_val x <> p) ->
       getitem fb' (3 * p + c) = getitem fb (3 * p + c)) /\
    (forall q x c, 0 <= q -> 4 * q + 3 < len payload ->
       getitem payload (4 * q) = Some x ->
       byte_val x * 3 + 2 < len fb ->
       (forall q' x', q < q' -> 4 * q' + 3 < len payload ->
                      getitem payload (4 * q') = Some x' ->
                      byte_val x' <> byte_val x) ->
       0 <= c < 3 ->
       getitem fb' (3 * byte_val x + c) = getitem payload (4 * q + 1 + c)).
Proof.
  unfold parse_wled_or_raw.
  rewrite getitem_head. cbn [mbind option_bind].
  change (byte_val Byte.x01) with 1.
  rewrite !len_cons. pose proof (len_nonneg payload).
  decide_tests. simpl. rewrite slice_from_2.
  rewrite range_steps by lia.
  set (n := Z.to_nat ((len payload - 0 + 4 - 1) / 4)).
  set (f := fun k : nat => 0 + 4 * Z.of_nat k).
  assert (Hnonneg : forall l, Forall (fun i => 0 <= i) (map f l)).
  { intros l. apply Forall_forall. intros i Hel.
    apply list_elem_of_fmap in Hel as (k & -> & _). unfold f. lia. }
  destruct (warls_loop_ok payload (map f (seq 0 n)) fb (Hnonneg _))
    as (fb' & Hrun & Hlen).
  exists fb'. split; [exact Hrun|].
  split; [unfold len; by rewrite Hlen|]. split.
  - intros p c Hp Hc Hno.
    apply (warls_loop_untouched payload p c Hp Hc) in Hrun as [_ Hget];
      [exact Hget|apply Hnonneg|].
    intros i x Hel Hin Ex.
    apply list_elem_of_fmap in Hel as (k & -> & _). unfold f in *.
    apply (Hno (Z.of_nat k)); [lia|lia|].
    by rewrite Z.add_0_l in Ex.
  - intros q x c Hq Hin Ex Hfit Hlast Hc.
    assert (Hqn : (Z.to_nat q < n)%nat).
    { apply (range_count (len payload) 4 q); lia. }
    assert (Hsplit : seq 0 n
                     = seq 0 (Z.to_nat q) ++ Z.to_nat q
                       :: seq (S (Z.to_nat q)) (n - S (Z.to_nat q))).
    { replace n with (Z.to_nat q + S (n - S (Z.to_nat q)))%nat at 1 by lia.
      rewrite seq_app. simpl. done. }
    rewrite Hsplit, map_app in Hrun. simpl in Hrun.
    assert (Hfq : f (Z.to_nat q) = 4 * q) by (unfold f; lia).
    rewrite Hfq in Hrun.
    apply (warls_loop_written payload (4 * q) x c) in Hrun;
      [exact Hrun|lia|lia|done|done|apply Hnonneg| |  |lia].
    + intros i x' Hel Hin' Ex'.
      apply list_elem_of_fmap in Hel as (k & -> & Hk).
      apply elem_of_seq in Hk. unfold f in *.
      apply (Hlast (Z.of_nat k)); [lia|lia|].
      by rewrite Z.add_0_l in Ex'.
    + apply Forall_forall. intros i Hel.
      apply list_elem_of_fmap in Hel as (k & -> & Hk).
      apply elem_of_seq in Hk. unfold f. lia.
Qed.

End DecoderFacts.

(* --------------------------------------------------------------------- *)
(** ** What apply_frame_map pushes *)
(* --------------------------------------------------------------------- *)

Module PushFacts.
Import Py PyFacts Mapper Notions MapperNotions.

Section WithSdk.

Context {S : Type} `{Sdk S}.

Lemma try_set_direct_world m (w : World S) d colors :
  exists ok err s,
    _try_set_direct m w d colors = (ok, err, mkWorld s (calls w ++ [CallDirect d ok])).
Proof.
  unfold _try_set_direct.
  destruct (set_led_colors (sdk w) d colors) as [[res|] s]; eauto.
Qed.

Lemma try_set_buffer_world m (w : World S) d colors :
  exists ok err s,
    _try_set_buffer m w d colors = (ok, err, mkWorld s (calls w ++ [CallBuffer d ok])).
Proof.
  unfold _try_set_buffer.
  destruct (set_led_colors_buffer (sdk w) d colors) as [[res|] s]; eauto.
Qed.

Lemma write_within_cons m d ids c : write_within m ids c -> write_within m (d :: ids) c.
Proof. intros (d' & Hc & Hin & Hne). exists d'. split; [done|]. split; [by right|done]. Qed.

Lemma write_within_direct m d ids c cs ok :
  led_colors_by_device m !! d = Some (c :: cs) ->
  write_within m (d :: ids) (CallDirect d ok).
Proof.
  intros Hd. exists d. split; [done|]. split; [by left|].
  unfold colors_or_empty. by rewrite Hd.
Qed.

Lemma write_within_buffer m d ids c cs ok :
  led_colors_by_device m !! d = Some (c :: cs) ->
  write_within m (d :: ids) (CallBuffer d ok).
Proof.
  intros Hd. exists d. split; [done|]. split; [by left|].
  unfold colors_or_empty. by rewrite Hd.
Qed.

(** The calls of the loop of the direct mode. *)
Lemma push_direct_trace m ids : forall any (w : World S),
  exists evs,
    calls (push_direct m ids any w).2 = calls w ++ evs /\
    Forall (fun c => is_direct c = true /\ write_within m ids c) evs.
Proof.
  induction ids as [|d ids IH]; intros any w; simpl.
  - exists []. by rewrite app_nil_r.
  - assert (Hskip : exists evs,
              calls (push_direct m ids any w).2 = calls w ++ evs /\
              Forall (fun c => is_direct c = true /\ write_within m (d :: ids) c) evs).
    { destruct (IH any w) as (evs & Hc & Hall). exists evs. split; [done|].
      eapply Forall_impl; [exact Hall|]. intros c [? ?].
      split; [done|]. by apply write_within_cons. }
    destruct (led_colors_by_device m !! d) as [[|c cs]|] eqn:Hd; try exact Hskip.
    destruct (try_set_direct_world m w d (c :: cs)) as (ok & err & s & ->).
    destruct (IH (any || ok) (mkWorld s (calls w ++ [CallDirect d ok])))
      as (evs & Hc & Hall).
    exists (CallDirect d ok :: evs). split.
    { rewrite Hc. simpl. by rewrite <- app_assoc. }
    constructor.
    + split; [done|]. by eapply write_within_direct.
    + eapply Forall_impl; [exact Hall|]. intros c' [? ?].
      split; [done|]. by apply write_within_cons.
Qed.

(** The calls of the first loop of the buffered modes and of the loop of
    the automatic mode: writes within the group, no flush, and the flag
    [used_buffer] tells whether a buffered write succeeded. *)
Lemma push_buffer_trace m ids : forall any used (w : World S),
  exists evs,
    calls (push_buffer m ids any used w).2 = calls w ++ evs /\
    Forall (fun c => is_flush c = false /\ write_within m ids c) evs /\
    (push_buffer m ids any used w).1.2 = used || existsb buffered_ok evs.
Proof.
  induction ids as [|d ids IH]; intros any used w; simpl.
  - exists []. rewrite app_nil_r. simpl. by rewrite orb_false_r.
  - assert (Hlift : forall any used (w0 w1 : World S) pre,
              calls w1 = calls w0 ++ pre ->
              Forall (fun c => is_flush c = false /\ write_within m (d :: ids) c) pre ->
              forall used0, used = used0 || existsb buffered_ok pre ->
              exists evs,
                calls (push_buffer m ids any used w1).2 = calls w0 ++ evs /\
                Forall (fun c => is_flush c = false
                                 /\ write_within m (d :: ids) c) evs /\
                (push_buffer m ids any used w1).1.2
                = used0 || existsb buffered_ok evs).
    { intros any0 used1 w0 w1 pre Hpre Hallpre used0 Hused.
      destruct (IH any0 used1 w1) as (evs & Hc & Hall & Hu).
      exists (pre ++ evs). split; [by rewrite Hc, Hpre, app_assoc|].
      split.
      - apply Forall_app. split; [done|].
        eapply Forall_impl; [exact Hall|]. intros c [? ?].
        split; [done|]. by apply write_within_cons.
      - rewrite Hu, Hused, existsb_app, orb_assoc. done. }
    destruct (led_colors_by_device m !! d) as [[|c cs]|] eqn:Hd;
      try (apply (Hlift any used w w []);
           [by rewrite app_nil_r|constructor|simpl; by rewrite orb_false_r]).
    destruct (try_set_buffer_world m w d (c :: cs)) as (okb & errb & s & ->).
    destruct okb.
    + apply (Hlift true true w _ [CallBuffer d true]); [done| |].
      * constructor; [|constructor]. split; [done|].
        by eapply write_within_buffer.
      * simpl. by rewrite orb_true_r.
    + destruct (try_set_direct_world m
                  (mkWorld s (calls w ++ [CallBuffer d false])) d (c :: cs))
        as (okd & errd & s' & ->).
      apply (Hlift _ used w _ [CallBuffer d false; CallDirect d okd]).
      * simpl. by rewrite <- app_assoc.
      * constructor; [|constructor; [|constructor]].
        -- split; [done|]. by eapply write_within_buffer.
        -- split; [done|]. by eapply write_within_direct.
      * simpl. by rewrite orb_false_r.
Qed.

Lemma push_auto_trace m ids : forall any used (w : World S),
  exists evs,
    calls (push_auto m ids any used w).2 = calls w ++ evs /\
    Forall (fun c => is_flush c = false /\ write_within m ids c) evs /\
    (push_auto m ids any used w).1.2 = used || existsb buffered_ok evs.
Proof.
  induction ids as [|d ids IH]; intros any used w; simpl.
  - exists []. rewrite app_nil_r. simpl. by rewrite orb_false_r.
  - assert (Hlift : forall any used (w0 w1 : World S) pre,
              calls w1 = calls w0 ++ pre ->
              Forall (fun c => is_flush c = false /\ write_within m (d :: ids) c) pre ->
              forall used0, used = used0 || existsb buffered_ok pre ->
              exists evs,
                calls (push_auto m ids any used w1).2 = calls w0 ++ evs /\
                Forall (fun c => is_flush c = false
                                 /\ write_within m (d :: ids) c) evs /\
                (push_auto m ids any used w1).1.2
                = used0 || existsb buffered_ok evs).
    { intros any0 used1 w0 w1 pre Hpre Hallpre used0 Hused.
      destruct (IH any0 used1 w1) as (evs & Hc & Hall & Hu).
      exists (pre ++ evs). split; [by rewrite Hc, Hpre, app_assoc|].
      split.
      - apply Forall_app. split; [done|].
        eapply Forall_impl; [exact Hall|]. intros c [? ?].
        split; [done|]. by apply write_within_cons.
      - rewrite Hu, Hused, existsb_app, orb_assoc. done. }
    destruct (led_colors_by_device m !! d) as [[|c cs]|] eqn:Hd;
      try (apply (Hlift any used w w []);
           [by rewrite app_nil_r|constructor|simpl; by rewrite orb_false_r]).
    destruct (try_set_direct_world m w d (c :: cs)) as (okd & errd & s & ->).
    destruct okd.
    + apply (Hlift true used w _ [CallDirect d true]); [done| |].
      * constructor; [|constructor]. split; [done|].
        by eapply write_within_direct.
      * simpl. by rewrite orb_false_r.
    + destruct (try_set_buffer_world m
                  (mkWorld s (calls w ++ [CallDirect d false])) d (c :: cs))
        as (okb & errb & s' & ->).
      destruct okb.
      * apply (Hlift true true w _ [CallDirect d false; CallBuffer d true]).
        -- simpl. by rewrite <- app_assoc.
        -- constructor; [|constructor; [|constructor]].
           ++ split; [done|]. by eapply write_within_direct.
           ++ split; [done|]. by eapply write_within_buffer.
        -- simpl. by rewrite orb_true_r.
      * apply (Hlift any used w _ [CallDirect d false; CallBuffer d false]).
        -- simpl. by rewrite <- app_assoc.
        -- constructor; [|constructor; [|constructor]].
           ++ split; [done|]. by eapply write_within_direct.
           ++ split; [done|]. by eapply write_within_buffer.
        -- simpl. by rewrite orb_false_r.
Qed.


(** The calls of the last part of [apply_frame_map]: the writes of the
    first loop, one flush when a buffered write succeeded, and the direct
    writes that the mode "buffer_safe" adds. *)
Lemma push_colors_trace m (w : World S) ids (mode : string) res w' :
  push_colors m w ids mode = (res, w') ->
  exists writes fl again,
    calls w' = calls w ++ writes ++ fl ++ again /\
    Forall (fun c => is_flush c = false /\ write_within m ids c) writes /\
    fl = (if existsb buffered_ok writes then [CallFlush] else []) /\
    Forall (fun c => is_direct c = true /\ write_within m ids c) again /\
    (mode = "direct" -> Forall (fun c => is_direct c = true) writes).
Proof.
  unfold push_colors.
  destruct (String.eqb_spec mode "direct") as [->|Hmode].
  { destruct (push_direct_trace m ids false w) as (evs & Hc & Hall).
    destruct (push_direct m ids false w) as [any w1]. simpl in Hc.
    intros [= <- <-].
    assert (Hdir : Forall (fun c => is_direct c = true) evs).
    { eapply Forall_impl; [exact Hall|]. by intros c [? ?]. }
    assert (Hnb : existsb buffered_ok evs = false).
    { clear -Hdir. induction Hdir as [|c evs Hc _ IH]; [done|].
      simpl. rewrite IH. by destruct c. }
    exists evs, [], []. rewrite Hnb, !app_nil_r.
    split; [done|]. split; [|done].
    eapply Forall_impl; [exact Hall|]. intros c [Hd ?].
    split; [by destruct c|done]. }
  assert (Hflush : forall used (w1 : World S) writes,
            calls w1 = calls w ++ writes ->
            used = existsb buffered_ok writes ->
            calls (if used then sdk_flush w1 else (true, w1)).2
            = calls w ++ writes
              ++ (if existsb buffered_ok writes then [CallFlush] else [])).
  { intros used w1 writes Hc ->. destruct (existsb _ _); simpl.
    - unfold sdk_flush. destruct (flush (sdk w1)) as [ok s]. simpl.
      by rewrite Hc, <- app_assoc.
    - by rewrite app_nil_r. }
  destruct (String.eqb mode "buffer" || String.eqb mode "buffer_safe").
  { destruct (push_buffer_trace m ids false false w) as (evs & Hc & Hall & Hu).
    destruct (push_buffer m ids false false w) as [[any used] w1].
    simpl in Hc, Hu.
    pose proof (Hflush used w1 evs Hc Hu) as Hfl.
    destruct (if used then sdk_flush w1 else (true, w1)) as [flushed w2].
    simpl in Hfl.
    destruct flushed; simpl.
    - destruct (String.eqb mode "buffer_safe").
      + destruct (push_direct_trace m ids any w2) as (evs3 & Hc3 & Hall3).
        destruct (push_direct m ids any w2) as [any' w3]. simpl in Hc3.
        intros [= <- <-]. exists evs, (if existsb buffered_ok evs then [CallFlush] else []), evs3.
        split; [by rewrite Hc3, Hfl, <- !app_assoc|]. done.
      + intros [= <- <-]. exists evs, (if existsb buffered_ok evs then [CallFlush] else []), [].
        split; [by rewrite Hfl, app_nil_r|]. done.
    - intros [= <- <-]. exists evs, (if existsb buffered_ok evs then [CallFlush] else []), [].
      split; [by rewrite Hfl, app_nil_r|]. done. }
  destruct (push_auto_trace m ids false false w) as (evs & Hc & Hall & Hu).
  destruct (push_auto m ids false false w) as [[any used] w1].
  simpl in Hc, Hu.
  pose proof (Hflush used w1 evs Hc Hu) as Hfl.
  destruct (if used then sdk_flush w1 else (true, w1)) as [flushed w2].
  simpl in Hfl.
  destruct flushed; simpl; intros [= <- <-]; exists evs, (if existsb buffered_ok evs then [CallFlush] else []), [];
    (split; [by rewrite Hfl, app_nil_r|]); done.
Qed.

(** [apply_frame_map] either makes no call at all, or ends with the push
    of the colors it leaves in the mapper. *)
Lemma apply_frame_map_push m (w : World S) map_list device_ids frame_bytes
    lut update_mode res m' w' :
  apply_frame_map m w map_list device_ids frame_bytes lut update_mode
  = (res, m', w') ->
  w' = w \/
  push_colors m' w device_ids (effective_mode update_mode) = (res, w').
Proof.
  unfold apply_frame_map.
  destruct map_list as [|e entries]; [intros [= <- <- <-]; by left|].
  destruct (if mutable_colors m then _ else _) as [m1 pass_end].
  assert (Hrest :
    match (if negb (mutable_colors m1)
           then rebuild_colors m1 (e :: entries) device_ids frame_bytes
                  (match lut with Some l => l | None => range 0 256 1 end)
           else Some m1) with
    | Some m2 =>
        let '(res0, w0) := push_colors m2 w device_ids
                             (lower (or_default update_mode "auto")) in
        (res0, m2, w0)
    | None => (Raised, m1, w)
    end = (res, m', w') ->
    w' = w \/
    push_colors m' w device_ids (effective_mode update_mode) = (res, w')).
  { destruct (if negb (mutable_colors m1) then _ else _) as [m2|];
      [|intros [= <- <- <-]; by left].
    unfold effective_mode.
    destruct (push_colors m2 w device_ids _) as [res0 w0] eqn:E.
    intros [= <- <- <-]. by right. }
  destruct pass_end; try exact Hrest.
  intros [= <- <- <-]. by left.
Qed.

(** X9: whatever the update mode and however the call ends, every device
    write that [apply_frame_map] makes goes to a device of the group's
    [device_ids] that has colors in the mapper: devices outside the group
    and devices without LEDs are never written. *)
Theorem apply_frame_map_writes_within_group m (w : World S) map_list
    device_ids frame_bytes lut update_mode res m' w' :
  apply_frame_map m w map_list device_ids frame_bytes lut update_mode
  = (res, m', w') ->
  exists evs,
    calls w' = calls w ++ evs /\
    forall c d, c ∈ evs -> call_device c = Some d ->
                d ∈ device_ids /\ colors_or_empty m' d <> [].
Proof.
  intros Hrun. apply apply_frame_map_push in Hrun as [->|Hpush].
  { exists []. split; [by rewrite app_nil_r|]. intros c d Hc. by inversion Hc. }
  apply push_colors_trace in Hpush
    as (writes & fl & again & Hc & Hw & -> & Ha & _).
  exists (writes ++ (if existsb buffered_ok writes then [CallFlush] else [])
          ++ again).
  split; [done|]. intros c d Hin Hdev.
  assert (Hex : write_within m' device_ids c).
  { rewrite !elem_of_app in Hin. destruct Hin as [Hin|[Hin|Hin]].
    - rewrite Forall_forall in Hw. by apply Hw.
    - destruct (existsb _ _); [|by inversion Hin].
      apply list_elem_of_singleton in Hin as ->. done.
    - rewrite Forall_forall in Ha. by apply Ha. }
  destruct Hex as (d' & Hd' & Hin' & Hne). by simplify_eq.
Qed.

(** X10: the flush discipline of [apply_frame_map].  In the mode "direct"
    every call is a direct write.  In every mode the buffer is flushed
    exactly when a buffered write of this call reported success, at most
    once, after all buffered writes, and only direct writes follow it. *)
Theorem apply_frame_map_flush_discipline m (w : World S) map_list
    device_ids frame_bytes lut update_mode res m' w' :
  apply_frame_map m w map_list device_ids frame_bytes lut update_mode
  = (res, m', w') ->
  exists evs,
    calls w' = calls w ++ evs /\
    (effective_mode update_mode = "direct" ->
     forall c, c ∈ evs -> is_direct c = true) /\
    (CallFlush ∈ evs <-> exists d, CallBuffer d true ∈ evs) /\
    (forall pre post, evs = pre ++ CallFlush :: post ->
       Forall (fun c => is_flush c = false) pre /\
       Forall (fun c => is_direct c = true) post).
Proof.
  intros Hrun. apply apply_frame_map_push in Hrun as [->|Hpush].
  { exists []. split; [by rewrite app_nil_r|]. split; [|split].
    - intros _ c Hc. by inversion Hc.
    - split; [intros Hc; by inversion Hc|intros [d Hc]; by inversion Hc].
    - intros [|??] ?; done. }
  apply push_colors_trace in Hpush
    as (writes & fl & again & Hc & Hw & -> & Ha & Hdirect).
  assert (Hnf : Forall (fun c => is_flush c = false) writes).
  { eapply Forall_impl; [exact Hw|]. by intros c [? ?]. }
  assert (Had : Forall (fun c => is_direct c = true) again).
  { eapply Forall_impl; [exact Ha|]. by intros c [? ?]. }
  assert (Hbuf : existsb buffered_ok writes = true
                 <-> exists d, CallBuffer d true ∈ writes).
  { rewrite existsb_exists. split.
    - intros ([| d [|] |] & Hin & Hok); try done.
      exists d. by apply list_elem_of_In.
    - intros [d Hin]. exists (CallBuffer d true).
      split; [by apply list_elem_of_In|done]. }
  assert (Hnotin : forall l, Forall (fun c => is_flush c = false) l ->
                             CallFlush ∉ l).
  { intros l Hl Hin. rewrite Forall_forall in Hl. by apply Hl in Hin. }
  assert (Hnotin' : forall l, Forall (fun c => is_direct c = true) l ->
                              Forall (fun c => is_flush c = false) l).
  { intros l Hl. eapply Forall_impl; [exact Hl|]. by intros []. }
  exists (writes ++ (if existsb buffered_ok writes then [CallFlush] else [])
          ++ again).
  split; [done|]. split; [|split].
  - intros Hmode c Hin. specialize (Hdirect Hmode).
    assert (Hnb : existsb buffered_ok writes = false).
    { clear -Hdirect. induction Hdirect as [|c evs Hc _ IH]; [done|].
      simpl. rewrite IH. by destruct c. }
    rewrite Hnb in Hin. simpl in Hin.
    rewrite elem_of_app in Hin. destruct Hin as [Hin|Hin].
    + rewrite Forall_forall in Hdirect. by apply Hdirect.
    + rewrite Forall_forall in Had. by apply Had.
  - rewrite !elem_of_app. split.
    + intros [Hin|[Hin|Hin]].
      * destruct (Hnotin _ Hnf Hin).
      * destruct (existsb buffered_ok writes) eqn:E; [|by inversion Hin].
        destruct (proj1 Hbuf eq_refl) as [d Hd]. exists d.
        rewrite !elem_of_app. by left.
      * destruct (Hnotin _ (Hnotin' _ Had) Hin).
    + intros [d Hd]. rewrite !elem_of_app in Hd.
      destruct Hd as [Hd|[Hd|Hd]].
      * right. left. rewrite (proj2 Hbuf) by eauto. by left.
      * destruct (existsb _ _); [|by inversion Hd].
        by apply list_elem_of_singleton in Hd.
      * rewrite Forall_forall in Had. by apply Had in Hd.
  - intros pre post Heq.
    destruct (existsb buffered_ok writes).
    + assert (Hunique : pre = writes /\ post = again).
      { clear -Heq Hnf Had Hnotin Hnotin'.
        apply Hnotin' in Had.
        revert pre Heq. induction Hnf as [|c writes Hcf _ IH]; intros pre Heq.
        - destruct pre as [|c pre]; simpl in Heq.
          + by injection Heq as <-.
          + injection Heq as <- Heq. exfalso.
            apply (Hnotin again Had). rewrite Heq.
            apply elem_of_app. right. by left.
        - destruct pre as [|c' pre]; simpl in Heq.
          + injection Heq as Hceq _. subst c. done.
          + injection Heq as <- Heq. destruct (IH pre Heq) as [-> ->]. done. }
      destruct Hunique as [-> ->]. done.
    + exfalso. simpl in Heq.
      assert (Hin : CallFlush ∈ writes ++ again).
      { rewrite Heq. apply elem_of_app. right. by left. }
      apply elem_of_app in Hin as [Hin|Hin].
      * destruct (Hnotin _ Hnf Hin).
      * destruct (Hnotin _ (Hnotin' _ Had) Hin).
Qed.

End WithSdk.

(** The sample run: "kbd" written directly, "fan" refused both ways. *)
Lemma apply_frame_map_writes_within_group_witness :
  exists evs,
    calls Samples.sample_run.2 = [] ++ evs /\
    forall c d, c ∈ evs -> call_device c = Some d ->
                d ∈ ["kbd"; "fan"]
                /\ colors_or_empty Samples.sample_run.1.2 d <> [].
Proof.
  destruct Samples.sample_run as [[res m'] w'] eqn:E.
  exact (apply_frame_map_writes_within_group _ _ _ _ _ _ _ _ _ _ E).
Defined.

(** A run in which the buffered writes succeed: it ends with one flush. *)
Lemma apply_frame_map_flush_discipline_witness :
  calls MapperSamples.buffered_run.2
  = [CallDirect "kbd" false; CallBuffer "kbd" true;
     CallDirect "fan" false; CallBuffer "fan" true; CallFlush] /\
  exists evs,
    calls MapperSamples.buffered_run.2 = [] ++ evs /\
    (CallFlush ∈ evs <-> exists d, CallBuffer d true ∈ evs).
Proof.
  split; [vm_compute; reflexivity|].
  destruct MapperSamples.buffered_run as [[res m'] w'] eqn:E.
  destruct (apply_frame_map_flush_discipline _ _ _ _ _ _ _ _ _ _ E)
    as (evs & Hc & _ & Hiff & _).
  exists evs. split; [exact Hc|exact Hiff].
Defined.

End PushFacts.

(* --------------------------------------------------------------------- *)
(** ** apply_frame_map keeps the shape of the mapper *)
(* --------------------------------------------------------------------- *)

Module MapperShape.
Import Py PyFacts Mapper Notions MapperNotions.

Lemma same_counts_refl a : same_counts a a.
Proof. done. Qed.

Lemma same_counts_trans a b c :
  same_counts a b -> same_counts b c -> same_counts a c.
Proof. intros H1 H2 d. by rewrite H1. Qed.

Lemma same_counts_insert a d cs cs' :
  a !! d = Some cs -> length cs' = length cs ->
  same_counts (<[d := cs']> a) a.
Proof.
  intros Hd Hlen d'. destruct (decide (d' = d)) as [->|Hne].
  - rewrite lookup_insert_eq, Hd. done.
  - by rewrite lookup_insert_ne.
Qed.

Lemma setitem_length {A} (l l' : list A) i v :
  setitem l i v = Some l' -> length l' = length l.
Proof.
  unfold setitem. destruct (_ || _); [done|]. intros [= <-].
  apply length_insert.
Qed.

Section WithSdk.

Context {S : Type} `{Sdk S}.

Lemma mutate_led_counts colors d li r g b colors' :
  mutate_led colors d li r g b = Some colors' -> same_counts colors' colors.
Proof.
  unfold mutate_led. intros Hrun.
  destruct (colors !! d) as [cs|] eqn:Hd; [|done]. simpl in Hrun.
  destruct (getitem cs li) as [c|]; [|done]. simpl in Hrun.
  destruct (set_rgb c r g b) as [c'|]; [|done]. simpl in Hrun.
  destruct (setitem cs li c') as [cs'|] eqn:Hset; [|done].
  injection Hrun as <-.
  eapply same_counts_insert; [done|]. by eapply setitem_length.
Qed.

Lemma mutate_leds_counts d r g b lis : forall colors,
  same_counts (mutate_leds colors d lis r g b).1 colors.
Proof.
  induction lis as [|li lis IH]; intros colors; simpl; [done|].
  destruct (mutate_led colors d li r g b) as [colors'|] eqn:E; [|done].
  eapply same_counts_trans; [apply IH|]. by eapply mutate_led_counts.
Qed.

Lemma mutable_pass_counts frame_bytes lut entries : forall idx colors,
  same_counts (mutable_pass frame_bytes lut entries idx colors).1 colors.
Proof.
  induction entries as [|e entries IH]; intros idx colors; simpl; [done|].
  destruct (entry_offset e idx) as [offset idx'].
  destruct (entry_rgb frame_bytes lut offset (e_wb e)) as [[[r g] b]|]; [|done].
  pose proof (mutate_leds_counts (e_device e) r g b (target_indices e) colors)
    as Hm.
  destruct (mutate_leds colors (e_device e) (target_indices e) r g b)
    as [colors' ok].
  simpl in Hm. destruct ok; [|done].
  eapply same_counts_trans; [apply IH|done].
Qed.

Lemma rebuilt_init_fit m ids : forall rebuilt,
  rows_fit m rebuilt -> rows_fit m (rebuilt_init m ids rebuilt).
Proof.
  induction ids as [|d ids IH]; intros rebuilt Hfit; simpl; [done|].
  apply IH. intros d' row. destruct (decide (d' = d)) as [->|Hne].
  - rewrite lookup_insert_eq. intros [= <-]. apply length_replicate.
  - rewrite lookup_insert_ne by done. apply Hfit.
Qed.

Lemma rebuild_leds_fit m colors d r g b lis : forall rebuilt rebuilt',
  rows_fit m rebuilt ->
  rebuild_leds colors d lis r g b rebuilt = Some rebuilt' ->
  rows_fit m rebuilt'.
Proof.
  induction lis as [|li lis IH]; intros rebuilt rebuilt' Hfit Hrun;
    simpl in Hrun; [by injection Hrun as <-|].
  destruct (getitem colors li) as [old|]; [|done]. simpl in Hrun.
  destruct (_make_color (c_id old) r g b) as [c|]; [|done]. simpl in Hrun.
  destruct (rebuilt !! d) as [row|] eqn:Hd; [|done]. simpl in Hrun.
  destruct (setitem row li (Some c)) as [row'|] eqn:Hset; [|done].
  simpl in Hrun. eapply IH; [|exact Hrun].
  intros d' row0. destruct (decide (d' = d)) as [->|Hne].
  - rewrite lookup_insert_eq. intros [= <-].
    rewrite (setitem_length _ _ _ _ Hset). by apply Hfit.
  - rewrite lookup_insert_ne by done. apply Hfit.
Qed.

Lemma rebuild_pass_fit m frame_bytes lut entries : forall idx rebuilt rebuilt',
  rows_fit m rebuilt ->
  rebuild_pass m frame_bytes lut entries idx rebuilt = Some rebuilt' ->
  rows_fit m rebuilt'.
Proof.
  induction entries as [|e entries IH]; intros idx rebuilt rebuilt' Hfit Hrun;
    simpl in Hrun; [by injection Hrun as <-|].
  destruct (entry_offset e idx) as [offset idx'].
  destruct (entry_rgb frame_bytes lut offset (e_wb e)) as [[[r g] b]|]; [|done].
  simpl in Hrun.
  destruct (led_colors_by_device m !! e_device e) as [colors|]; [|done].
  simpl in Hrun.
  destruct (rebuild_leds colors (e_device e) (target_indices e) r g b rebuilt)
    as [rebuilt1|] eqn:E; [|done].
  simpl in Hrun. eapply IH; [|exact Hrun]. by eapply rebuild_leds_fit.
Qed.

Lemma length_fill_missing row existing :
  length row = length existing ->
  length (fill_missing row existing) = length existing.
Proof.
  intros Hlen. unfold fill_missing. rewrite length_zip_with. lia.
Qed.

Lemma install_rebuilt_counts m rebuilt :
  rows_fit m rebuilt ->
  same_counts (install_rebuilt m rebuilt) (led_colors_by_device m).
Proof.
  unfold install_rebuilt.
  apply (map_fold_weak_ind
           (fun colors rebuilt =>
              rows_fit m rebuilt ->
              same_counts colors (led_colors_by_device m))).
  - done.
  - intros d row rebuilt0 colors Hnone IH Hfit.
    assert (Hfit0 : rows_fit m rebuilt0).
    { intros d' row' Hd'. apply Hfit.
      rewrite lookup_insert_ne; [done|]. intros ->. congruence. }
    specialize (IH Hfit0).
    destruct row as [|x row]; [done|].
    intros d'. destruct (decide (d' = d)) as [->|Hne].
    + rewrite lookup_insert_eq. cbn [default from_option id].
      rewrite length_fill_missing; [done|].
      apply Hfit. by rewrite lookup_insert_eq.
    + rewrite lookup_insert_ne by done. apply IH.
Qed.

Lemma rebuild_colors_counts m map_list device_ids frame_bytes lut m' :
  rebuild_colors m map_list device_ids frame_bytes lut = Some m' ->
  same_counts (led_colors_by_device m') (led_colors_by_device m)
  /\ order_by_device m' = order_by_device m.
Proof.
  unfold rebuild_colors. intros Hrun.
  destruct (rebuild_pass m frame_bytes lut map_list 0
              (rebuilt_init m device_ids ∅)) as [rebuilt|] eqn:E; [|done].
  injection Hrun as <-. split; [|done]. simpl.
  apply install_rebuilt_counts.
  eapply rebuild_pass_fit; [|exact E].
  apply rebuilt_init_fit. intros d row. by rewrite lookup_empty.
Qed.

(** What follows the first pass of [apply_frame_map]. *)
Lemma after_pass_shape m1 (w : World S) map_list device_ids frame_bytes lut
    (mode : string) res m' w' :
  match (if negb (mutable_colors m1)
         then rebuild_colors m1 map_list device_ids frame_bytes lut
         else Some m1) with
  | Some m2 =>
      let '(res0, w0) := push_colors m2 w device_ids mode in (res0, m2, w0)
  | None => (Raised, m1, w)
  end = (res, m', w') ->
  order_by_device m' = order_by_device m1 /\
  same_counts (led_colors_by_device m') (led_colors_by_device m1).
Proof.
  destruct (negb (mutable_colors m1)).
  - destruct (rebuild_colors m1 map_list device_ids frame_bytes lut)
      as [m2|] eqn:E.
    + apply rebuild_colors_counts in E as [Hc2 Ho2].
      destruct (push_colors m2 w device_ids mode) as [res0 w0].
      by intros [= <- <- <-].
    + by intros [= <- <- <-].
  - destruct (push_colors m1 w device_ids mode) as [res0 w0].
    by intros [= <- <- <-].
Qed.

(** X11: however it ends, [apply_frame_map] leaves every device with the
    number of LEDs it had and leaves the stored orders alone, so the order
    that [get_device_order] gives for a device is the same before and
    after a frame. *)
Theorem apply_frame_map_keeps_led_counts m (w : World S) map_list device_ids
    frame_bytes lut update_mode res m' w' :
  apply_frame_map m w map_list device_ids frame_bytes lut update_mode
  = (res, m', w') ->
  order_by_device m' = order_by_device m /\
  (forall d, length (colors_or_empty m' d) = length (colors_or_empty m d)) /\
  (forall d, get_device_order m' d = get_device_order m d).
Proof.
  intros Hrun.
  assert (Hshape : order_by_device m' = order_by_device m /\
                   same_counts (led_colors_by_device m') (led_colors_by_device m)).
  { unfold apply_frame_map in Hrun.
    destruct map_list as [|e entries]; [by injection Hrun as <- <- <-|].
    set (lut' := match lut with Some l => l | None => range 0 256 1 end) in *.
    destruct (mutable_colors m) eqn:Hmut.
    - pose proof (mutable_pass_counts frame_bytes lut' (e :: entries) 0
                    (led_colors_by_device m)) as Hc.
      destruct (mutable_pass frame_bytes lut' (e :: entries) 0
                  (led_colors_by_device m)) as [colors pass_end].
      simpl in Hc.
      destruct pass_end; cbv beta iota zeta in Hrun.
      + apply after_pass_shape in Hrun as [Ho Hs]. split; [done|].
        by eapply same_counts_trans.
      + apply after_pass_shape in Hrun as [Ho Hs]. split; [done|].
        by eapply same_counts_trans.
      + by injection Hrun as <- <- <-.
    - cbv beta iota zeta in Hrun.
      by apply after_pass_shape in Hrun. }
  destruct Hshape as [Ho Hc].
  assert (Hlen : forall d, length (colors_or_empty m' d)
                           = length (colors_or_empty m d)).
  { intros d. apply Hc. }
  split; [done|]. split; [done|].
  intros d. unfold get_device_order, len. by rewrite Ho, Hlen.
Qed.

End WithSdk.

(** The sample run keeps the three LEDs and the stored order of "kbd". *)
Lemma apply_frame_map_keeps_led_counts_witness :
  get_device_order Samples.sample_run.1.2 "kbd" = [2; 0; 1] /\
  length (colors_or_empty Samples.sample_run.1.2 "kbd") = 3%nat.
Proof.
  destruct Samples.sample_run as [[res m'] w'] eqn:E.
  destruct (apply_frame_map_keeps_led_counts _ _ _ _ _ _ _ _ _ _ E)
    as (_ & Hlen & Hord).
  simpl. rewrite Hord, Hlen. split; reflexivity.
Defined.

End MapperShape.

(* --------------------------------------------------------------------- *)
(** ** The serpentine order is a permutation *)
(* --------------------------------------------------------------------- *)

Module OrderPermutation.
Import Py PyFacts Mapper.

(** *** Sorting permutes *)

Section Sorting.

Context {A K : Type} (key : A -> K) (lt : K -> K -> bool).

Lemma insert_sorted_perm x l : insert_sorted key lt x l ≡ₚ x :: l.
Proof.
  induction l as [|y l IH]; simpl; [done|].
  destruct (lt (key x) (key y)); [done|].
  rewrite IH. apply Permutation_swap.
Qed.

Lemma sort_stable_perm l : sort_stable key lt l ≡ₚ l.
Proof.
  unfold sort_stable.
  assert (G : forall acc, fold_left (fun acc x => insert_sorted key lt x acc) l acc
                          ≡ₚ acc ++ l).
  { induction l as [|x l IH]; intros acc; simpl; [by rewrite app_nil_r|].
    rewrite IH, insert_sorted_perm. simpl. apply Permutation_middle. }
  by rewrite G.
Qed.

Lemma sorted_perm reverse l : sorted key lt reverse l ≡ₚ l.
Proof.
  unfold sorted. destruct reverse.
  - by rewrite <- Permutation_rev, sort_stable_perm, <- Permutation_rev.
  - apply sort_stable_perm.
Qed.

End Sorting.


(** *** Rows partition the points *)

Lemma concat_perm {A} (l l' : list (list A)) :
  l ≡ₚ l' -> concat l ≡ₚ concat l'.
Proof.
  induction 1 as [|x l l' _ IH|x y l|l1 l2 l3 _ IH1 _ IH2]; simpl.
  - done.
  - by rewrite IH.
  - rewrite !app_assoc. by rewrite (Permutation_app_comm y x).
  - by rewrite IH1.
Qed.

Lemma concat_snoc {A} (l : list (list A)) (x : list A) :
  concat (l ++ [x]) = concat l ++ x.
Proof. rewrite concat_app. simpl. by rewrite app_nil_r. Qed.

Lemma concat_insert_snoc {A} (l : list (list A)) n row (p : A) :
  l !! n = Some row ->
  concat (<[n := row ++ [p]]> l) ≡ₚ concat l ++ [p].
Proof.
  revert n. induction l as [|x l IH]; intros [|n] Hn; simpl in *; try done.
  - injection Hn as ->. rewrite <- !app_assoc.
    apply Permutation_app_head. apply Permutation_app_comm.
  - rewrite (IH n Hn). by rewrite app_assoc.
Qed.

(** A read and a write at the same index hit the same position. *)
Lemma getitem_setitem_same {A} (l l' : list A) i x v :
  getitem l i = Some x -> setitem l i v = Some l' ->
  exists n, l !! n = Some x /\ l' = <[n := v]> l.
Proof.
  unfold getitem, setitem.
  set (j := if i <? 0 then i + len l else i).
  destruct (j <? 0); [done|]. simpl.
  destruct (len l <=? j); [done|].
  intros Hget [= <-]. eauto.
Qed.

Lemma emit_rows_perm rows : forall idx_row first_dir mode,
  emit_rows rows idx_row first_dir mode ≡ₚ map pt_idx (concat rows).
Proof.
  induction rows as [|row rows IH]; intros idx_row first_dir mode; simpl;
    [done|].
  rewrite map_app, IH.
  apply Permutation_app_tail, Permutation_map, sorted_perm.
Qed.

Lemma sweep_rows_perm tol points : forall current current_y rows,
  (current_y = None -> current = []) ->
  concat (sweep_rows points tol current current_y rows).1
  ++ (sweep_rows points tol current current_y rows).2
  ≡ₚ concat rows ++ current ++ points.
Proof.
  induction points as [|p points IH]; intros current current_y rows Hinv;
    simpl.
  - by rewrite app_nil_r.
  - destruct current_y as [cy|].
    + destruct (abs (pt_y p - cy) <=? tol)%float.
      * rewrite IH by done. by rewrite <- app_assoc.
      * rewrite IH by done. rewrite concat_snoc, <- app_assoc. done.
    + rewrite IH by done. by rewrite Hinv.
Qed.

Lemma rows_by_tolerance_perm points row_tolerance row_order :
  concat (rows_by_tolerance points row_tolerance row_order) ≡ₚ points.
Proof.
  unfold rows_by_tolerance.
  set (sorted_points := if String.eqb _ _ then _ else _).
  assert (Hs : sorted_points ≡ₚ points).
  { unfold sorted_points. destruct (String.eqb _ _); apply sorted_perm. }
  pose proof (sweep_rows_perm (row_tol points row_tolerance) sorted_points
                [] None [] (fun _ => eq_refl)) as Hsweep.
  destruct (sweep_rows sorted_points (row_tol points row_tolerance) [] None [])
    as [rows current].
  simpl in Hsweep. rewrite <- Hs, <- Hsweep.
  destruct current as [|p current]; [by rewrite app_nil_r|].
  by rewrite concat_snoc.
Qed.

Lemma assign_points_perm centers points : forall clusters clusters',
  assign_points centers points clusters = Some clusters' ->
  concat clusters' ≡ₚ concat clusters ++ points /\
  length clusters' = length clusters.
Proof.
  induction points as [|p points IH]; intros clusters clusters' Hrun;
    simpl in Hrun.
  - injection Hrun as <-. by rewrite app_nil_r.
  - destruct (argmin _) as [ci|]; [|done]. simpl in Hrun.
    destruct (getitem clusters ci) as [row|] eqn:Hget; [|done].
    simpl in Hrun.
    destruct (setitem clusters ci (row ++ [p])) as [clusters1|] eqn:Hset;
      [|done].
    simpl in Hrun.
    destruct (getitem_setitem_same _ _ _ _ _ Hget Hset) as (n & Hn & ->).
    apply IH in Hrun as [Hperm Hlen].
    rewrite length_insert in Hlen. split; [|done].
    rewrite Hperm, (concat_insert_snoc _ _ _ _ Hn), <- app_assoc. done.
Qed.

Lemma concat_replicate_nil {A} n : concat (replicate n (@nil A)) = [].
Proof. induction n as [|n IH]; simpl; done. Qed.

Lemma cluster_rounds_perm points rows_count : forall rounds centers clusters
    centers' clusters',
  length centers = Z.to_nat rows_count ->
  (rounds = 0%nat ->
   concat clusters ≡ₚ points /\ length clusters = Z.to_nat rows_count) ->
  cluster_rounds rounds points rows_count centers clusters
  = Some (centers', clusters') ->
  concat clusters' ≡ₚ points /\
  length clusters' = Z.to_nat rows_count /\
  length centers' = Z.to_nat rows_count.
Proof.
  induction rounds as [|rounds IH];
    intros centers clusters centers' clusters' Hc H0 Hrun; simpl in Hrun.
  - injection Hrun as <- <-. destruct (H0 eq_refl). done.
  - destruct (assign_points centers points
                (replicate (Z.to_nat rows_count) [])) as [clusters1|] eqn:E;
      [|done].
    simpl in Hrun.
    apply assign_points_perm in E as [Hperm Hlen].
    rewrite concat_replicate_nil in Hperm. simpl in Hperm.
    rewrite length_replicate in Hlen.
    assert (Hnew : length (zip_with new_center centers clusters1)
                   = Z.to_nat rows_count).
    { rewrite length_zip_with. lia. }
    destruct (float_max _) as [delta|]; [|done]. simpl in Hrun.
    destruct (delta <? 1e-3)%float.
    + by injection Hrun as <- <-.
    + eapply IH; [exact Hnew| |exact Hrun]. done.
Qed.

Lemma length_initial_centers ys rows_count idxs centers :
  initial_centers ys rows_count idxs = Some centers ->
  length centers = length idxs.
Proof.
  revert centers. induction idxs as [|i idxs IH]; intros centers Hrun;
    simpl in Hrun.
  - by injection Hrun as <-.
  - destruct (Lut.int_of_float _) as [idx|]; [|done]. simpl in Hrun.
    destruct (getitem ys idx) as [c|]; [|done]. simpl in Hrun.
    destruct (initial_centers ys rows_count idxs) as [cs|]; [|done].
    injection Hrun as <-. simpl. f_equal. by apply IH.
Qed.

Lemma concat_singletons {A} (l : list A) :
  concat (map (fun p => [p]) l) = l.
Proof. induction l as [|p l IH]; simpl; [done|]. by rewrite IH. Qed.

Lemma cluster_rows_perm points rows_count rows :
  0 <= rows_count ->
  _cluster_rows points rows_count = Some rows -> concat rows ≡ₚ points.
Proof.
  intros Hk. unfold _cluster_rows.
  pose proof (sorted_perm (fun y : float => y) float_lt false (map pt_y points))
    as Hys.
  destruct (sorted (fun y : float => y) float_lt false (map pt_y points))
    as [|y ys] eqn:Eys.
  { intros [= <-]. apply Permutation_nil in Hys.
    destruct points; [done|discriminate]. }
  destruct (len (y :: ys) <=? rows_count).
  { intros [= <-]. rewrite concat_singletons.
    apply (sorted_perm pt_y float_lt false). }
  destruct (initial_centers (y :: ys) rows_count (range 0 rows_count 1))
    as [centers|] eqn:Ec; [|done].
  apply length_initial_centers in Ec.
  assert (Hr : length (range 0 rows_count 1) = Z.to_nat rows_count).
  { rewrite <- (Z2Nat.id rows_count) at 1 by done.
    by rewrite DeviceOrder.range_identity, length_map, length_seq. }
  rewrite Hr in Ec.
  cbn [mbind option_bind].
  destruct (cluster_rounds 20 points rows_count centers [])
    as [[centers' clusters']|] eqn:Er; [|done].
  intros [= <-].
  apply cluster_rounds_perm in Er as (Hperm & Hlen & Hlen'); [|done|done].
  rewrite <- Hperm.
  apply concat_perm.
  rewrite (Permutation_map snd
             (sorted_perm fst float_lt false (zip centers' clusters'))).
  change (map snd (zip centers' clusters')) with ((zip centers' clusters').*2).
  rewrite snd_zip by lia. done.
Qed.

Lemma collect_points_idx flip_x flip_y swap_xy positions : forall idx points,
  collect_points positions idx flip_x flip_y swap_xy = Some points ->
  map pt_idx points
  = map (fun k => idx + Z.of_nat k) (seq 0 (length positions)).
Proof.
  induction positions as [|pos positions IH]; intros idx points Hrun;
    simpl in Hrun.
  - by injection Hrun as <-.
  - destruct (p_x pos) as [x|]; [|done]. simpl in Hrun.
    destruct (p_y pos) as [y|]; [|done]. simpl in Hrun.
    destruct (if swap_xy then _ else _) as [fx fy].
    destruct (collect_points positions (idx + 1) flip_x flip_y swap_xy)
      as [ps|] eqn:E; [|done].
    injection Hrun as <-. simpl. f_equal; [unfold pt_idx; simpl; lia|].
    rewrite (IH _ _ E). rewrite <- seq_shift, map_map.
    apply map_ext. intros k. lia.
Qed.

(** X12: whatever the positions, the tolerance, the directions, the
    number of rows, the flips and the mode, an order that
    [_compute_serpentine_order] returns holds every LED index of the
    device exactly once: it is a permutation of [0, 1, ..., n - 1] for the
    [n] positions given. *)
Theorem serpentine_order_is_permutation positions row_tolerance first_dir
    row_order rows_count flip_x flip_y swap_xy mode order :
  _compute_serpentine_order positions row_tolerance first_dir row_order
    rows_count flip_x flip_y swap_xy mode = Some (Some order) ->
  order ≡ₚ map Z.of_nat (seq 0 (length positions)).
Proof.
  unfold _compute_serpentine_order.
  destruct positions as [|pos positions]; [done|].
  destruct (collect_points (pos :: positions) 0 flip_x flip_y swap_xy)
    as [points|] eqn:Ep; [|done].
  apply collect_points_idx in Ep.
  set (clustered :=
         match rows_count with
         | Some k => if 1 <? k then _cluster_rows points k else Some []
         | None => Some []
         end).
  assert (Hc : forall rows, clustered = Some rows ->
                 rows = [] \/ concat rows ≡ₚ points).
  { intros rows. unfold clustered.
    destruct rows_count as [k|]; [|intros [= <-]; by left].
    destruct (Z.ltb_spec 1 k); [|intros [= <-]; by left].
    intros Hrun. right. eapply cluster_rows_perm; [|exact Hrun]. lia. }
  destruct clustered as [rows|]; [|done]. cbn [mbind option_bind].
  intros [= <-].
  rewrite emit_rows_perm.
  transitivity (map pt_idx points).
  2:{ rewrite Ep.
      assert (map (fun k => 0 + Z.of_nat k) (seq 0 (length (pos :: positions)))
              = map Z.of_nat (seq 0 (length (pos :: positions)))) as ->
        by (apply map_ext; intros k; lia).
      done. }
  apply Permutation_map.
  destruct (Hc rows eq_refl) as [->|Hperm].
  - apply rows_by_tolerance_perm.
  - destruct rows as [|row rows]; [apply rows_by_tolerance_perm|done].
Qed.

(** The two by two grid, clustered in two rows. *)
Lemma serpentine_order_is_permutation_witness :
  [0; 1; 3; 2] ≡ₚ map Z.of_nat (seq 0 4).
Proof.
  apply (serpentine_order_is_permutation (Samples.four_positions 7 8 9 10)
           None None None (Some 2) false false false None).
  vm_compute. reflexivity.
Defined.

End OrderPermutation.

(* --------------------------------------------------------------------- *)
(** ** What the loop keeps, and when it stops *)
(* --------------------------------------------------------------------- *)

Module LoopFacts.
Import Py PyFacts Decoders Mapper Runtime Notions LoopNotions DecoderSafety
  DecoderFacts PacketLoop.

(** *** The dispatch never resizes the buffer *)

Lemma looks_like_ddp_nil : looks_like_ddp [] = Some false.
Proof. reflexivity. Qed.

Lemma looks_like_ddp_nonempty data :
  looks_like_ddp data = Some true -> data <> [].
Proof. by intros Hd ->. Qed.

Lemma parse_ddp_nil fb : parse_ddp [] fb = None.
Proof. reflexivity. Qed.

Lemma decode_packet_raises protocol data fb :
  decode_packet protocol data fb = None <-> data = [] /\ protocol = "ddp".
Proof.
  unfold decode_packet.
  pose proof (looks_like_ddp_nonempty data) as Hne.
  destruct (DdpClassifier.looks_like_ddp_total data) as [ddp_like Hl].
  rewrite Hl in *. cbn [mbind option_bind].
  destruct (String.eqb_spec protocol "ddp") as [->|Hp]; simpl.
  - destruct data as [|b0 rest]; [by rewrite parse_ddp_nil|].
    destruct (parse_ddp_ok (b0 :: rest) fb) as (fb' & -> & _); [done|].
    simpl. split; [done|]. by intros [? _].
  - assert (Hno : forall T (x : T), Some x = None <-> data = [] /\ protocol = "ddp").
    { intros T x. split; [done|]. by intros [_ ?]. }
    destruct ((String.eqb protocol "auto" || String.eqb protocol "wled")
              && ddp_like) eqn:E.
    + apply andb_prop in E as [_ ->].
      destruct (parse_ddp_ok data fb) as (fb' & -> & _); [by apply Hne|].
      simpl. apply Hno.
    + destruct (String.eqb protocol "wled").
      { destruct (parse_wled_or_raw_ok data fb) as (fb' & -> & _). apply Hno. }
      destruct (String.eqb protocol "raw").
      { destruct (_ =? 0); apply Hno. }
      destruct (parse_wled_or_raw_ok data fb) as (fb' & -> & _). apply Hno.
Qed.

Lemma length_raw_copy (data fb : list byte) :
  length (slice_assign fb 0 (Z.min (len fb) (len data)) (slice_to data (len fb)))
  = length fb.
Proof.
  pose proof (len_nonneg fb). pose proof (len_nonneg data).
  apply length_slice_assign_fit; [lia|lia|].
  rewrite slice_to_take by lia. rewrite length_take. unfold len. lia.
Qed.

Lemma decode_packet_length protocol data fb emit fb' :
  decode_packet protocol data fb = Some (emit, fb') ->
  length fb' = length fb.
Proof.
  unfold decode_packet.
  destruct (DdpClassifier.looks_like_ddp_total data) as [ddp_like ->].
  cbn [mbind option_bind].
  assert (Hddp : forall r, (parse_ddp data fb ≫= λ '(push, fb0), Some (push, fb0)) = Some r ->
                   length r.2 = length fb).
  { intros r. destruct data as [|b0 rest]; [done|].
    destruct (parse_ddp_ok (b0 :: rest) fb) as (fb1 & -> & Hlen); [done|].
    simpl. by intros [= <-]. }
  assert (Hwled : forall r, (parse_wled_or_raw data fb ≫= λ fb0, Some (true, fb0)) = Some r ->
                   length r.2 = length fb).
  { intros r. destruct (parse_wled_or_raw_ok data fb) as (fb1 & -> & Hlen).
    simpl. by intros [= <-]. }
  destruct (_ || _).
  { intros Hrun. by apply Hddp in Hrun. }
  destruct (String.eqb protocol "wled").
  { intros Hrun. by apply Hwled in Hrun. }
  destruct (String.eqb protocol "raw").
  { destruct (_ =? 0); intros [= <- <-]; [apply length_raw_copy|done]. }
  intros Hrun. by apply Hwled in Hrun.
Qed.


(** X13: the datagrams that stop the loop.  Handling a readiness event
    raises out of the loop in one case only: the socket delivered an empty
    datagram for a group whose protocol is "ddp".  A socket that raises,
    a reference to no group, every non-empty datagram and every datagram
    on a group of another protocol are handled and the loop goes on. *)
Theorem handle_event_raises_only_on_empty_ddp {S} `{Sdk S}
    (attempt_reconnect : string -> Loop S -> Loop S) cfg now gid recv st :
  Runtime.handle_event attempt_reconnect cfg now gid recv st = None <->
  exists g, recv = Some [] /\ l_groups st !! gid = Some g /\
            g_protocol g = "ddp".
Proof.
  destruct recv as [data|].
  2:{ simpl. split; [done|]. by intros (g & ? & _). }
  destruct (l_groups st !! gid) as [g|] eqn:Hg.
  2:{ unfold Runtime.handle_event. rewrite Hg.
      split; [done|]. by intros (g & _ & ? & _). }
  rewrite (handle_event_unfold attempt_reconnect cfg now gid data st g Hg).
  pose proof (decode_packet_raises (g_protocol g) data (g_frame_buffer g))
    as Hraise.
  destruct (decode_packet _ _ _) as [[emit fb]|].
  - cbv zeta. split.
    + destruct (negb emit); [done|]. by destruct (_ && _).
    + intros (g' & [= ->] & [= <-] & Hp).
      discriminate (proj2 Hraise (conj eq_refl Hp)).
  - destruct (proj1 Hraise eq_refl) as [-> Hp]. split; [|done].
    intros _. by exists g.
Qed.

(** *** Raw frames *)

(** X15: on a group whose protocol is "raw", a datagram of a multiple of
    three bytes is copied over the head of the frame buffer and nothing is
    cleared: the bytes past the end of the datagram keep the value they
    had, and the buffer keeps its length. *)
Theorem raw_protocol_keeps_tail data fb :
  len data mod 3 = 0 ->
  exists fb',
    decode_packet "raw" data fb = Some (true, fb') /\
    length fb' = length fb /\
    (forall j, (j < length data)%nat -> (j < length fb)%nat ->
               fb' !! j = data !! j) /\
    (forall j, (length data <= j)%nat -> fb' !! j = fb !! j).
Proof.
  intros Hmod. rewrite decode_packet_raw.
  apply Z.eqb_eq in Hmod. rewrite Hmod.
  eexists. split; [reflexivity|]. split; [apply length_raw_copy|].
  pose proof (len_nonneg fb). pose proof (len_nonneg data).
  assert (Hsrc : length (slice_to data (len fb))
                 = Z.to_nat (Z.min (len fb) (len data) - 0)).
  { rewrite slice_to_take by lia. rewrite length_take. unfold len. lia. }
  split; intros j Hj.
  - intros Hj'.
    rewrite lookup_slice_assign_fit by (try exact Hsrc; lia).
    destruct (Z.ltb_spec (Z.of_nat j) 0); [lia|].
    destruct (Z.ltb_spec (Z.of_nat j) (Z.min (len fb) (len data)));
      [|unfold len in *; lia].
    rewrite slice_to_take by lia.
    change (Z.to_nat 0) with 0%nat. rewrite Nat.sub_0_r.
    apply lookup_take_lt. unfold len. lia.
  - rewrite lookup_slice_assign_fit by (try exact Hsrc; lia).
    destruct (Z.ltb_spec (Z.of_nat j) 0); [lia|].
    destruct (Z.ltb_spec (Z.of_nat j) (Z.min (len fb) (len data)));
      [unfold len in *; lia|done].
Qed.

Lemma raw_protocol_keeps_tail_witness :
  exists fb',
    decode_packet "raw" Samples.six_bytes (bytes [9; 9; 9; 9; 9; 9; 9; 9; 9]%N)
    = Some (true, fb') /\
    length fb' = 9%nat /\
    (forall j, (j < 6)%nat -> (j < 9)%nat -> fb' !! j = Samples.six_bytes !! j) /\
    (forall j, (6 <= j)%nat ->
               fb' !! j = bytes [9; 9; 9; 9; 9; 9; 9; 9; 9]%N !! j).
Proof.
  apply (raw_protocol_keeps_tail Samples.six_bytes
           (bytes [9; 9; 9; 9; 9; 9; 9; 9; 9]%N)).
  reflexivity.
Defined.

(** *** The shape of a group *)

Lemma same_shape_refl g : same_shape g g.
Proof. by repeat split. Qed.

Lemma same_shape_trans g g0 g1 :
  same_shape g g0 -> same_shape g0 g1 -> same_shape g g1.
Proof.
  unfold same_shape. intros H0 H1. destruct_and!. repeat split; congruence.
Qed.

Lemma received_shape cfg now data g g0 :
  same_shape g g0 -> same_shape g (received cfg now data g0).
Proof.
  unfold received, mark_ddp_auto, note_packet, same_shape.
  destruct (_ && _); destruct (g_first_packet g0), (debug_udp cfg); simpl;
    tauto.
Qed.

Lemma frames_sized_nil gid n : frames_sized gid n [].
Proof. intros origin frame res Hin. by apply elem_of_nil in Hin. Qed.

Lemma frames_sized_app gid n evs1 evs2 :
  frames_sized gid n evs1 -> frames_sized gid n evs2 ->
  frames_sized gid n (evs1 ++ evs2).
Proof.
  intros H1 H2 origin frame res Hin.
  apply elem_of_app in Hin as [Hin|Hin]; eauto.
Qed.

Section Loop.

Context {S : Type} `{Sdk S}.

Variable attempt_reconnect : string -> Loop S -> Loop S.
Variable request_control : World S -> World S.
Variable is_icue_connected : World S -> bool * World S.

Lemma shape_of_lookup gid g g0 (st : Loop S) :
  shaped gid g st -> l_groups st !! gid = Some g0 -> same_shape g g0.
Proof. intros (g' & Hg' & Hs) Hg0. by simplify_eq. Qed.

Lemma keeps_shape_refl gid g (st : Loop S) :
  shaped gid g st -> keeps_shape gid g st st.
Proof.
  intros Hs. split; [done|]. exists [].
  split; [by rewrite app_nil_r|apply frames_sized_nil].
Qed.

Lemma keeps_shape_trans gid g (st1 st2 st3 : Loop S) :
  keeps_shape gid g st1 st2 -> keeps_shape gid g st2 st3 ->
  keeps_shape gid g st1 st3.
Proof.
  intros (_ & evs1 & Hl1 & Hf1) (Hs & evs2 & Hl2 & Hf2). split; [done|].
  exists (evs1 ++ evs2). split; [by rewrite Hl2, Hl1, app_assoc|].
  by apply frames_sized_app.
Qed.

Lemma keeps_shape_same gid g (st st' : Loop S) :
  shaped gid g st -> l_groups st' = l_groups st -> l_log st' = l_log st ->
  keeps_shape gid g st st'.
Proof.
  intros (g' & Hg' & Hs) Hgr Hlog. split.
  - exists g'. by rewrite Hgr.
  - exists []. split; [by rewrite Hlog, app_nil_r|apply frames_sized_nil].
Qed.

Lemma keeps_shape_update_group gid gid' g g' (st : Loop S) :
  shaped gid g st -> (gid' = gid -> same_shape g g') ->
  keeps_shape gid g st (update_group st gid' g').
Proof.
  intros (g0 & Hg0 & Hs) Hg'. split.
  - destruct (decide (gid' = gid)) as [->|Hne].
    + exists g'. split; [apply lookup_insert_eq|by apply Hg'].
    + exists g0. split; [|done]. simpl. by rewrite lookup_insert_ne.
  - exists []. split; [simpl; by rewrite app_nil_r|apply frames_sized_nil].
Qed.

Lemma frames_sized_other gid n (e : LoopEvent) :
  (forall origin frame res, e = EvApply origin gid frame res ->
                            length frame = n) ->
  frames_sized gid n [e].
Proof.
  intros He origin frame res Hin.
  apply list_elem_of_singleton in Hin. eauto.
Qed.

Lemma keeps_shape_call_apply cfg origin gid gid' g g0 frame (st : Loop S) :
  shaped gid g st ->
  (gid' = gid -> length frame = length (g_frame_buffer g)) ->
  keeps_shape gid g st (call_apply cfg origin gid' g0 frame st).2.
Proof.
  intros (g1 & Hg1 & Hs) Hlen. split.
  - exists g1. by rewrite call_apply_groups.
  - eexists. split; [apply call_apply_log|].
    apply frames_sized_other. intros o f r [= _ -> <- _]. by apply Hlen.
Qed.

Section Reconnect.

(** A reconnection leaves the group objects that exist alone: it builds
    new ones. *)
Hypothesis reconnect_keeps_groups : forall reason st gid g,
  l_groups st !! gid = Some g ->
  l_groups (attempt_reconnect reason st) !! gid = Some g.

Lemma keeps_shape_reconnect gid g reason st :
  shaped gid g st ->
  keeps_shape gid g st (do_reconnect attempt_reconnect reason st).
Proof.
  intros (g' & Hg' & Hs). split.
  - exists g'. split; [|done]. simpl. by apply reconnect_keeps_groups.
  - eexists. split; [reflexivity|].
    apply frames_sized_other. by intros o f r [=].
Qed.

Lemma keeps_shape_request_control gid g st :
  shaped gid g st ->
  keeps_shape gid g st (do_request_control request_control st).
Proof.
  intros Hs. split; [done|].
  eexists. split; [reflexivity|].
  apply frames_sized_other. by intros o f r [=].
Qed.

Lemma fold_left_keeps_shape {A} gid g (f : Loop S -> A -> Loop S)
    (l : list A) :
  (forall st x, shaped gid g st -> keeps_shape gid g st (f st x)) ->
  forall st, shaped gid g st -> keeps_shape gid g st (fold_left f l st).
Proof.
  intros Hf. induction l as [|x l IH]; intros st Hst; simpl.
  - by apply keeps_shape_refl.
  - pose proof (Hf st x Hst) as Hq.
    eapply keeps_shape_trans; [exact Hq|]. apply IH. apply Hq.
Qed.

Lemma request_control_block_shape cfg now gid g st :
  shaped gid g st ->
  keeps_shape gid g st (request_control_block request_control cfg now st).
Proof.
  intros Hs. unfold request_control_block.
  destruct (_ && _); [|by apply keeps_shape_refl].
  pose proof (keeps_shape_request_control gid g st Hs) as Hq.
  eapply keeps_shape_trans; [exact Hq|].
  apply keeps_shape_same; [apply Hq|done|done].
Qed.

Lemma keepalive_due_shape cfg now gid g gids : forall st : Loop S,
  shaped gid g st -> keeps_shape gid g st (keepalive_due cfg now gids st).1.
Proof.
  induction gids as [|gid' gids IH]; intros st Hs; simpl.
  - by apply keeps_shape_refl.
  - destruct (l_groups st !! gid') as [g0|] eqn:Hg; [|by apply IH].
    destruct (_ <? _)%float; [by apply IH|].
    cbv zeta.
    assert (Hq : keeps_shape gid g st
                   (update_group st gid' (set_last_keepalive g0 now))).
    { apply keeps_shape_update_group; [done|]. intros ->.
      exact (shape_of_lookup _ _ _ _ Hs Hg). }
    pose proof (IH _ (proj1 Hq)) as Hrest.
    destruct (keepalive_due cfg now gids _) as [st' dues]. simpl in *.
    exact (keeps_shape_trans _ _ _ _ _ Hq Hrest).
Qed.

Lemma keepalive_apply_shape cfg active gid g gid' st :
  shaped gid g st ->
  keeps_shape gid g st (keepalive_apply attempt_reconnect cfg active gid' st).
Proof.
  intros Hs. unfold keepalive_apply.
  destruct (l_groups st !! gid') as [g0|] eqn:Hg;
    [|by apply keeps_shape_refl].
  assert (Hshape : gid' = gid -> same_shape g g0).
  { intros ->. exact (shape_of_lookup _ _ _ _ Hs Hg). }
  assert (Hlen : gid' = gid ->
                 length (g_frame_buffer g0) = length (g_frame_buffer g)).
  { intros Heq. apply (Hshape Heq). }
  pose proof (keeps_shape_call_apply cfg ByKeepalive gid gid' g g0
                (g_frame_buffer g0) st Hs Hlen) as Hc.
  destruct (call_apply cfg ByKeepalive gid' g0 (g_frame_buffer g0) st)
    as [res st1].
  simpl in Hc.
  assert (Hup : forall v, keeps_shape gid g st
                            (update_group st1 gid' (set_fail_count g0 v))).
  { intros v. eapply keeps_shape_trans; [exact Hc|].
    apply keeps_shape_update_group; [apply Hc|exact Hshape]. }
  destruct res as [[|]|]; [exact Hc| |].
  - destruct (_ <=? _); [|apply Hup].
    destruct (_ && _); [apply Hup|].
    eapply keeps_shape_trans; [apply Hup|].
    apply keeps_shape_reconnect. apply Hup.
  - destruct (_ && _); [exact Hc|].
    eapply keeps_shape_trans; [exact Hc|].
    apply keeps_shape_reconnect. apply Hc.
Qed.

Lemma keepalive_block_shape cfg now active gid g st :
  shaped gid g st ->
  keeps_shape gid g st
    (keepalive_block attempt_reconnect request_control cfg now active st).
Proof.
  intros Hs. unfold keepalive_block.
  destruct (keepalive_enabled cfg); [|by apply keeps_shape_refl].
  pose proof (keepalive_due_shape cfg now gid g (l_runtime_groups st) st Hs)
    as Hdue.
  destruct (keepalive_due cfg now (l_runtime_groups st) st) as [st1 dues].
  simpl in Hdue.
  set (st2 := match dues with
              | [] => st1
              | _ :: _ => if keepalive_request_always cfg
                          then do_request_control request_control st1
                          else st1
              end).
  assert (H2 : keeps_shape gid g st st2).
  { subst st2. destruct dues; [exact Hdue|].
    destruct (keepalive_request_always cfg); [|exact Hdue].
    eapply keeps_shape_trans; [exact Hdue|].
    apply keeps_shape_request_control. apply Hdue. }
  destruct (keepalive_reapply cfg); [|exact H2].
  eapply keeps_shape_trans; [exact H2|].
  apply fold_left_keeps_shape; [|apply H2].
  intros st' due Hst'. by apply keepalive_apply_shape.
Qed.

Lemma idle_clear_group_shape cfg now gid g gid' (st : Loop S) :
  shaped gid g st -> keeps_shape gid g st (idle_clear_group cfg now gid' st).
Proof.
  intros Hs. unfold idle_clear_group.
  destruct (l_groups st !! gid') as [g0|] eqn:Hg;
    [|by apply keeps_shape_refl].
  destruct (g_idle_clear_disabled g0); [by apply keeps_shape_refl|].
  destruct (negb _); [by apply keeps_shape_refl|].
  destruct (_ <? _)%float; [by apply keeps_shape_refl|].
  destruct (g_idle_cleared g0); [by apply keeps_shape_refl|].
  cbv zeta. rewrite IdleClear.slice_assign_all.
  set (frame := zeros (len (g_frame_buffer g0))).
  assert (Hframe : length frame = length (g_frame_buffer g0)).
  { unfold frame. rewrite length_zeros; unfold len; lia. }
  assert (Hshape : gid' = gid -> same_shape g g0).
  { intros ->. exact (shape_of_lookup _ _ _ _ Hs Hg). }
  assert (Hshape' : forall g1, same_shape g0 g1 -> gid' = gid ->
                               same_shape g g1).
  { intros g1 Hs1 Heq. exact (same_shape_trans _ _ _ (Hshape Heq) Hs1). }
  assert (H1 : keeps_shape gid g st
                 (update_group st gid' (set_frame_buffer g0 frame))).
  { apply keeps_shape_update_group; [done|].
    apply Hshape'. unfold same_shape. simpl. by repeat split. }
  pose proof (keeps_shape_call_apply cfg ByIdleClear gid gid' g
                (set_frame_buffer g0 frame) frame _ (proj1 H1)) as Hc.
  destruct (call_apply cfg ByIdleClear gid' (set_frame_buffer g0 frame) frame
              (update_group st gid' (set_frame_buffer g0 frame)))
    as [res st1].
  simpl in Hc.
  assert (H2 : keeps_shape gid g st st1).
  { eapply keeps_shape_trans; [exact H1|]. apply Hc.
    intros Heq. rewrite Hframe. apply (Hshape Heq). }
  destruct res as [[|]|]; try exact H2.
  eapply keeps_shape_trans; [exact H2|].
  apply keeps_shape_update_group; [apply H2|].
  apply Hshape'. unfold same_shape. simpl. by repeat split.
Qed.

Lemma idle_clear_block_shape cfg now active gid g (st : Loop S) :
  shaped gid g st -> keeps_shape gid g st (idle_clear_block cfg now active st).
Proof.
  intros Hs. unfold idle_clear_block.
  destruct (_ && _); [|by apply keeps_shape_refl].
  apply fold_left_keeps_shape; [|done].
  intros st' gid' Hst'. by apply idle_clear_group_shape.
Qed.

Lemma watchdog_block_shape cfg now gid g st :
  shaped gid g st ->
  keeps_shape gid g st
    (watchdog_block attempt_reconnect is_icue_connected cfg now st).
Proof.
  intros Hs. unfold watchdog_block.
  destruct (_ && _); [|by apply keeps_shape_refl]. cbv zeta.
  destruct (_ && _); [by apply keeps_shape_same|].
  destruct (_ && _); [by apply keeps_shape_same|].
  destruct (is_icue_connected _) as [connected w].
  destruct connected; simpl; [by apply keeps_shape_same|].
  destruct (_ <=? _); [|by apply keeps_shape_same].
  match goal with
  | |- keeps_shape _ _ _ (do_reconnect _ _ ?X) =>
      assert (Hx : keeps_shape gid g st X) by (by apply keeps_shape_same);
      eapply keeps_shape_trans; [exact Hx|];
      apply keeps_shape_reconnect; apply Hx
  end.
Qed.

Lemma debug_stats_block_shape cfg now gid g (st : Loop S) :
  shaped gid g st -> keeps_shape gid g st (debug_stats_block cfg now st).
Proof.
  intros Hs. unfold debug_stats_block.
  destruct (debug_udp cfg); [|by apply keeps_shape_refl].
  apply fold_left_keeps_shape; [|done].
  intros st' gid' Hst'.
  destruct (l_groups st' !! gid') as [g0|] eqn:Hg;
    [|by apply keeps_shape_refl].
  destruct (_ <=? _)%float; [|by apply keeps_shape_refl].
  apply keeps_shape_update_group; [done|]. intros ->.
  exact (shape_of_lookup _ _ _ _ Hst' Hg).
Qed.

Lemma apply_packet_shape cfg now gid g gid' g0 st :
  shaped gid g st -> (gid' = gid -> same_shape g g0) ->
  keeps_shape gid g st (apply_packet attempt_reconnect cfg now gid' g0 st).
Proof.
  intros Hs Hshape. unfold apply_packet. cbv zeta.
  assert (H1 : keeps_shape gid g st (update_group st gid' (set_last_send g0 now))).
  { by apply keeps_shape_update_group. }
  match goal with
  | |- context [call_apply ?c ?o ?i ?gg ?f ?s] =>
      pose proof (keeps_shape_call_apply c o gid i g gg f s (proj1 H1)) as Hc;
      destruct (call_apply c o i gg f s) as [res st2]
  end.
  simpl in Hc.
  assert (H2 : keeps_shape gid g st st2).
  { eapply keeps_shape_trans; [exact H1|]. apply Hc.
    intros Heq. apply (Hshape Heq). }
  assert (Hup : forall v, keeps_shape gid g st
                  (update_group st2 gid' (set_fail_count (set_last_send g0 now) v))).
  { intros v. eapply keeps_shape_trans; [exact H2|].
    apply keeps_shape_update_group; [apply H2|done]. }
  destruct res as [[|]|]; [apply Hup| |].
  - destruct (_ <=? _); [|apply Hup].
    eapply keeps_shape_trans; [apply Hup|].
    apply keeps_shape_reconnect. apply Hup.
  - eapply keeps_shape_trans; [exact H2|].
    apply keeps_shape_reconnect. apply H2.
Qed.

Lemma handle_event_shape cfg now gid g gid' recv st st' :
  shaped gid g st ->
  Runtime.handle_event attempt_reconnect cfg now gid' recv st = Some st' ->
  keeps_shape gid g st st'.
Proof.
  intros Hs.
  destruct recv as [data|]; [|intros [= <-]; by apply keeps_shape_refl].
  destruct (l_groups st !! gid') as [g0|] eqn:Hg.
  2:{ unfold Runtime.handle_event. rewrite Hg.
      intros [= <-]. by apply keeps_shape_refl. }
  rewrite (handle_event_unfold attempt_reconnect cfg now gid' data st g0 Hg).
  destruct (decode_packet _ _ _) as [[emit fb]|] eqn:Hdec; [|done].
  apply decode_packet_length in Hdec.
  assert (Hshape : gid' = gid ->
            same_shape g (set_frame_buffer (received cfg now data g0) fb)).
  { intros ->. pose proof (shape_of_lookup _ _ _ _ Hs Hg) as Hs0.
    pose proof (received_shape cfg now data g g0 Hs0) as Hr.
    unfold same_shape in *. simpl. rewrite Hdec.
    rewrite received_frame_buffer in Hr.
    destruct_and!. repeat split; congruence. }
  cbv zeta.
  destruct (negb emit).
  { intros [= <-]. by apply keeps_shape_update_group. }
  destruct (_ && _).
  { intros [= <-]. by apply keeps_shape_update_group. }
  intros [= <-]. by apply apply_packet_shape.
Qed.

Lemma handle_events_shape cfg now gid g events : forall st st',
  shaped gid g st ->
  handle_events attempt_reconnect cfg now events st = Some st' ->
  keeps_shape gid g st st'.
Proof.
  induction events as [|[gid' recv] events IH]; intros st st' Hs; simpl.
  - intros [= <-]. by apply keeps_shape_refl.
  - destruct (Runtime.handle_event attempt_reconnect cfg now gid' recv st)
      as [st1|] eqn:E; simpl; [|done].
    intros Hrest.
    pose proof (handle_event_shape _ _ _ _ _ _ _ _ Hs E) as H1.
    eapply keeps_shape_trans; [exact H1|]. eapply IH; [apply H1|done].
Qed.

Lemma loop_iteration_shape cfg now gid g events st st' :
  shaped gid g st ->
  loop_iteration attempt_reconnect request_control is_icue_connected
    cfg now events st = Some st' ->
  keeps_shape gid g st st'.
Proof.
  intros Hs. unfold loop_iteration. cbv zeta.
  pose proof (request_control_block_shape cfg now gid g st Hs) as H1.
  set (st1 := request_control_block request_control cfg now st) in *.
  set (active := any_active_recent cfg now st1).
  pose proof (keepalive_block_shape cfg now active gid g st1 (proj1 H1)) as H2.
  set (st2 := keepalive_block _ _ cfg now active st1) in *.
  pose proof (idle_clear_block_shape cfg now active gid g st2 (proj1 H2)) as H3.
  set (st3 := idle_clear_block cfg now active st2) in *.
  pose proof (watchdog_block_shape cfg now gid g st3 (proj1 H3)) as H4.
  set (st4 := watchdog_block _ _ cfg now st3) in *.
  pose proof (debug_stats_block_shape cfg now gid g st4 (proj1 H4)) as H5.
  set (st5 := debug_stats_block cfg now st4) in *.
  intros Hrun.
  pose proof (handle_events_shape _ _ _ _ _ _ _ (proj1 H5) Hrun) as H6.
  exact (keeps_shape_trans _ _ _ _ _ H1 (keeps_shape_trans _ _ _ _ _ H2
           (keeps_shape_trans _ _ _ _ _ H3 (keeps_shape_trans _ _ _ _ _ H4
              (keeps_shape_trans _ _ _ _ _ H5 H6))))).
Qed.

(** X16: the loop never resizes a frame buffer.  Over any number of
    iterations, whatever arrives, a group object keeps its name, protocol,
    map, devices, update mode, LED count and idle and keepalive settings,
    and its frame buffer keeps its length; and every frame that the loop
    hands to [apply_frame_map] for this group, be it from a packet, a
    keepalive or an idle clear, has the length of that buffer. *)
Theorem loop_keeps_group_shape cfg iterations gid g : forall st st',
  l_groups st !! gid = Some g ->
  run_iterations attempt_reconnect request_control is_icue_connected
    cfg iterations st = Some st' ->
  (exists g', l_groups st' !! gid = Some g' /\ same_shape g g') /\
  exists evs,
    l_log st' = l_log st ++ evs /\
    forall origin frame res,
      EvApply origin gid frame res ∈ evs ->
      length frame = length (g_frame_buffer g).
Proof.
  assert (Hall : forall st st', shaped gid g st ->
            run_iterations attempt_reconnect request_control is_icue_connected
              cfg iterations st = Some st' ->
            keeps_shape gid g st st').
  { induction iterations as [|[now events] its IH]; intros st st' Hs; simpl.
    - intros [= <-]. by apply keeps_shape_refl.
    - destruct (loop_iteration _ _ _ cfg now events st) as [st1|] eqn:E;
        simpl; [|done].
      intros Hrest.
      pose proof (loop_iteration_shape _ _ _ _ _ _ _ Hs E) as H1.
      eapply keeps_shape_trans; [exact H1|]. eapply IH; [apply H1|done]. }
  intros st st' Hg Hrun.
  apply (Hall st st'); [|done].
  exists g. split; [done|apply same_shape_refl].
Qed.

(** *** Groups are independent *)

Lemma apply_packet_other cfg now gid gid' g g' st :
  gid' <> gid -> l_groups st !! gid' = Some g' ->
  l_groups (apply_packet attempt_reconnect cfg now gid g st) !! gid' = Some g'.
Proof.
  intros Hne Hg'. unfold apply_packet. cbv zeta.
  match goal with
  | |- context [call_apply ?c ?o ?i ?gg ?f ?s] =>
      pose proof (call_apply_groups c o i gg f s) as Hgr;
      destruct (call_apply c o i gg f s) as [res st2]
  end.
  simpl in Hgr.
  assert (H2 : l_groups st2 !! gid' = Some g').
  { rewrite Hgr. simpl. by rewrite lookup_insert_ne. }
  assert (Hup : forall g1, l_groups (update_group st2 gid g1) !! gid' = Some g').
  { intros g1. simpl. by rewrite lookup_insert_ne. }
  destruct res as [[|]|]; [apply Hup| |].
  - destruct (_ <=? _); [|apply Hup].
    simpl. apply reconnect_keeps_groups. apply Hup.
  - simpl. by apply reconnect_keeps_groups.
Qed.

(** X17: a datagram concerns its group only.  Handling a readiness event
    of one group leaves every other group object exactly as it was: frame
    buffer, timestamps, counters and flags. *)
Theorem handle_event_leaves_other_groups cfg now gid gid' recv g' st st' :
  gid' <> gid ->
  l_groups st !! gid' = Some g' ->
  Runtime.handle_event attempt_reconnect cfg now gid recv st = Some st' ->
  l_groups st' !! gid' = Some g'.
Proof.
  intros Hne Hg'. unfold Runtime.handle_event.
  destruct recv as [data|]; [|by intros [= <-]].
  destruct (l_groups st !! gid) as [g|]; [|by intros [= <-]].
  destruct (decode_packet _ _ _) as [[emit fb]|]; simpl; [|done].
  destruct (negb emit).
  { intros [= <-]. simpl. by rewrite lookup_insert_ne. }
  destruct (_ && _).
  { intros [= <-]. simpl. by rewrite lookup_insert_ne. }
  intros [= <-]. by apply apply_packet_other.
Qed.

End Reconnect.

(** *** The loop goes on *)

Lemma handle_events_total cfg now events : forall st,
  no_empty_datagram events ->
  is_Some (handle_events attempt_reconnect cfg now events st).
Proof.
  induction events as [|[gid recv] events IH]; intros st Hev; simpl.
  - by eexists.
  - apply Forall_cons in Hev as [Hne Hev]. simpl in Hne.
    destruct (Runtime.handle_event attempt_reconnect cfg now gid recv st)
      as [st1|] eqn:E; simpl; [by apply IH|].
    unfold Runtime.handle_event in E.
    destruct recv as [data|]; [|done].
    destruct (l_groups st !! gid) as [g|]; [|done].
    destruct (decode_packet _ _ _) as [[emit fb]|] eqn:Hdec.
    { simpl in E. destruct (negb emit); [done|]. by destruct (_ && _). }
    apply decode_packet_raises in Hdec as [-> _]. done.
Qed.

(** X14: the loop survives every datagram but the empty one.  Over any
    number of iterations in which no socket delivers an empty datagram,
    the loop body never raises: whatever the bytes received, the protocol
    of the groups, the answers of the SDK and the clock, every iteration
    runs to its end. *)
Theorem loop_never_raises_without_empty_datagram cfg iterations : forall st,
  Forall (fun it => no_empty_datagram it.2) iterations ->
  is_Some (run_iterations attempt_reconnect request_control is_icue_connected
             cfg iterations st).
Proof.
  induction iterations as [|[now events] its IH]; intros st Hits; simpl.
  - by eexists.
  - apply Forall_cons in Hits as [Hev Hits]. simpl in Hev.
    unfold loop_iteration. cbv zeta.
    match goal with
    | |- context [handle_events _ cfg now events ?X] =>
        destruct (handle_events_total cfg now events X Hev) as [st1 ->]
    end.
    simpl. by apply IH.
Qed.

End Loop.

(** *** On the sample installation *)

Import Samples LoopSamples.

Lemma loop_keeps_group_shape_witness :
  let st' := default wled_loop (iterate two_iterations wled_loop) in
  (exists g', l_groups st' !! 0%nat = Some g' /\
     same_shape (sample_group "wled" sample_map ["kbd"; "fan"]) g') /\
  exists evs,
    l_log st' = l_log wled_loop ++ evs /\
    forall origin frame res,
      EvApply origin 0%nat frame res ∈ evs -> length frame = 9%nat.
Proof.
  intros st'.
  apply (loop_keeps_group_shape reconnect_in_cooldown
           request_control_ok connected
           ltac:(done) sample_cfg two_iterations 0%nat
           (sample_group "wled" sample_map ["kbd"; "fan"])
           wled_loop st').
  - reflexivity.
  - vm_compute. reflexivity.
Defined.

Lemma handle_event_leaves_other_groups_witness :
  let st' := default two_groups
               (Runtime.handle_event reconnect_in_cooldown sample_cfg 101
                  1%nat (Some six_bytes) two_groups) in
  l_groups st' !! 0%nat
  = Some (sample_group "wled" sample_map ["kbd"; "fan"]).
Proof.
  intros st'.
  apply (handle_event_leaves_other_groups reconnect_in_cooldown
           ltac:(done) sample_cfg 101%float 1%nat 0%nat
           (Some six_bytes) _ two_groups st').
  - done.
  - reflexivity.
  - vm_compute. reflexivity.
Defined.

Lemma loop_never_raises_without_empty_datagram_witness :
  is_Some (iterate two_iterations wled_loop).
Proof.
  apply (loop_never_raises_without_empty_datagram
           reconnect_in_cooldown request_control_ok
           connected sample_cfg two_iterations
           wled_loop).
  unfold two_iterations, no_empty_datagram.
  repeat constructor; simpl; discriminate.
Defined.

End LoopFacts.

(* --------------------------------------------------------------------- *)
(** ** The rate limit *)
(* --------------------------------------------------------------------- *)

Module RateLimit.
Import Py PyFacts Decoders Mapper Runtime Notions DecoderNotions FrameNotions
  DecoderSafety DecoderFacts PacketLoop LoopFacts FloatFacts Samples
  LoopSamples.

(** *** The frame after a datagram *)











Section Loop.

Context {S : Type} `{Sdk S}.

Variable attempt_reconnect : string -> Loop S -> Loop S.

Abbreviation handle_event := (Runtime.handle_event attempt_reconnect).


End Loop.

(** *** On the sample installation *)



(** The empty datagram on a "ddp" group, a hundredth of a second after
    the last send: the decoder raises, and the exception leaves the
    loop. *)
Lemma empty_datagram_on_ddp_group_raises :
  Runtime.handle_event reconnect_in_cooldown sample_cfg 100.01 0 (Some [])
    ddp_loop = None.
Proof. vm_compute. reflexivity. Qed.

End RateLimit.

(* --------------------------------------------------------------------- *)
(** ** The color of a map entry *)
(* --------------------------------------------------------------------- *)

Module ColorFacts.
Import Py PyFacts Mapper ColorNotions DecoderSafety DecoderFacts.

(** *** Truncation of a small float *)














End ColorFacts.
